(** * iCAT-workflow: [icatapi/montage.py]

    A shallow embedding of the four orchestration functions of
    [src/icatapi/montage.py] and the properties stated about them.

    - Python values that travel through the tables are [pyval]s.
    - A [pandas.DataFrame] is a list of column names and a list of rows,
      each row carrying its index label; a cell that a row does not hold
      is pandas' missing value.
    - The remote service ([render-ws]) is an interface [RenderClient] over
      an abstract service state: every endpoint maps the service state to a
      response and a new state.  The functions log every call they make.
    - Exceptions are values of [exn]; a computation is a function from the
      state to a [result] and the state reached. *)

From Stdlib Require Import ZArith Lia Ascii String.
From stdpp Require Import base option list sorting gmap strings.

Local Open Scope string_scope.
Local Open Scope list_scope.
Local Open Scope Z_scope.

(** ** Python values *)

(** [PFloat] carries the bit pattern of a float: the code never computes
    with one.  [PNaN] is pandas' missing value.  [PSeries] is what [.loc]
    returns when the label selects several rows. *)
#[warnings="-register-all"]
Inductive pyval : Type :=
| PNone
| PNaN
| PBool (b : bool)
| PInt (n : Z)
| PFloat (bits : Z)
| PStr (s : string)
| PList (l : list pyval)
| PDict (kvs : list (string * pyval))
| PSeries (l : list pyval).

(** A JSON object as the client library decodes it: a [dict] with string keys. *)
Definition json_object : Type := list (string * pyval).

(** ** Exceptions *)

Inductive exn : Type :=
| KeyError (key : string)
| TypeError (msg : string)
| ValueError (msg : string).

Inductive result (A : Type) : Type :=
| Ok (a : A)
| Raise (e : exn).
Arguments Ok {A} a.
Arguments Raise {A} e.

Definition is_Ok {A} (r : result A) : bool :=
  match r with Ok _ => true | Raise _ => false end.

Definition rbind {A B} (r : result A) (f : A -> result B) : result B :=
  match r with
  | Ok a => f a
  | Raise e => Raise e
  end.

(** [[f(x) for x in l]] where [f] may raise: the first exception wins. *)
Fixpoint rmap {A B} (f : A -> result B) (l : list A) : result (list B) :=
  match l with
  | [] => Ok []
  | x :: l' => rbind (f x) (fun y => rbind (rmap f l') (fun ys => Ok (y :: ys)))
  end.

(** ** [re.findall(r'\d+', x)] and [int] *)

(** Strings are sequences of 8-bit characters; the decimal digits are
    ['0'] to ['9']. *)

Definition is_digit (c : ascii) : bool :=
  (48 <=? nat_of_ascii c)%nat && (nat_of_ascii c <=? 57)%nat.

(** Push the run read so far, when there is one. *)
Definition flush_run (cur : string) (acc : list string) : list string :=
  match cur with
  | EmptyString => acc
  | _ => acc ++ [cur]
  end.

(** Left-to-right scan for the maximal runs of decimal digits; [cur] is the
    run being read and [acc] the runs already closed. *)
Fixpoint scan_digits (x : string) (cur : string) (acc : list string) : list string :=
  match x with
  | EmptyString => flush_run cur acc
  | String c x' =>
      if is_digit c
      then scan_digits x' (cur +:+ String c EmptyString) acc
      else scan_digits x' EmptyString (flush_run cur acc)
  end.

Definition findall_digits (x : string) : list string :=
  scan_digits x EmptyString [].

Definition digit_value (c : ascii) : Z := Z.of_nat (nat_of_ascii c) - 48.

Fixpoint int_of_digits_from (acc : Z) (s : string) : Z :=
  match s with
  | EmptyString => acc
  | String c s' => int_of_digits_from (10 * acc + digit_value c) s'
  end.

(** [int(i)] on a run of decimal digits. *)
Definition int_of_digits (s : string) : Z := int_of_digits_from 0 s.

(** The slice [l[-2:]]. *)
Definition last_two {A} (l : list A) : list A :=
  drop (length l - 2)%nat l.

(** [lambda x: [int(i) for i in re.findall(r'\d+', x)[-2:]]].
    [re.findall] accepts a [str] only. *)
Definition tile_numbers (x : pyval) : result (list Z) :=
  match x with
  | PStr s => Ok (int_of_digits <$> last_two (findall_digits s))
  | _ => Raise (TypeError "expected string or bytes-like object")
  end.

(** ** Data frames *)

Abbreviation row := (gmap string pyval).

Record DataFrame : Type := mkDataFrame {
  columns : list string;
  rows : list (Z * row)
}.

(** [len(df)] *)
Definition df_len (df : DataFrame) : nat := length (rows df).

(** [df.index] *)
Definition df_index (df : DataFrame) : list Z := fst <$> rows df.

(** The cell of a row under a column; a row that lacks it holds NaN. *)
Definition cell (r : row) (col : string) : pyval := default PNaN (r !! col).

(** [pd.DataFrame(columns=cols)] *)
Definition DataFrame_new (cols : list string) : DataFrame :=
  mkDataFrame cols [].

Definition add_column (col : string) (cols : list string) : list string :=
  if bool_decide (col ∈ cols) then cols else cols ++ [col].

(** [df[col] = v] for a scalar [v]. *)
Definition set_scalar (col : string) (v : pyval) (df : DataFrame) : DataFrame :=
  mkDataFrame (add_column col (columns df))
              ((fun lr : Z * row => (lr.1, <[col := v]> lr.2)) <$> rows df).

(** [pd.concat([df1, df2])]: rows of [df1], then rows of [df2], labels kept;
    the columns are the union, those of [df1] first. *)
Definition concat_frames (df1 df2 : DataFrame) : DataFrame :=
  mkDataFrame (foldl (fun cols c => add_column c cols) (columns df1) (columns df2))
              (rows df1 ++ rows df2).

(** [df.reset_index(drop=True)] *)
Definition reset_index (df : DataFrame) : DataFrame :=
  mkDataFrame (columns df) (imap (fun i lr => (Z.of_nat i, lr.2)) (rows df)).

Definition rename_key (old new : string) (r : row) : row :=
  match r !! old with
  | Some v => <[new := v]> (delete old r)
  | None => r
  end.

(** [df.rename(columns={old: new})] *)
Definition rename_column (old new : string) (df : DataFrame) : DataFrame :=
  mkDataFrame ((fun c => if bool_decide (c = old) then new else c) <$> columns df)
              ((fun lr : Z * row => (lr.1, rename_key old new lr.2)) <$> rows df).

(** [df[col]]: the column's values in row order. *)
Definition get_column (col : string) (df : DataFrame) : result (list pyval) :=
  if bool_decide (col ∈ columns df)
  then Ok ((fun lr : Z * row => cell lr.2 col) <$> rows df)
  else Raise (KeyError col).

(** Flattening of nested dictionaries by [pd.json_normalize]: a nested
    dictionary contributes its entries under dotted keys, any other value
    is kept as it is. *)
Fixpoint flatten_value (key : string) (v : pyval) {struct v} : list (string * pyval) :=
  match v with
  | PDict kvs =>
      (fix go (kvs : list (string * pyval)) : list (string * pyval) :=
         match kvs with
         | [] => []
         | (k, v') :: rest => flatten_value (key +:+ "." +:+ k) v' ++ go rest
         end) kvs
  | _ => [(key, v)]
  end.

Definition nested_to_record (d : json_object) : list (string * pyval) :=
  concat ((fun kv : string * pyval => flatten_value kv.1 kv.2) <$> d).

Definition record_row (d : json_object) : row :=
  foldl (fun (m : row) kv => <[kv.1 := kv.2]> m) ∅ (nested_to_record d).

(** [pd.json_normalize(data)] for a list of JSON objects: one row per
    object, labelled 0, 1, ... *)
Definition json_normalize (data : list json_object) : DataFrame :=
  mkDataFrame
    (foldl (fun cols c => add_column c cols) []
           (concat ((fun d => fst <$> nested_to_record d) <$> data)))
    (imap (fun i d => (Z.of_nat i, record_row d)) data).

(** A two-dimensional integer array: its rows and the length of each.
    The elements are carried as exact integers. *)
Record ndarray2 : Type := mkArray {
  arr_rows : list (list Z);
  arr_width : nat
}.

(** [np.stack(arrays)]: needs one array at least, all of one shape. *)
Definition np_stack (arrays : list (list Z)) : result ndarray2 :=
  match arrays with
  | [] => Raise (ValueError "need at least one array to stack")
  | a :: rest =>
      if forallb (fun b => Nat.eqb (length b) (length a)) rest
      then Ok (mkArray arrays (length a))
      else Raise (ValueError "all input arrays must have the same shape")
  end.

Definition set_pair (k1 k2 : string) (lr : Z * row) (vals : list Z) : Z * row :=
  (lr.1, <[k2 := PInt (nth 1 vals 0)]> (<[k1 := PInt (nth 0 vals 0)]> lr.2)).

(** [df[[k1, k2]] = value] for a two-dimensional array: the array needs as
    many columns as there are keys and as many rows as the frame; column
    [i] of the array becomes column [ki], by position. *)
Definition set_columns2 (k1 k2 : string) (value : ndarray2) (df : DataFrame)
  : result DataFrame :=
  if negb (Nat.eqb (arr_width value) 2)
  then Raise (ValueError "Columns must be same length as key")
  else if negb (Nat.eqb (length (arr_rows value)) (df_len df))
  then Raise (ValueError "Length of values does not match length of index")
  else Ok (mkDataFrame (add_column k2 (add_column k1 (columns df)))
                       (zip_with (set_pair k1 k2) (rows df) (arr_rows value))).

(** [df[[kc, kr]] = np.stack(df[idcol].apply(lambda x: ...))] *)
Definition add_colrow (idcol kc kr : string) (df : DataFrame) : result DataFrame :=
  rbind (get_column idcol df) (fun ids =>
  rbind (rmap tile_numbers ids) (fun nums =>
  rbind (np_stack nums) (fun arr =>
  set_columns2 kc kr arr df))).

(** ** The remote service and the call log *)

(** The JSON the tile-pair client returns. *)
Record tile_pairs_json : Type := mkTilePairs {
  renderParametersUrlTemplate : string;
  neighborPairs : list json_object
}.

(** The endpoints of [renderapi] the module calls, over a service state [W];
    [K] is the type of the keyword arguments that are passed through. *)
Record RenderClient (W K : Type) : Type := mkRenderClient {
  ws_z_values_for_stack : string -> W -> list pyval * W;
  ws_tile_pairs : string -> pyval -> pyval -> K -> W -> tile_pairs_json * W;
  ws_section_z_value : string -> string -> W -> pyval * W;
  ws_matches_within_group : string -> string -> W -> list json_object * W;
  ws_match_groupIds : string -> W -> list string * W
}.
Arguments ws_z_values_for_stack {W K} _ _ _.
Arguments ws_tile_pairs {W K} _ _ _ _ _ _.
Arguments ws_section_z_value {W K} _ _ _ _.
Arguments ws_matches_within_group {W K} _ _ _ _.
Arguments ws_match_groupIds {W K} _ _ _.

(** One entry per remote call, with its arguments and its response. *)
Inductive ws_call (K : Type) : Type :=
| Call_z_values_for_stack (stack : string) (resp : list pyval)
| Call_tile_pairs (stack : string) (minz maxz : pyval) (kwargs : K)
                  (resp : tile_pairs_json)
| Call_section_z_value (stack sectionId : string) (resp : pyval)
| Call_matches_within_group (matchCollection groupId : string)
                            (resp : list json_object)
| Call_match_groupIds (matchCollection : string) (resp : list string).
Arguments Call_z_values_for_stack {K} _ _.
Arguments Call_tile_pairs {K} _ _ _ _ _.
Arguments Call_section_z_value {K} _ _ _.
Arguments Call_matches_within_group {K} _ _ _.
Arguments Call_match_groupIds {K} _ _.

Record session (W K : Type) : Type := mkSession {
  service : W;
  calls : list (ws_call K)
}.
Arguments mkSession {W K} _ _.
Arguments service {W K} _.
Arguments calls {W K} _.

(** Computations over a state [S] that may raise. *)
Definition M (S A : Type) : Type := S -> result A * S.

Definition ret {S A} (a : A) : M S A := fun s => (Ok a, s).

Definition bind {S A B} (m : M S A) (f : A -> M S B) : M S B :=
  fun s =>
    match m s with
    | (Ok a, s') => f a s'
    | (Raise e, s') => (Raise e, s')
    end.

Definition lift_result {S A} (r : result A) : M S A := fun s => (r, s).

Declare Scope py_scope.
Delimit Scope py_scope with py.
Notation "x <- c1 ;; c2" := (bind c1 (fun x => c2))
  (at level 100, c1 at next level, right associativity) : py_scope.
Notation "c1 ;;; c2" := (bind c1 (fun _ => c2))
  (at level 100, right associativity) : py_scope.
Local Open Scope py_scope.

(** [for x in l: acc = body(acc, x)] *)
Fixpoint for_loop {S A B} (l : list A) (acc : B) (body : B -> A -> M S B)
  : M S B :=
  match l with
  | [] => ret acc
  | x :: l' => acc' <- body acc x ;; for_loop l' acc' body
  end.

(** [for x in l: body(x)] *)
Definition for_each {S A} (l : list A) (body : A -> M S unit) : M S unit :=
  for_loop l tt (fun _ x => body x).

(** A remote call: the service answers and the call is logged. *)
Definition remote {W K A} (f : W -> A * W) (entry : A -> ws_call K)
  : M (session W K) A :=
  fun s =>
    let (a, w) := f (service s) in
    (Ok a, mkSession w (calls s ++ [entry a])).

Section Fetchers.
Context {W K : Type}.

Definition get_z_values_for_stack (stack : string) (render : RenderClient W K)
  : M (session W K) (list pyval) :=
  remote (ws_z_values_for_stack render stack) (Call_z_values_for_stack stack).

Definition tilePairClient (stack : string) (minz maxz : pyval)
    (render : RenderClient W K) (kwargs : K) : M (session W K) tile_pairs_json :=
  remote (ws_tile_pairs render stack minz maxz kwargs)
         (Call_tile_pairs stack minz maxz kwargs).

Definition get_section_z_value (stack sectionId : string)
    (render : RenderClient W K) : M (session W K) pyval :=
  remote (ws_section_z_value render stack sectionId)
         (Call_section_z_value stack sectionId).

Definition get_matches_within_group (matchCollection groupId : string)
    (render : RenderClient W K) : M (session W K) (list json_object) :=
  remote (ws_matches_within_group render matchCollection groupId)
         (Call_matches_within_group matchCollection groupId).

Definition get_match_groupIds (matchCollection : string)
    (render : RenderClient W K) : M (session W K) (list string) :=
  remote (ws_match_groupIds render matchCollection)
         (Call_match_groupIds matchCollection).

(** The frame one tile-pair call contributes (lines 89-90). *)
Definition pairs_frame (z : pyval) (tile_pairs_json : tile_pairs_json) : DataFrame :=
  let df := json_normalize (neighborPairs tile_pairs_json) in
  set_scalar "z" z df.

Definition get_tile_pairs_4_montage (stack : string) (render : RenderClient W K)
    (tilePairClient_kwargs : K) : M (session W K) DataFrame :=
  let df_pairs := DataFrame_new ["stack"; "z"] in
  z_values <- get_z_values_for_stack stack render ;;
  df_pairs <- for_loop z_values df_pairs (fun df_pairs z =>
    tile_pairs_json <- tilePairClient stack z z render tilePairClient_kwargs ;;
    let df := pairs_frame z tile_pairs_json in
    ret (concat_frames df_pairs df)) ;;
  let df_pairs := set_scalar "stack" (PStr stack) df_pairs in
  ret (reset_index df_pairs).

(** The frame one section contributes (lines 237-239). *)
Definition matches_frame (z : pyval) (matches_json : list json_object) : DataFrame :=
  let df := json_normalize matches_json in
  let df := set_scalar "z" z df in
  rename_column "matchCount" "N" df.

Definition get_matches_within_section (stack sectionId match_collection : string)
    (render : RenderClient W K) : M (session W K) DataFrame :=
  z <- get_section_z_value stack sectionId render ;;
  matches_json <- get_matches_within_group match_collection sectionId render ;;
  ret (matches_frame z matches_json).

(** Lines 259-279 of [get_matches_within_stack]: the matches of all
    sections, concatenated and tagged with the stack. *)
Definition collect_matches (stack match_collection : string)
    (render : RenderClient W K) : M (session W K) DataFrame :=
  let df_matches := DataFrame_new ["stack"; "z"; "pGroupId"; "pId"; "pc"; "pr";
                                   "qGroupId"; "qId"; "qc"; "qr"] in
  sectionIds <- get_match_groupIds match_collection render ;;
  df_matches <- for_loop sectionIds df_matches (fun df_matches sectionId =>
    df <- get_matches_within_section stack sectionId match_collection render ;;
    ret (concat_frames df_matches df)) ;;
  ret (set_scalar "stack" (PStr stack) df_matches).

Definition get_matches_within_stack (stack match_collection : string)
    (render : RenderClient W K) : M (session W K) DataFrame :=
  df_matches <- collect_matches stack match_collection render ;;
  df_matches <- lift_result (add_colrow "pId" "pc" "pr" df_matches) ;;
  df_matches <- lift_result (add_colrow "qId" "qc" "qr" df_matches) ;;
  ret df_matches.

End Fetchers.

(** ** The point-match dispatcher *)

(** A row of the tile-pair table, with the columns the dispatcher reads. *)
Record tile_pair : Type := mkTilePair {
  tp_stack : string;
  tp_z : Z;
  p_id : string;
  q_id : string;
  p_relativePosition : pyval
}.

(** The tile-pair table: rows with their index labels. *)
Abbreviation pairs_table := (list (Z * tile_pair)).

(** Python's order on the tuples [(stack, z)]. *)
Definition key_le (k1 k2 : string * Z) : Prop :=
  match String.compare k1.1 k2.1 with
  | Lt => True
  | Eq => k1.2 <= k2.2
  | Gt => False
  end.

#[global] Instance key_le_dec : RelDecision key_le :=
  fun k1 k2 =>
    match String.compare k1.1 k2.1 as c
      return Decision (match c with Lt => True | Eq => k1.2 <= k2.2 | Gt => False end)
    with
    | Lt => left I
    | Eq => decide (k1.2 <= k2.2)
    | Gt => right (fun absurd => absurd)
    end.

Section GroupBy.
Context {Kt : Type} `{EqDecision Kt} (le : relation Kt) `{!RelDecision le}.

(** [df.groupby(key)]: the distinct keys in increasing order, each with
    the rows that carry it, in table order. *)
Definition groupby {A} (key : A -> Kt) (l : list A) : list (Kt * list A) :=
  (fun k => (k, filter (fun x => key x = k) l))
    <$> merge_sort le (remove_dups (key <$> l)).

(** [df.groupby(keys)] for an array of keys aligned with the rows by
    position. *)
Definition groupby_array {A} (keys : list Kt) (l : list A) : list (Kt * list A) :=
  (fun g : Kt * list (Kt * A) => (g.1, snd <$> g.2))
    <$> groupby (fst : Kt * A -> Kt) (zip keys l).
End GroupBy.

(** [np.arange(n) // batch_size]; numpy's integer floor division yields 0
    for a zero divisor. *)
Definition batch_grouping (n : nat) (batch_size : Z) : list Z :=
  (fun i => Z.of_nat i / batch_size) <$> seq 0 n.

(** [batch.loc[i, 'p.relativePosition']]: the cell of the row labelled [i],
    or a Series of the cells of all rows labelled [i] when there are several. *)
Definition loc_relativePosition (batch : pairs_table) (i : Z) : pyval :=
  match filter (fun lr => lr.1 = i) batch with
  | [lr] => p_relativePosition lr.2
  | sel => PSeries ((fun lr => p_relativePosition lr.2) <$> sel)
  end.

(** The attributes of an object, its [__dict__]. *)
Abbreviation attrs := (gmap string pyval).

(** One call of [pointMatchClient], with its keyword arguments. *)
Record pm_call (R K : Type) : Type := mkCall {
  pm_stack : string;
  pm_collection : string;
  pm_tile_pairs : list (string * string);
  pm_sift_options : attrs;
  pm_render : R;
  pm_kwargs : K
}.
Arguments mkCall {R K} _ _ _ _ _ _.
Arguments pm_stack {R K} _.
Arguments pm_collection {R K} _.
Arguments pm_tile_pairs {R K} _.
Arguments pm_sift_options {R K} _.
Arguments pm_render {R K} _.
Arguments pm_kwargs {R K} _.

(** What one [pool.map] was given: the pool's size and the calls to make. *)
Record pool_job (R K : Type) : Type := mkJob {
  job_size : Z;
  job_calls : list (pm_call R K)
}.
Arguments mkJob {R K} _ _.
Arguments job_size {R K} _.
Arguments job_calls {R K} _.

(** The dispatcher's state: the objects alive, by identity, and the pools
    it has run so far. *)
Record dstate (R K : Type) : Type := mkDState {
  heap : gmap nat attrs;
  submitted : list (pool_job R K)
}.
Arguments mkDState {R K} _ _.
Arguments heap {R K} _.
Arguments submitted {R K} _.

Section Dispatcher.
Context {R K : Type}.

(** The attributes [SiftPointMatchOptions.__init__] leaves on the new
    object, from the keyword arguments it is given. *)
Variable SiftPointMatchOptions_init : attrs -> attrs.

(** [obj.__dict__] *)
Definition get_dict (obj : nat) : M (dstate R K) attrs :=
  fun s => (Ok (heap s !!! obj), s).

(** The constructor call of [SiftPointMatchOptions] with the keyword
    arguments [kwargs]: a new object. *)
Definition SiftPointMatchOptions (kwargs : attrs) : M (dstate R K) nat :=
  fun s =>
    let obj := fresh (dom (heap s)) in
    (Ok obj, mkDState (<[obj := SiftPointMatchOptions_init kwargs]> (heap s))
                      (submitted s)).

(** [obj.name = v] *)
Definition setattr (obj : nat) (name : string) (v : pyval) : M (dstate R K) unit :=
  fun s => (Ok tt, mkDState (alter (insert name v) obj (heap s)) (submitted s)).

(** [match_collections[stack]] *)
Definition getitem (d : gmap string string) (k : string) : result string :=
  match d !! k with
  | Some v => Ok v
  | None => Raise (KeyError k)
  end.

Definition run_point_match_client (data : list (string * string) * attrs)
    (stack collection : string) (render : R) (pointMatchClient_kwargs : K)
  : pm_call R K :=
  let (tile_pair_batch, sift_options) := data in
  mkCall stack collection tile_pair_batch sift_options render
         pointMatchClient_kwargs.

(** [with WithPool(N_cores) as pool: pool.map(f, tasks)]: the tasks are
    sent to the workers with the contents the option objects have then. *)
Definition WithPool_map (N_cores : Z)
    (f : list (string * string) * attrs -> pm_call R K)
    (tasks : list (list (string * string) * nat)) : M (dstate R K) unit :=
  fun s =>
    if N_cores <? 1
    then (Raise (ValueError "Number of processes must be at least 1"), s)
    else (Ok tt,
          mkDState (heap s)
            (submitted s ++
               [mkJob N_cores ((fun t => f (t.1, heap s !!! t.2)) <$> tasks)])).

(** Lines 198-204: one new options object per index label of the batch.
    The accumulator is the local name [sift_options] and the list built. *)
Definition clone_options (batch : pairs_table) (sift_options : nat)
  : M (dstate R K) (nat * list nat) :=
  for_loop (fst <$> batch) (sift_options, [])
    (fun '(sift_options, sift_options_batch) i =>
       kwargs <- get_dict sift_options ;;
       sift_options <- SiftPointMatchOptions kwargs ;;
       setattr sift_options "firstCanvasPosition" (loc_relativePosition batch i) ;;;
       ret (sift_options, sift_options_batch ++ [sift_options])).

(** Lines 187-208: the body of the loop over batches. *)
Definition process_batch (match_collections : gmap string string) (render : R)
    (N_cores : Z) (pointMatchClient_kwargs : K) (stack : string)
    (sift_options : nat) (batch : pairs_table) : M (dstate R K) nat :=
  collection <- lift_result (getitem match_collections stack) ;;
  let point_match_client_partial := fun data =>
    run_point_match_client data stack collection render pointMatchClient_kwargs in
  let tp_batch := (fun lr => [(p_id lr.2, q_id lr.2)]) <$> batch in
  cloned <- clone_options batch sift_options ;;
  let '(sift_options, sift_options_batch) := cloned in
  WithPool_map N_cores point_match_client_partial
               (zip tp_batch sift_options_batch) ;;;
  ret sift_options.

(** The batches of one [(stack, z)] group (lines 184-185). *)
Definition batches_of (batch_size : Z) (tile_pairs : pairs_table)
  : list pairs_table :=
  let grouping := batch_grouping (length tile_pairs) batch_size in
  snd <$> groupby_array Z.le grouping tile_pairs.

(** The [(stack, z)] groups (line 181). *)
Definition sections_of (df_pairs : pairs_table)
  : list (string * Z * pairs_table) :=
  groupby key_le (fun lr => (tp_stack lr.2, tp_z lr.2)) df_pairs.

(** [generate_point_matches]; [sift_options] is the object the caller
    passes, and the local name is rebound along the loops. *)
Definition generate_point_matches (df_pairs : pairs_table)
    (match_collections : gmap string string) (sift_options : nat) (render : R)
    (N_cores batch_size : Z) (pointMatchClient_kwargs : K)
  : M (dstate R K) unit :=
  for_loop (sections_of df_pairs) sift_options
    (fun sift_options '((stack, z), tile_pairs) =>
       for_loop (batches_of batch_size tile_pairs) sift_options
         (process_batch match_collections render N_cores
                        pointMatchClient_kwargs stack)) ;;;
  ret tt.

(** The batches in the order the two loops visit them, each with the
    stack of its group. *)
Definition all_batches (df_pairs : pairs_table) (batch_size : Z)
  : list (string * pairs_table) :=
  concat ((fun g : string * Z * pairs_table =>
             (fun batch => (g.1.1, batch)) <$> batches_of batch_size g.2)
            <$> sections_of df_pairs).

(** The values [batch.loc[i, 'p.relativePosition']] for the labels of the
    batch, in order. *)
Definition batch_positions (batch : pairs_table) : list pyval :=
  loc_relativePosition batch <$> (fst <$> batch).

(** The attributes of the successive clones: each is built from the
    attributes of the object the local name was bound to before. *)
Fixpoint clone_chain (d : attrs) (vs : list pyval) : list attrs :=
  match vs with
  | [] => []
  | v :: vs' =>
      let d' := <["firstCanvasPosition" := v]> (SiftPointMatchOptions_init d) in
      d' :: clone_chain d' vs'
  end.

(** The attributes of the object the local name is bound to at the end. *)
Definition chain_end (d : attrs) (vs : list pyval) : attrs :=
  foldl (fun d v => <["firstCanvasPosition" := v]> (SiftPointMatchOptions_init d))
        d vs.

(** The pool job of one batch, when the local name is bound to an object
    with attributes [d]. *)
Definition batch_job (N_cores : Z) (stack collection : string) (render : R)
    (kwargs : K) (d : attrs) (batch : pairs_table) : pool_job R K :=
  mkJob N_cores
    (zip_with (fun (lr : Z * tile_pair) d' =>
                 mkCall stack collection [(p_id lr.2, q_id lr.2)] d' render kwargs)
              batch (clone_chain d (batch_positions batch))).

(** The pool jobs of a list of batches, up to the first batch that raises. *)
Fixpoint expected_jobs (match_collections : gmap string string) (render : R)
    (N_cores : Z) (kwargs : K) (d : attrs) (bs : list (string * pairs_table))
  : list (pool_job R K) :=
  match bs with
  | [] => []
  | b :: bs' =>
      match match_collections !! b.1 with
      | None => []
      | Some collection =>
          if N_cores <? 1 then []
          else batch_job N_cores b.1 collection render kwargs d b.2
                 :: expected_jobs match_collections render N_cores kwargs
                      (chain_end d (batch_positions b.2)) bs'
      end
  end.

End Dispatcher.

(** Consecutive batches of [b] rows each, the last one possibly shorter. *)
Definition consecutive_batches {A} (b : nat) (l : list A) : list (list A) :=
  (fun k => take b (drop (k * b) l)) <$> seq 0 ((length l + b - 1) / b)%nat.

(** The label [i] marks one row of the batch only. *)
Definition label_unique (batch : pairs_table) (i : Z) : Prop :=
  length (filter (fun lr : Z * tile_pair => lr.1 = i) batch) = 1%nat.

(** The options of the call made for row [lr] of [batch], against the
    attributes [d0] of the template: every attribute but the canvas position
    is the template's; the canvas position is what [.loc] returns for the
    label of the row, which is the cell of the row when its label is unique
    in the batch. *)
Definition clone_of_template {R K} (d0 : attrs) (batch : pairs_table)
    (c : pm_call R K) (lr : Z * tile_pair) : Prop :=
  (forall k, k ≠ "firstCanvasPosition" -> pm_sift_options c !! k = d0 !! k)
  /\ pm_sift_options c !! "firstCanvasPosition"
     = Some (loc_relativePosition batch lr.1)
  /\ (label_unique batch lr.1 ->
      pm_sift_options c !! "firstCanvasPosition" = Some (p_relativePosition lr.2)).

(** The target of the call made for a row: the stack of the row, the
    collection the mapping gives for it and the pair of tile ids. *)
Definition row_target (match_collections : gmap string string) (lr : Z * tile_pair)
  : string * string * list (string * string) :=
  (tp_stack lr.2, match_collections !!! tp_stack lr.2, [(p_id lr.2, q_id lr.2)]).

(** What [pointMatchClient] is told about the pair: stack, collection, tile ids. *)
Definition call_target {R K} (c : pm_call R K) : string * string * list (string * string) :=
  (pm_stack c, pm_collection c, pm_tile_pairs c).

(** Demo table: ten pairs of one section. *)
Definition demo_row (i : nat) : Z * tile_pair :=
  (Z.of_nat i,
   mkTilePair "lil_EM" 1 (String (ascii_of_nat (97 + i)) "-0x0")
              (String (ascii_of_nat (97 + i)) "-1x0")
              (PStr (if Nat.even i then "LEFT" else "TOP"))).

Definition demo_pairs : pairs_table := demo_row <$> seq 0 10.

Definition demo_template : attrs :=
  {[ "renderScale" := PFloat 4; "SIFTsteps" := PInt 3 ]}.

Definition demo_dstate : dstate unit unit := mkDState {[ 0%nat := demo_template ]} [].

Definition demo_collections : gmap string string :=
  {[ "lil_EM" := "lil_EM_points" ]}.

(** Two rows that share the index label 0. *)
Definition twin_pairs : pairs_table :=
  [(0, mkTilePair "lil_EM" 1 "a-0x0" "a-1x0" (PStr "LEFT"));
   (0, mkTilePair "lil_EM" 1 "b-0x0" "b-0x1" (PStr "TOP"))].


(** ** Execution of the pools *)

(** What can be observed of the workers; every event carries the number
    of the batch (pool) it belongs to. *)
Inductive event (R K : Type) : Type :=
| EvPoolOpen (batch : nat) (size : Z)
| EvInvoke (batch : nat) (c : pm_call R K)
| EvReturn (batch : nat) (c : pm_call R K)
| EvPoolClose (batch : nat).
Arguments EvPoolOpen {R K} _ _.
Arguments EvInvoke {R K} _ _.
Arguments EvReturn {R K} _ _.
Arguments EvPoolClose {R K} _.

(** The pool that is open: its size, the calls not yet started and the
    calls running. *)
Record pool (R K : Type) : Type := mkPool {
  pool_size : Z;
  pending : list (pm_call R K);
  running : list (pm_call R K)
}.
Arguments mkPool {R K} _ _ _.
Arguments pool_size {R K} _.
Arguments pending {R K} _.
Arguments running {R K} _.

Record machine (R K : Type) : Type := mkMachine {
  m_batch : nat;
  m_todo : list (pool_job R K);
  m_pool : option (pool R K)
}.
Arguments mkMachine {R K} _ _ _.
Arguments m_batch {R K} _.
Arguments m_todo {R K} _.
Arguments m_pool {R K} _.

(** The [with] block opens a pool for the next batch only when none is
    open; [pool.map] starts any pending call while fewer than [size]
    calls run, and the block ends once every call has returned. *)
Inductive step {R K : Type} : machine R K -> event R K -> machine R K -> Prop :=
| step_open b j todo :
    step (mkMachine b (j :: todo) None)
         (EvPoolOpen b (job_size j))
         (mkMachine b todo (Some (mkPool (job_size j) (job_calls j) [])))
| step_invoke b todo n p1 c p2 run :
    Z.of_nat (length run) < n ->
    step (mkMachine b todo (Some (mkPool n (p1 ++ c :: p2) run)))
         (EvInvoke b c)
         (mkMachine b todo (Some (mkPool n (p1 ++ p2) (c :: run))))
| step_return b todo n pend r1 c r2 :
    step (mkMachine b todo (Some (mkPool n pend (r1 ++ c :: r2))))
         (EvReturn b c)
         (mkMachine b todo (Some (mkPool n pend (r1 ++ r2))))
| step_close b todo n :
    step (mkMachine b todo (Some (mkPool n [] [])))
         (EvPoolClose b)
         (mkMachine (S b) todo None).

Inductive steps {R K : Type} : machine R K -> list (event R K) -> machine R K -> Prop :=
| steps_nil m : steps m [] m
| steps_cons m e m' tr m'' : step m e m' -> steps m' tr m'' -> steps m (e :: tr) m''.

(** The complete executions of a list of pool jobs. *)
Definition executes {R K} (jobs : list (pool_job R K)) (tr : list (event R K)) : Prop :=
  steps (mkMachine 0 jobs None) tr (mkMachine (length jobs) [] None).

Definition event_batch {R K} (e : event R K) : nat :=
  match e with
  | EvPoolOpen b _ | EvInvoke b _ | EvReturn b _ | EvPoolClose b => b
  end.

(** The calls invoked in a trace, in order of invocation. *)
Definition invoked {R K} (tr : list (event R K)) : list (pm_call R K) :=
  omap (fun e => match e with EvInvoke _ c => Some c | _ => None end) tr.

(** The execution in which every call returns before the next one starts. *)
Definition serial_job {R K} (b : nat) (j : pool_job R K) : list (event R K) :=
  EvPoolOpen b (job_size j)
    :: concat ((fun c => [EvInvoke b c; EvReturn b c]) <$> job_calls j)
    ++ [EvPoolClose b].

Definition serial_trace {R K} (jobs : list (pool_job R K)) : list (event R K) :=
  concat (imap serial_job jobs).

(** The calls returned in a trace, in order of return. *)
Definition returned {R K} (tr : list (event R K)) : list (pm_call R K) :=
  omap (fun e => match e with EvReturn _ c => Some c | _ => None end) tr.

(** An event of the workers of pool [b]. *)
Definition worker_event {R K} (b : nat) (e : event R K) : Prop :=
  match e with
  | EvInvoke b' _ | EvReturn b' _ => b' = b
  | _ => False
  end.

(** The events of one pool: it is opened, its calls are invoked and return,
    none returning before it is invoked, and it is closed. *)
Definition pool_segment {R K} (b : nat) (j : pool_job R K) (seg : list (event R K)) : Prop :=
  exists body,
    seg = EvPoolOpen b (job_size j) :: body ++ [EvPoolClose b]
    /\ Forall (worker_event b) body
    /\ invoked body ≡ₚ job_calls j
    /\ returned body ≡ₚ job_calls j
    /\ forall n, returned (take n body) ⊆+ invoked (take n body).

(** A fixed service for the examples: stack ["lil_EM"] has sections 1 and 2. *)
Definition demo_match (g p q : string) : json_object :=
  [("pGroupId", PStr g); ("pId", PStr p); ("qGroupId", PStr g); ("qId", PStr q);
   ("matches", PDict [("p", PList []); ("q", PList []); ("w", PList [])])].

Definition demo_pair (g p q rel : string) : json_object :=
  [("p", PDict [("groupId", PStr g); ("id", PStr p); ("relativePosition", PStr rel)]);
   ("q", PDict [("groupId", PStr g); ("id", PStr q)])].

Definition demo_render : RenderClient unit unit :=
  mkRenderClient unit unit
    (fun _ w => ([PInt 1; PInt 2], w))
    (fun _ minz _ _ w =>
       (mkTilePairs "url"
          (match minz with
           | PInt 1 => [demo_pair "S001" "t-0x0" "t-1x0" "LEFT";
                        demo_pair "S001" "t-0x0" "t-0x1" "TOP"]
           | _ => [demo_pair "S002" "u-0x0" "u-1x0" "LEFT"]
           end), w))
    (fun _ sid w => (if String.eqb sid "S001" then PInt 1 else PInt 2, w))
    (fun _ sid w =>
       (if String.eqb sid "S001"
        then [demo_match "S001" "R3C5" "R3C6"; demo_match "S001" "R3C5" "R4C5"]
        else [demo_match "S002" "t-00004x00017" "t-00005x00017"], w))
    (fun _ w => (["S001"; "S002"], w)).

Definition demo_session : session unit unit := mkSession tt [].

(** A service whose second section holds a tile id with one run of digits. *)
Definition short_id_render : RenderClient unit unit :=
  mkRenderClient unit unit
    (fun _ w => ([PInt 1; PInt 2], w))
    (fun _ _ _ _ w => (mkTilePairs "url" [], w))
    (fun _ sid w => (if String.eqb sid "S001" then PInt 1 else PInt 2, w))
    (fun _ sid w =>
       (if String.eqb sid "S001"
        then [demo_match "S001" "R3C5" "R3C6"]
        else [demo_match "S002" "R4C5" "tile7"], w))
    (fun _ w => (["S001"; "S002"], w)).

(** The two numbers the extraction finds in a tile id, when it finds two. *)
Definition id_numbers (v : pyval) : option (Z * Z) :=
  match tile_numbers v with
  | Ok [a; b] => Some (a, b)
  | _ => None
  end.

(** What the service answered for one section: its z value and its matches. *)
Record section_reply : Type := mkReply {
  sr_id : string;
  sr_z : pyval;
  sr_matches : list json_object
}.

(** The two calls [get_matches_within_section] makes. *)
Definition section_calls {K} (stack match_collection : string) (sec : section_reply)
  : list (ws_call K) :=
  [Call_section_z_value stack (sr_id sec) (sr_z sec);
   Call_matches_within_group match_collection (sr_id sec) (sr_matches sec)].

(** The calls of a run of [get_matches_within_stack] in which the sections
    were answered by [secs]. *)
Definition stack_calls {K} (stack match_collection : string)
    (secs : list section_reply) : list (ws_call K) :=
  Call_match_groupIds match_collection (sr_id <$> secs)
    :: concat (section_calls stack match_collection <$> secs).

(** The row count of the frame the per-section fetcher returns. *)
Definition section_len (sec : section_reply) : nat :=
  df_len (matches_frame (sr_z sec) (sr_matches sec)).

(** What the extraction leaves in one row, on one side. *)
Definition side_extracted (lr : Z * row) (kid kc kr : string) : Prop :=
  exists s ra rb,
    lr.2 !! kid = Some (PStr s)
    /\ last_two (findall_digits s) = [ra; rb]
    /\ lr.2 !! kc = Some (PInt (int_of_digits ra))
    /\ lr.2 !! kr = Some (PInt (int_of_digits rb))
    /\ (s = "R3C5" -> lr.2 !! kc = Some (PInt 3) /\ lr.2 !! kr = Some (PInt 5)).

(** ** Further definitions for the properties *)

(** Strings of decimal digits, and strings without any. *)
Fixpoint digits_only (s : string) : bool :=
  match s with
  | EmptyString => true
  | String c s' => is_digit c && digits_only s'
  end.

Fixpoint no_digit (s : string) : bool :=
  match s with
  | EmptyString => true
  | String c s' => negb (is_digit c) && no_digit s'
  end.

(** The rows a section contributes to the table of the stack, before the
    row/column fields are derived. *)
Definition section_rows (stack : string) (sec : section_reply) : list (Z * row) :=
  imap (fun i d =>
          (Z.of_nat i,
           <["stack" := PStr stack]>
             (rename_key "matchCount" "N" (<["z" := sr_z sec]> (record_row d)))))
       (sr_matches sec).

(** The columns [get_matches_within_stack] writes. *)
Definition written_columns : list string :=
  ["stack"; "z"; "N"; "matchCount"; "pc"; "pr"; "qc"; "qr"].

(** A service with a match record that has no [pId]. *)
Definition no_pid_render : RenderClient unit unit :=
  mkRenderClient unit unit
    (fun _ w => ([PInt 1], w))
    (fun _ _ _ _ w => (mkTilePairs "url" [], w))
    (fun _ _ w => (PInt 1, w))
    (fun _ _ w =>
       ([demo_match "S001" "R3C5" "R3C6";
         [("pGroupId", PStr "S001"); ("qGroupId", PStr "S001"); ("qId", PStr "R4C5")]], w))
    (fun _ w => (["S001"], w)).

(** A table of two stacks, of which [demo_collections] knows the first. *)
Definition two_stack_pairs : pairs_table :=
  demo_pairs ++ [(10, mkTilePair "zebra" 1 "z-0x0" "z-1x0" (PStr "LEFT"))].

(** The batches that get a pool: none without a core; otherwise the
    batches before the first one whose stack has no collection. *)
Fixpoint sent_batches (match_collections : gmap string string) (N_cores : Z)
    (bs : list (string * pairs_table)) : list (string * pairs_table) :=
  match bs with
  | [] => []
  | b :: bs' =>
      match match_collections !! b.1 with
      | None => []
      | Some _ =>
          if N_cores <? 1 then [] else b :: sent_batches match_collections N_cores bs'
      end
  end.

(** A service with one section that holds no match. *)
Definition no_match_render : RenderClient unit unit :=
  mkRenderClient unit unit
    (fun _ w => ([PInt 1], w))
    (fun _ _ _ _ w => (mkTilePairs "url" [], w))
    (fun _ _ w => (PInt 1, w))
    (fun _ _ w => ([], w))
    (fun _ w => (["S001"], w)).

(** * Properties *)

(** ** Results and loops *)

(** Lookups through insertions under literal keys. *)
Ltac lookup_inserts :=
  repeat first [ rewrite lookup_insert_eq
               | rewrite lookup_insert_ne by (by intros [=]) ].

Lemma bind_Ok {S A B} (m : M S A) (f : A -> M S B) (s s' : S) (a : A) :
  m s = (Ok a, s') -> bind m f s = f a s'.
Proof. intros Hm. unfold bind. by rewrite Hm. Qed.

Lemma bind_Raise {S A B} (m : M S A) (f : A -> M S B) (s s' : S) (e : exn) :
  m s = (Raise e, s') -> bind m f s = (Raise e, s').
Proof. intros Hm. unfold bind. by rewrite Hm. Qed.

Lemma rmap_Ok_Forall2 {A B} (f : A -> result B) (l : list A) (l' : list B) :
  rmap f l = Ok l' -> Forall2 (fun x y => f x = Ok y) l l'.
Proof.
  revert l'. induction l as [|x l IH]; intros l' Hl; simpl in Hl.
  - injection Hl as <-. constructor.
  - destruct (f x) as [y|e] eqn:Hx; simpl in Hl; [|discriminate].
    destruct (rmap f l) as [ys|e] eqn:Hys; simpl in Hl; [|discriminate].
    injection Hl as <-. constructor; auto.
Qed.

Lemma Forall2_rmap_Ok {A B} (f : A -> result B) (l : list A) (l' : list B) :
  Forall2 (fun x y => f x = Ok y) l l' -> rmap f l = Ok l'.
Proof.
  induction 1 as [|x y l l' Hx _ IH]; simpl; [done|].
  by rewrite Hx, IH.
Qed.

(** ** Frames *)

Lemma elem_of_add_column c c' cols : c ∈ cols -> c ∈ add_column c' cols.
Proof.
  unfold add_column. case_bool_decide; [done|]. set_solver.
Qed.

Lemma elem_of_add_column_same c cols : c ∈ add_column c cols.
Proof.
  unfold add_column. case_bool_decide; [done|]. set_solver.
Qed.

Lemma elem_of_foldl_add_column c cols new :
  c ∈ cols -> c ∈ foldl (fun cols c => add_column c cols) cols new.
Proof.
  revert cols. induction new as [|c' new IH]; intros cols Hc; simpl; [done|].
  apply IH. by apply elem_of_add_column.
Qed.

Lemma json_normalize_len data : df_len (json_normalize data) = length data.
Proof. unfold df_len, json_normalize. simpl. apply length_imap. Qed.

Lemma pairs_frame_len z j : df_len (pairs_frame z j) = length (neighborPairs j).
Proof.
  unfold pairs_frame, df_len, set_scalar. simpl.
  by rewrite length_fmap, length_imap.
Qed.

Lemma pairs_frame_z z j :
  (fun lr : Z * row => lr.2 !! "z") <$> rows (pairs_frame z j)
  = replicate (length (neighborPairs j)) (Some z).
Proof.
  unfold pairs_frame, set_scalar. simpl.
  rewrite <- list_fmap_compose.
  generalize (neighborPairs j). intros data.
  generalize (fun (i : nat) (d : json_object) => (Z.of_nat i, record_row d)).
  induction data as [|d data IH]; intros f; simpl; [done|].
  f_equal; [apply lookup_insert_eq|]. apply IH.
Qed.

Lemma matches_frame_len z data : df_len (matches_frame z data) = length data.
Proof.
  unfold matches_frame, df_len, rename_column, set_scalar. simpl.
  by rewrite !length_fmap, length_imap.
Qed.

Lemma rename_key_other old new (r : row) k :
  k ≠ old -> k ≠ new -> rename_key old new r !! k = r !! k.
Proof.
  intros Ho Hn. unfold rename_key. destruct (r !! old); [|done].
  rewrite lookup_insert_ne by done. by rewrite lookup_delete_ne.
Qed.

Lemma matches_frame_z z data :
  (fun lr : Z * row => lr.2 !! "z") <$> rows (matches_frame z data)
  = replicate (length data) (Some z).
Proof.
  unfold matches_frame, rename_column, set_scalar. simpl.
  rewrite <- !list_fmap_compose.
  generalize (fun (i : nat) (d : json_object) => (Z.of_nat i, record_row d)).
  induction data as [|d data IH]; intros f; simpl; [done|].
  f_equal; [|apply IH].
  rewrite rename_key_other by done. apply lookup_insert_eq.
Qed.

Lemma imap_labels {A} (l : list A) (n : nat) :
  imap (fun i (_ : A) => Z.of_nat (n + i)) l = Z.of_nat <$> seq n (length l).
Proof.
  revert n. induction l as [|x l IH]; intros n; simpl; [done|].
  f_equal; [f_equal; lia|].
  etransitivity; [|apply (IH (S n))].
  apply imap_ext. intros i y _. simpl. f_equal. lia.
Qed.

Lemma reset_index_labels df :
  df_index (reset_index df) = Z.of_nat <$> seq 0 (df_len df).
Proof.
  unfold df_index, reset_index, df_len. simpl.
  rewrite fmap_imap, <- imap_labels. by apply imap_ext.
Qed.

(** ** The tile-pair collector *)

Section CollectorProofs.
Context {W K : Type} (render : RenderClient W K).

(** The loop over the z values makes one tile-pair call per value, in
    order, and appends what each call contributes. *)
Lemma tile_pairs_loop (stack : string) (kw : K) (zs : list pyval) :
  forall (df0 : DataFrame) (s : session W K),
  exists (resps : list tile_pairs_json) (df : DataFrame) (s' : session W K),
    for_loop zs df0
      (fun df_pairs z =>
         tile_pairs_json <- tilePairClient stack z z render kw ;;
         ret (concat_frames df_pairs (pairs_frame z tile_pairs_json))) s
    = (Ok df, s')
    /\ length resps = length zs
    /\ calls s' = calls s ++
         zip_with (fun z r => Call_tile_pairs stack z z kw r) zs resps
    /\ rows df = rows df0 ++
         concat (zip_with (fun z r => rows (pairs_frame z r)) zs resps).
Proof.
  induction zs as [|z zs IH]; intros df0 s.
  - exists [], df0, s. simpl. by rewrite !app_nil_r.
  - destruct (ws_tile_pairs render stack z z kw (service s)) as [r w] eqn:Hr.
    destruct (IH (concat_frames df0 (pairs_frame z r))
                 (mkSession w (calls s ++ [Call_tile_pairs stack z z kw r])))
      as (resps & df & s' & Hrun & Hlen & Hcalls & Hrows).
    exists (r :: resps), df, s'. split.
    { simpl. erewrite bind_Ok; [exact Hrun|].
      erewrite bind_Ok; [reflexivity|].
      unfold tilePairClient, remote. by rewrite Hr. }
    split; [simpl; lia|]. split.
    + rewrite Hcalls. simpl. by rewrite <- app_assoc.
    + rewrite Hrows. simpl. by rewrite <- app_assoc.
Qed.

End CollectorProofs.

Lemma fmap_concat_zip_replicate {A B C D} (f : A -> B -> list C) (g : C -> D)
    (n : B -> nat) (h : A -> D) (l1 : list A) (l2 : list B) :
  (forall a b, g <$> f a b = replicate (n b) (h a)) ->
  g <$> concat (zip_with f l1 l2)
  = concat (zip_with (fun a b => replicate (n b) (h a)) l1 l2).
Proof.
  intros Hf. revert l2. induction l1 as [|a l1 IH]; intros [|b l2]; simpl; try done.
  rewrite fmap_app. f_equal; [apply Hf | apply IH].
Qed.

Lemma length_concat_zip {A B C} (f : A -> B -> list C) (n : B -> nat)
    (l1 : list A) (l2 : list B) :
  (forall a b, length (f a b) = n b) -> length l2 = length l1 ->
  length (concat (zip_with f l1 l2)) = sum_list (n <$> l2).
Proof.
  intros Hf. revert l2. induction l1 as [|a l1 IH]; intros [|b l2] Hlen;
    simpl in *; try done.
  rewrite length_app, Hf. f_equal. apply IH. lia.
Qed.

(** C5.  The tile-pair collector asks for the z values of the stack once,
    then makes exactly one tile-pair call per z value, in order, with
    [minz = maxz = z].  The table it returns has as many rows as the calls
    returned neighbour pairs in total; the rows that come from the call
    for [z] carry that [z]; every row carries the stack name; the index
    is 0 .. count-1. *)
Theorem collector_one_call_per_z {W K : Type} (render : RenderClient W K)
    (stack : string) (kw : K) (s : session W K) :
  let zs := (ws_z_values_for_stack render stack (service s)).1 in
  exists (resps : list tile_pairs_json) (df : DataFrame) (s' : session W K),
    get_tile_pairs_4_montage stack render kw s = (Ok df, s')
    /\ length resps = length zs
    /\ calls s' = calls s ++ Call_z_values_for_stack stack zs
         :: zip_with (fun z r => Call_tile_pairs stack z z kw r) zs resps
    /\ df_len df = sum_list ((fun r => length (neighborPairs r)) <$> resps)
    /\ (fun lr : Z * row => lr.2 !! "z") <$> rows df
       = concat (zip_with
           (fun z r => replicate (length (neighborPairs r)) (Some z)) zs resps)
    /\ Forall (fun lr : Z * row => lr.2 !! "stack" = Some (PStr stack)) (rows df)
    /\ df_index df = Z.of_nat <$> seq 0 (df_len df).
Proof.
  intros zs. unfold get_tile_pairs_4_montage.
  subst zs.
  destruct (ws_z_values_for_stack render stack (service s)) as [zs w] eqn:Hzs.
  simpl fst.
  destruct (tile_pairs_loop render stack kw zs (DataFrame_new ["stack"; "z"])
              (mkSession w (calls s ++ [Call_z_values_for_stack stack zs])))
    as (resps & df & s' & Hrun & Hlen & Hcalls & Hrows).
  eexists resps, _, s'. split.
  { erewrite bind_Ok; [|unfold get_z_values_for_stack, remote; by rewrite Hzs].
    erewrite bind_Ok; [reflexivity|exact Hrun]. }
  simpl in Hcalls. unfold DataFrame_new in Hrows. cbn [rows app] in Hrows.
  split; [done|]. split; [by rewrite Hcalls, <- app_assoc|].
  assert (Hlen' :
    length (rows df) = sum_list ((fun r => length (neighborPairs r)) <$> resps)).
  { rewrite Hrows. apply length_concat_zip; [|done].
    intros a b. apply pairs_frame_len. }
  split; [|split; [|split]].
  - unfold df_len, reset_index, set_scalar. simpl.
    by rewrite length_imap, length_fmap.
  - unfold reset_index, set_scalar. simpl.
    rewrite fmap_imap.
    rewrite <- (fmap_concat_zip_replicate
                  (fun z r => rows (pairs_frame z r))
                  (fun lr : Z * row => lr.2 !! "z")); [|intros; apply pairs_frame_z].
    rewrite <- Hrows.
    generalize (rows df). intros l.
    etransitivity;
      [exact (imap_const (fun lr : Z * row => lr.2 !! "z")
                ((fun lr : Z * row => (lr.1, <["stack" := PStr stack]> lr.2)) <$> l))|].
    rewrite <- list_fmap_compose.
    apply list_fmap_ext.
    intros i [lbl r] _. simpl. by rewrite lookup_insert_ne.
  - unfold reset_index, set_scalar. simpl.
    apply Forall_forall. intros lr Hlr.
    apply elem_of_lookup_imap in Hlr as (i & lr' & -> & Hi). simpl.
    rewrite list_lookup_fmap in Hi.
    destruct (rows df !! i) as [lr''|]; simplify_eq/=.
    apply lookup_insert_eq.
  - rewrite reset_index_labels. do 2 f_equal.
    unfold df_len, reset_index. simpl. by rewrite length_imap.
Qed.

(** ** Row/column extraction *)

Lemma last_two_length {A} (l : list A) : length (last_two l) = (length l `min` 2)%nat.
Proof. unfold last_two. rewrite length_drop. lia. Qed.

Lemma np_stack_Ok arrays arr :
  np_stack arrays = Ok arr ->
  arrays ≠ [] /\ arr_rows arr = arrays
  /\ Forall (fun a => length a = arr_width arr) arrays.
Proof.
  destruct arrays as [|a rest]; simpl; [done|].
  destruct (forallb _ rest) eqn:Hall; [|done].
  intros [= <-]. simpl. split; [done|]. split; [done|].
  constructor; [done|].
  apply Is_true_true_2, forallb_True in Hall.
  eapply Forall_impl; [exact Hall|]. simpl. intros b Hb.
  apply Is_true_true in Hb. by apply Nat.eqb_eq in Hb.
Qed.

Lemma np_stack_width (arrays : list (list Z)) (n : nat) :
  arrays ≠ [] -> Forall (fun a => length a = n) arrays ->
  np_stack arrays = Ok (mkArray arrays n).
Proof.
  destruct arrays as [|a rest]; [done|]. intros _ Hall.
  apply Forall_cons in Hall as [<- Hrest]. simpl.
  replace (forallb _ rest) with true; [done|].
  symmetry. apply Is_true_true, forallb_True.
  eapply Forall_impl; [exact Hrest|]. simpl. intros b Hb.
  apply Is_true_true. by apply Nat.eqb_eq.
Qed.

Lemma add_colrow_Ok_inv idcol kc kr df df' :
  add_colrow idcol kc kr df = Ok df' ->
  rows df ≠ []
  /\ Forall2 (fun lr lr' : Z * row =>
               exists a b, tile_numbers (cell lr.2 idcol) = Ok [a; b]
                 /\ lr' = (lr.1, <[kr := PInt b]> (<[kc := PInt a]> lr.2)))
             (rows df) (rows df')
  /\ (forall c, c ∈ columns df -> c ∈ columns df').
Proof.
  unfold add_colrow, get_column. case_bool_decide as Hcol; [|done]. simpl.
  destruct (rmap tile_numbers _) as [nums|] eqn:Hnums; [|done]. simpl.
  destruct (np_stack nums) as [arr|] eqn:Harr; [|done]. simpl.
  apply np_stack_Ok in Harr as (Hne & Hrows & Hwidth).
  unfold set_columns2.
  destruct (Nat.eqb (arr_width arr) 2) eqn:Hw; [|done]. simpl.
  apply Nat.eqb_eq in Hw. rewrite Hw in Hwidth.
  destruct (Nat.eqb _ _) eqn:Hl; [|done]. simpl.
  intros [= <-]. simpl.
  apply rmap_Ok_Forall2 in Hnums. apply Forall2_fmap_l in Hnums.
  rewrite Hrows. split; [|split].
  - intros Hnil. rewrite Hnil in Hnums. by apply Forall2_nil_inv_l in Hnums.
  - clear Hrows Hl Hne. induction Hnums as [|lr n l l' Hn _ IH]; simpl; [constructor|].
    apply Forall_cons in Hwidth as [Hlen Hwidth].
    constructor; [|by apply IH].
    destruct n as [|a [|b [|? ?]]]; try done.
    by exists a, b.
  - intros c Hc. by do 2 apply elem_of_add_column.
Qed.

Lemma add_colrow_Ok idcol kc kr df :
  idcol ∈ columns df -> rows df ≠ [] ->
  Forall (fun lr : Z * row => is_Some (id_numbers (cell lr.2 idcol))) (rows df) ->
  exists df', add_colrow idcol kc kr df = Ok df'.
Proof.
  intros Hcol Hne Hall.
  unfold add_colrow, get_column. rewrite bool_decide_eq_true_2 by done. simpl.
  assert (exists nums, rmap tile_numbers ((fun lr : Z * row => cell lr.2 idcol) <$> rows df)
                       = Ok nums
                       /\ length nums = length (rows df)
                       /\ Forall (fun n => length n = 2%nat) nums)
    as (nums & -> & Hlen & Hnums).
  { clear Hne. induction Hall as [|lr l [[a b] Hab] _ (nums & IH & Hlen & Hnums)].
    - by exists [].
    - rewrite fmap_cons. cbn [rmap]. unfold id_numbers in Hab.
      destruct (tile_numbers (cell lr.2 idcol)) as [[|a' [|b' [|? ?]]]|]; try done.
      rewrite IH. simpl. eexists. split; [done|]. split; [simpl; by f_equal|].
      by constructor. }
  simpl. rewrite (np_stack_width nums 2); [|by destruct nums, (rows df)|done].
  simpl. unfold set_columns2. simpl. unfold df_len.
  rewrite Hlen, Nat.eqb_refl. simpl. by eexists.
Qed.

Lemma add_colrow_empty idcol kc kr df :
  idcol ∈ columns df -> rows df = [] ->
  add_colrow idcol kc kr df = Raise (ValueError "need at least one array to stack").
Proof.
  intros Hcol Hnil. unfold add_colrow, get_column.
  rewrite bool_decide_eq_true_2 by done. by rewrite Hnil.
Qed.

(** A tile id with fewer than two runs of digits has no two numbers. *)
Lemma id_numbers_few_runs (s : string) :
  (length (findall_digits s) < 2)%nat -> id_numbers (PStr s) = None.
Proof.
  intros Hlen. unfold id_numbers, tile_numbers.
  pose proof (last_two_length (findall_digits s)) as Hl.
  destruct (last_two (findall_digits s)) as [|a [|b [|? ?]]]; simpl in *; try done; lia.
Qed.

Lemma add_colrow_bad_id idcol kc kr df lr :
  lr ∈ rows df -> id_numbers (cell lr.2 idcol) = None ->
  exists e, add_colrow idcol kc kr df = Raise e.
Proof.
  intros Hlr Hbad.
  destruct (add_colrow idcol kc kr df) as [df'|e] eqn:Hrun; [|by exists e].
  apply add_colrow_Ok_inv in Hrun as (_ & Hall & _).
  apply list_elem_of_lookup in Hlr as [i Hi].
  destruct (Forall2_lookup_l _ _ _ _ _ Hall Hi) as (lr' & _ & a & b & Hab & _).
  unfold id_numbers in Hbad. by rewrite Hab in Hbad.
Qed.

(** ** The match fetchers *)

Section FetcherProofs.
Context {W K : Type} (render : RenderClient W K).

Lemma get_matches_within_section_run (stack sid mc : string) (s : session W K) :
  exists sec s',
    get_matches_within_section stack sid mc render s
    = (Ok (matches_frame (sr_z sec) (sr_matches sec)), s')
    /\ sr_id sec = sid
    /\ calls s' = calls s ++ section_calls stack mc sec.
Proof.
  unfold get_matches_within_section.
  destruct (ws_section_z_value render stack sid (service s)) as [z w1] eqn:Hz.
  destruct (ws_matches_within_group render mc sid w1) as [ms w2] eqn:Hms.
  exists (mkReply sid z ms), (mkSession w2 (calls s ++ section_calls stack mc (mkReply sid z ms))).
  split; [|done].
  erewrite bind_Ok; [|unfold get_section_z_value, remote; by rewrite Hz].
  erewrite bind_Ok; [|unfold get_matches_within_group, remote; simpl; by rewrite Hms].
  unfold ret, section_calls. simpl. by rewrite <- app_assoc.
Qed.

Lemma sections_loop (stack mc : string) (sids : list string) :
  forall (df0 : DataFrame) (s : session W K),
  exists (secs : list section_reply) (df : DataFrame) (s' : session W K),
    for_loop sids df0
      (fun df_matches sectionId =>
         df <- get_matches_within_section stack sectionId mc render ;;
         ret (concat_frames df_matches df)) s = (Ok df, s')
    /\ sr_id <$> secs = sids
    /\ calls s' = calls s ++ concat (section_calls stack mc <$> secs)
    /\ rows df = rows df0 ++
         concat ((fun sec => rows (matches_frame (sr_z sec) (sr_matches sec))) <$> secs)
    /\ (forall c, c ∈ columns df0 -> c ∈ columns df).
Proof.
  induction sids as [|sid sids IH]; intros df0 s.
  - exists [], df0, s. simpl. by rewrite !app_nil_r.
  - destruct (get_matches_within_section_run stack sid mc s)
      as (sec & s1 & Hsec & Hid & Hc1).
    destruct (IH (concat_frames df0 (matches_frame (sr_z sec) (sr_matches sec))) s1)
      as (secs & df & s' & Hrun & Hids & Hcalls & Hrows & Hcols).
    exists (sec :: secs), df, s'. split.
    { simpl. erewrite bind_Ok; [exact Hrun|].
      erewrite bind_Ok; [reflexivity|exact Hsec]. }
    split; [simpl; by f_equal|]. split; [|split].
    + rewrite Hcalls, Hc1. simpl. by rewrite <- app_assoc.
    + rewrite Hrows. simpl. by rewrite <- app_assoc.
    + intros c Hc. apply Hcols. by apply elem_of_foldl_add_column.
Qed.

(** The table before the row/column fields are derived. *)
Lemma collect_matches_run (stack mc : string) (s : session W K) :
  exists (secs : list section_reply) (raw : DataFrame) (s' : session W K),
    collect_matches stack mc render s = (Ok raw, s')
    /\ sr_id <$> secs = (ws_match_groupIds render mc (service s)).1
    /\ calls s' = calls s ++ stack_calls stack mc secs
    /\ rows raw
       = (fun lr : Z * row => (lr.1, <["stack" := PStr stack]> lr.2))
           <$> concat ((fun sec => rows (matches_frame (sr_z sec) (sr_matches sec)))
                         <$> secs)
    /\ "pId" ∈ columns raw /\ "qId" ∈ columns raw.
Proof.
  unfold collect_matches.
  destruct (ws_match_groupIds render mc (service s)) as [sids w] eqn:Hsids.
  destruct (sections_loop stack mc sids
              (DataFrame_new ["stack"; "z"; "pGroupId"; "pId"; "pc"; "pr";
                              "qGroupId"; "qId"; "qc"; "qr"])
              (mkSession w (calls s ++ [Call_match_groupIds mc sids])))
    as (secs & df & s' & Hrun & Hids & Hcalls & Hrows & Hcols).
  eexists secs, _, s'. split.
  { erewrite bind_Ok; [|unfold get_match_groupIds, remote; by rewrite Hsids].
    erewrite bind_Ok; [reflexivity|exact Hrun]. }
  simpl in Hcalls. unfold DataFrame_new in Hrows, Hcols. cbn [rows columns app] in Hrows, Hcols.
  split; [done|]. split.
  { rewrite Hcalls. unfold stack_calls. rewrite Hids. by rewrite <- app_assoc. }
  split; [simpl; by rewrite Hrows|].
  split; apply elem_of_add_column, Hcols; set_solver.
Qed.

(** The outcome of [get_matches_within_stack] from the table collected. *)
Lemma get_matches_within_stack_run (stack mc : string) (s : session W K) raw s' :
  collect_matches stack mc render s = (Ok raw, s') ->
  get_matches_within_stack stack mc render s
  = (rbind (add_colrow "pId" "pc" "pr" raw) (add_colrow "qId" "qc" "qr"), s').
Proof.
  intros Hraw. unfold get_matches_within_stack.
  erewrite bind_Ok; [|exact Hraw].
  unfold bind, lift_result, ret.
  destruct (add_colrow "pId" "pc" "pr" raw) as [df1|e]; simpl; [|done].
  by destruct (add_colrow "qId" "qc" "qr" df1).
Qed.

End FetcherProofs.

(** The two assignments of lines 281-284, on the table collected. *)
Lemma derive_Ok_inv (raw df : DataFrame) :
  rbind (add_colrow "pId" "pc" "pr" raw) (add_colrow "qId" "qc" "qr") = Ok df ->
  rows raw ≠ []
  /\ Forall2 (fun lr lr' : Z * row =>
       exists pa pb qa qb,
         tile_numbers (cell lr.2 "pId") = Ok [pa; pb]
         /\ tile_numbers (cell lr.2 "qId") = Ok [qa; qb]
         /\ lr' = (lr.1, <["qr" := PInt qb]> (<["qc" := PInt qa]>
                           (<["pr" := PInt pb]> (<["pc" := PInt pa]> lr.2)))))
       (rows raw) (rows df).
Proof.
  destruct (add_colrow "pId" "pc" "pr" raw) as [df1|e] eqn:Hp; simpl; [|done].
  intros Hq.
  apply add_colrow_Ok_inv in Hp as (Hne & Hp & _).
  apply add_colrow_Ok_inv in Hq as (_ & Hq & _).
  split; [done|]. clear Hne.
  revert Hq. generalize (rows df). clear df.
  induction Hp as [|lr lr1 l l1 (pa & pb & Hpa & ->) _ IH]; intros l2 Hq.
  - apply Forall2_nil_inv_l in Hq as ->. constructor.
  - apply Forall2_cons_inv_l in Hq as (lr2 & l2' & (qa & qb & Hqa & ->) & Hq & ->).
    constructor; [|by apply IH].
    exists pa, pb, qa, qb. split; [done|]. split; [|done].
    revert Hqa. unfold cell. simpl. by rewrite !lookup_insert_ne.
Qed.

Lemma derive_Ok (raw : DataFrame) :
  "pId" ∈ columns raw -> "qId" ∈ columns raw -> rows raw ≠ [] ->
  Forall (fun lr : Z * row => is_Some (id_numbers (cell lr.2 "pId"))
                              /\ is_Some (id_numbers (cell lr.2 "qId"))) (rows raw) ->
  exists df,
    rbind (add_colrow "pId" "pc" "pr" raw) (add_colrow "qId" "qc" "qr") = Ok df.
Proof.
  intros Hp Hq Hne Hall.
  destruct (add_colrow_Ok "pId" "pc" "pr" raw) as [df1 Hdf1]; [done|done| |].
  { eapply Forall_impl; [exact Hall|]. by intros lr [? _]. }
  rewrite Hdf1. simpl.
  apply add_colrow_Ok_inv in Hdf1 as (_ & Hrows & Hcols).
  apply add_colrow_Ok; [by apply Hcols| |].
  - intros Hnil. rewrite Hnil in Hrows. by apply Forall2_nil_inv_r in Hrows.
  - apply Forall_forall. intros lr1 Hlr1.
    apply list_elem_of_lookup in Hlr1 as [i Hi].
    destruct (Forall2_lookup_r _ _ _ _ _ Hrows Hi) as (lr & Hlr & a & b & _ & ->).
    apply (Forall_lookup_1 _ _ _ _ Hall) in Hlr as [_ Hlr].
    revert Hlr. unfold cell. simpl. by rewrite !lookup_insert_ne.
Qed.

Lemma tile_numbers_two (v : pyval) (a b : Z) :
  tile_numbers v = Ok [a; b] ->
  exists s ra rb, v = PStr s /\ last_two (findall_digits s) = [ra; rb]
                  /\ a = int_of_digits ra /\ b = int_of_digits rb.
Proof.
  destruct v; simpl; try done. intros [= Hl].
  destruct (last_two (findall_digits s)) as [|ra [|rb [|rc l]]] eqn:Hruns;
    simpl in Hl; [discriminate Hl|discriminate Hl| |discriminate Hl].
  injection Hl as <- <-. by exists s, ra, rb.
Qed.

Lemma cell_PStr (r : row) (col s : string) :
  cell r col = PStr s -> r !! col = Some (PStr s).
Proof. unfold cell. destruct (r !! col); simpl; [by intros ->|done]. Qed.

(** C1 (amended).  In every row of the table the stack match fetcher
    returns, the tile id of each side holds two runs of digits at least;
    the number of the second-to-last run is in the column field ([pc],
    [qc]) and the number of the last run in the row field ([pr], [qr]).
    For the id ["R3C5"] that is column 3 and row 5.  Both sides are
    treated alike. *)
Theorem rowcol_extraction {W K : Type} (render : RenderClient W K)
    (stack mc : string) (s s' : session W K) (df : DataFrame) :
  get_matches_within_stack stack mc render s = (Ok df, s') ->
  Forall (fun lr : Z * row =>
            side_extracted lr "pId" "pc" "pr" /\ side_extracted lr "qId" "qc" "qr")
         (rows df).
Proof.
  intros Hrun.
  destruct (collect_matches_run render stack mc s) as (secs & raw & s1 & Hraw & _).
  rewrite (get_matches_within_stack_run render stack mc s raw s1 Hraw) in Hrun.
  injection Hrun as Hdf _.
  apply derive_Ok_inv in Hdf as [_ Hrows].
  apply Forall_forall. intros lr' Hlr'.
  apply list_elem_of_lookup in Hlr' as [i Hi].
  destruct (Forall2_lookup_r _ _ _ _ _ Hrows Hi)
    as (lr & _ & pa & pb & qa & qb & Hp & Hq & ->).
  apply tile_numbers_two in Hp as (sp & rpa & rpb & Hsp & Hlp & -> & ->).
  apply tile_numbers_two in Hq as (sq & rqa & rqb & Hsq & Hlq & -> & ->).
  apply cell_PStr in Hsp, Hsq.
  split.
  - exists sp, rpa, rpb. simpl. lookup_inserts.
    repeat split; try done; subst sp; vm_compute in Hlp; by simplify_eq.
  - exists sq, rqa, rqb. simpl. lookup_inserts.
    repeat split; try done; subst sq; vm_compute in Hlq; by simplify_eq.
Qed.

Lemma derive_keeps_z (raw df : DataFrame) :
  rbind (add_colrow "pId" "pc" "pr" raw) (add_colrow "qId" "qc" "qr") = Ok df ->
  (fun lr : Z * row => lr.2 !! "z") <$> rows df
  = (fun lr : Z * row => lr.2 !! "z") <$> rows raw.
Proof.
  intros Hdf. apply derive_Ok_inv in Hdf as [_ Hrows].
  induction Hrows as [|lr lr' l l' (pa & pb & qa & qb & _ & _ & ->) _ IH]; [done|].
  rewrite !fmap_cons. f_equal; [|exact IH]. simpl. by lookup_inserts.
Qed.

Lemma stack_rows_z (stack : string) (secs : list section_reply) :
  (fun lr : Z * row => lr.2 !! "z")
    <$> ((fun lr : Z * row => (lr.1, <["stack" := PStr stack]> lr.2))
           <$> concat ((fun sec => rows (matches_frame (sr_z sec) (sr_matches sec)))
                         <$> secs))
  = concat ((fun sec => replicate (section_len sec) (Some (sr_z sec))) <$> secs).
Proof.
  rewrite <- list_fmap_compose.
  induction secs as [|sec secs IH]; [done|].
  rewrite !fmap_cons. cbn [concat]. rewrite fmap_app, IH. f_equal.
  unfold section_len. rewrite matches_frame_len, <- matches_frame_z.
  apply list_fmap_ext. intros i [lbl r] _. simpl. by lookup_inserts.
Qed.

Lemma stack_rows_len (secs : list section_reply) :
  length (concat ((fun sec => rows (matches_frame (sr_z sec) (sr_matches sec)))
                    <$> secs))
  = sum_list (section_len <$> secs).
Proof.
  induction secs as [|sec secs IH]; [done|].
  rewrite !fmap_cons. cbn [concat sum_list]. rewrite length_app, IH. done.
Qed.

(** C6.  A run of the stack match fetcher asks for the section ids once and
    then, per section id in order, for the section's z value and for its
    matches.  When it returns a table, the table has as many rows as the
    per-section frames have together, and the rows that come from a section
    carry the z value resolved for that section.  It does return a table
    when there is a match at all and every tile id holds two runs of
    digits. *)
Theorem stack_matches_count_and_z {W K : Type} (render : RenderClient W K)
    (stack mc : string) (s : session W K) :
  exists (secs : list section_reply) (s' : session W K),
    (get_matches_within_stack stack mc render s).2 = s'
    /\ sr_id <$> secs = (ws_match_groupIds render mc (service s)).1
    /\ calls s' = calls s ++ stack_calls stack mc secs
    /\ (forall df, (get_matches_within_stack stack mc render s).1 = Ok df ->
          df_len df = sum_list (section_len <$> secs)
          /\ (fun lr : Z * row => lr.2 !! "z") <$> rows df
             = concat ((fun sec => replicate (section_len sec) (Some (sr_z sec)))
                         <$> secs))
    /\ (0 < sum_list (section_len <$> secs) ->
        (forall sec d, sec ∈ secs -> d ∈ sr_matches sec ->
           is_Some (id_numbers (cell (record_row d) "pId"))
           /\ is_Some (id_numbers (cell (record_row d) "qId"))) ->
        is_Ok (get_matches_within_stack stack mc render s).1 = true)%nat.
Proof.
  destruct (collect_matches_run render stack mc s)
    as (secs & raw & s' & Hraw & Hids & Hcalls & Hrows & Hp & Hq).
  rewrite (get_matches_within_stack_run render stack mc s raw s' Hraw).
  exists secs, s'. simpl. do 3 (split; [done|]). split.
  - intros df Hdf. split.
    + pose proof (derive_Ok_inv _ _ Hdf) as [_ Hall].
      unfold df_len. rewrite <- (Forall2_length _ _ _ Hall), Hrows, length_fmap.
      apply stack_rows_len.
    + rewrite (derive_keeps_z _ _ Hdf), Hrows. apply stack_rows_z.
  - intros Hpos Hids_ok.
    destruct (derive_Ok raw) as [df ->]; [done|done| | |done].
    + intros Hnil. rewrite <- stack_rows_len in Hpos.
      rewrite Hrows in Hnil. apply fmap_nil_inv in Hnil. rewrite Hnil in Hpos.
      simpl in Hpos. lia.
    + rewrite Hrows. apply Forall_fmap, Forall_concat, Forall_fmap.
      apply Forall_forall. intros sec Hsec. simpl.
      unfold matches_frame, rename_column, set_scalar, json_normalize. simpl.
      apply Forall_fmap, Forall_fmap, Forall_forall. intros lr Hlr.
      apply elem_of_lookup_imap in Hlr as (i & d & -> & Hd).
      apply list_elem_of_lookup_2 in Hd.
      destruct (Hids_ok sec d Hsec Hd) as [Hpd Hqd].
      unfold cell in *. simpl. lookup_inserts.
      by rewrite !rename_key_other by done; lookup_inserts.
Qed.

(** C7.  When a row of the match table has a tile id ([pId] or [qId]) with
    fewer than two runs of digits, none in particular, the stack match
    fetcher raises: it returns no table. *)
Theorem extraction_raises_on_short_id {W K : Type} (render : RenderClient W K)
    (stack mc : string) (s s1 : session W K) (raw : DataFrame)
    (lr : Z * row) (idcol tile_id : string) :
  collect_matches stack mc render s = (Ok raw, s1) ->
  lr ∈ rows raw ->
  idcol = "pId" \/ idcol = "qId" ->
  cell lr.2 idcol = PStr tile_id ->
  (length (findall_digits tile_id) < 2)%nat ->
  exists e, get_matches_within_stack stack mc render s = (Raise e, s1).
Proof.
  intros Hraw Hlr Hcol Hcell Hruns.
  rewrite (get_matches_within_stack_run render stack mc s raw s1 Hraw).
  pose proof (id_numbers_few_runs tile_id Hruns) as Hnone.
  destruct (rbind _ _) as [df|e] eqn:Hdf; [|by exists e].
  apply derive_Ok_inv in Hdf as [_ Hall].
  apply list_elem_of_lookup in Hlr as [i Hi].
  destruct (Forall2_lookup_l _ _ _ _ _ Hall Hi)
    as (lr' & _ & pa & pb & qa & qb & Hpa & Hqa & _).
  unfold id_numbers in Hnone. rewrite <- Hcell in Hnone.
  destruct Hcol as [-> | ->]; [by rewrite Hpa in Hnone | by rewrite Hqa in Hnone].
Qed.

(** C10.  When the sections of the collection yield no match row at all,
    as when there is no section, the stack match fetcher raises the error
    of stacking no array, in the row/column step, after it has asked for
    every section, and returns no table. *)
Theorem empty_collection_raises {W K : Type} (render : RenderClient W K)
    (stack mc : string) (s : session W K) :
  exists (secs : list section_reply) (s' : session W K),
    (get_matches_within_stack stack mc render s).2 = s'
    /\ sr_id <$> secs = (ws_match_groupIds render mc (service s)).1
    /\ calls s' = calls s ++ stack_calls stack mc secs
    /\ (Forall (fun sec => sr_matches sec = []) secs ->
        get_matches_within_stack stack mc render s
        = (Raise (ValueError "need at least one array to stack"), s'))
    /\ ((ws_match_groupIds render mc (service s)).1 = [] ->
        get_matches_within_stack stack mc render s
        = (Raise (ValueError "need at least one array to stack"), s')).
Proof.
  destruct (collect_matches_run render stack mc s)
    as (secs & raw & s' & Hraw & Hids & Hcalls & Hrows & Hp & Hq).
  rewrite (get_matches_within_stack_run render stack mc s raw s' Hraw).
  exists secs, s'. simpl. do 3 (split; [done|]).
  assert (Hempty : Forall (fun sec => sr_matches sec = []) secs ->
                   rbind (add_colrow "pId" "pc" "pr" raw) (add_colrow "qId" "qc" "qr")
                   = Raise (ValueError "need at least one array to stack")).
  { intros Hall. rewrite add_colrow_empty; [done|done|].
    rewrite Hrows. clear -Hall.
    induction Hall as [|sec secs Hsec _ IH]; [done|].
    rewrite fmap_cons. cbn [concat]. rewrite fmap_app, IH, Hsec. done. }
  split.
  - intros Hall. by rewrite Hempty.
  - intros Hnil. rewrite Hempty; [done|].
    rewrite Hnil in Hids. apply fmap_nil_inv in Hids as ->. constructor.
Qed.

Lemma empty_collection_raises_witness :
  (get_matches_within_stack "lil_EM" "pts" no_match_render demo_session).1
  = Raise (ValueError "need at least one array to stack").
Proof.
  destruct (empty_collection_raises no_match_render "lil_EM" "pts" demo_session)
    as (secs & s' & Hs' & Hids & Hcalls & Hempty & _).
  rewrite <- Hs' in Hcalls. vm_compute in Hids, Hcalls.
  destruct secs as [|sec [|sec' secs]]; try discriminate Hids.
  destruct sec as [sid z ms]. vm_compute in Hcalls. simplify_eq.
  rewrite Hempty; [reflexivity|]. by repeat constructor.
Defined.

Lemma rowcol_extraction_witness :
  exists df s',
    get_matches_within_stack "lil_EM" "pts" demo_render demo_session = (Ok df, s')
    /\ Forall (fun lr : Z * row =>
                 side_extracted lr "pId" "pc" "pr" /\ side_extracted lr "qId" "qc" "qr")
              (rows df).
Proof.
  eexists _, _. split; [vm_compute; reflexivity|].
  eapply (rowcol_extraction demo_render "lil_EM" "pts" demo_session).
  vm_compute. reflexivity.
Defined.

(** The id ["R3C5"] gives column 3 and row 5, not row 3 and column 5. *)
Lemma rowcol_R3C5_counterexample :
  exists df s' lr,
    get_matches_within_stack "lil_EM" "pts" demo_render demo_session = (Ok df, s')
    /\ rows df !! 0%nat = Some lr
    /\ lr.2 !! "pId" = Some (PStr "R3C5")
    /\ lr.2 !! "pc" = Some (PInt 3) /\ lr.2 !! "pr" = Some (PInt 5)
    /\ ~ (lr.2 !! "pr" = Some (PInt 3) /\ lr.2 !! "pc" = Some (PInt 5)).
Proof.
  eexists _, _, _. split; [vm_compute; reflexivity|].
  split; [vm_compute; reflexivity|].
  split; [vm_compute; reflexivity|].
  split; [vm_compute; reflexivity|].
  split; [vm_compute; reflexivity|].
  intros [H _]. vm_compute in H. discriminate H.
Qed.

Lemma extraction_raises_on_short_id_witness :
  exists e s1,
    get_matches_within_stack "lil_EM" "pts" short_id_render demo_session
    = (Raise e, s1).
Proof.
  pose (run := collect_matches "lil_EM" "pts" short_id_render demo_session).
  pose (raw := match run.1 with Ok df => df | Raise _ => DataFrame_new [] end).
  assert (Hraw : collect_matches "lil_EM" "pts" short_id_render demo_session
                 = (Ok raw, run.2)) by (vm_compute; reflexivity).
  destruct (extraction_raises_on_short_id short_id_render "lil_EM" "pts"
              demo_session run.2 raw
              (0, <["stack" := PStr "lil_EM"]>
                    (<["z" := PInt 2]> (record_row (demo_match "S002" "R4C5" "tile7"))))
              "qId" "tile7" Hraw) as [e He].
  - apply list_elem_of_lookup. exists 1%nat. vm_compute. reflexivity.
  - by right.
  - vm_compute. reflexivity.
  - vm_compute. lia.
  - by exists e, run.2.
Defined.

(** ** Grouping *)

Section GroupByProofs.
Context {Kt : Type} `{EqDecision Kt} (le : relation Kt) `{!RelDecision le}.

Lemma filter_groups_nil {A} (key : A -> Kt) (ks : list Kt) :
  concat ((fun k => filter (fun x => key x = k) []) <$> ks) = [].
Proof. induction ks as [|k ks IH]; [done|]. by rewrite fmap_cons. Qed.

Lemma filter_groups_skip {A} (key : A -> Kt) (ks : list Kt) (x : A) (t : list A) :
  key x ∉ ks ->
  (fun k => filter (fun y => key y = k) (x :: t)) <$> ks
  = (fun k => filter (fun y => key y = k) t) <$> ks.
Proof.
  intros Hx. apply list_fmap_ext. intros i k Hk.
  rewrite filter_cons_False; [done|].
  intros Heq. apply Hx. rewrite Heq. by eapply list_elem_of_lookup_2.
Qed.

(** A new row goes to the group of its key. *)
Lemma filter_groups_cons {A} (key : A -> Kt) (ks : list Kt) (x : A) (t : list A) :
  NoDup ks -> key x ∈ ks ->
  concat ((fun k => filter (fun y => key y = k) (x :: t)) <$> ks)
  ≡ₚ x :: concat ((fun k => filter (fun y => key y = k) t) <$> ks).
Proof.
  induction ks as [|k ks IH]; intros Hnd Hx; [by apply elem_of_nil in Hx|].
  apply NoDup_cons in Hnd as [Hk Hnd]. rewrite !fmap_cons. cbn [concat].
  destruct (decide (key x = k)) as [Heq|Hne].
  - rewrite filter_cons_True by done.
    rewrite filter_groups_skip; [done|]. by rewrite Heq.
  - rewrite filter_cons_False by done.
    apply elem_of_cons in Hx as [Hx|Hx]; [done|].
    rewrite (IH Hnd Hx). by rewrite Permutation_middle.
Qed.

Lemma filter_groups_perm {A} (key : A -> Kt) (ks : list Kt) (l : list A) :
  NoDup ks -> (forall x, x ∈ l -> key x ∈ ks) ->
  concat ((fun k => filter (fun y => key y = k) l) <$> ks) ≡ₚ l.
Proof.
  intros Hnd. induction l as [|x t IH]; intros Hl.
  - by rewrite filter_groups_nil.
  - rewrite filter_groups_cons; [|done|apply Hl; by left].
    f_equiv. apply IH. intros y Hy. apply Hl. by right.
Qed.

Lemma group_keys_NoDup {A} (key : A -> Kt) (l : list A) :
  NoDup (merge_sort le (remove_dups (key <$> l))).
Proof. rewrite merge_sort_Permutation. apply NoDup_remove_dups. Qed.

Lemma group_keys_elem {A} (key : A -> Kt) (l : list A) (k : Kt) :
  k ∈ merge_sort le (remove_dups (key <$> l)) <-> exists x, x ∈ l /\ key x = k.
Proof.
  rewrite merge_sort_Permutation, elem_of_remove_dups, list_elem_of_fmap.
  split; [intros (x & -> & Hx); by exists x | intros (x & Hx & <-); by exists x].
Qed.

Lemma groupby_snd {A} (key : A -> Kt) (l : list A) :
  snd <$> groupby le key l
  = (fun k => filter (fun y => key y = k) l)
      <$> merge_sort le (remove_dups (key <$> l)).
Proof. unfold groupby. by rewrite <- list_fmap_compose. Qed.

(** The groups hold every row once. *)
Lemma groupby_perm {A} (key : A -> Kt) (l : list A) :
  concat (snd <$> groupby le key l) ≡ₚ l.
Proof.
  rewrite groupby_snd. apply filter_groups_perm; [apply group_keys_NoDup|].
  intros x Hx. apply group_keys_elem. by exists x.
Qed.

Lemma groupby_array_snd {A} (keys : list Kt) (l : list A) :
  snd <$> groupby_array le keys l
  = (fun g : list (Kt * A) => snd <$> g) <$> (snd <$> groupby le fst (zip keys l)).
Proof. unfold groupby_array. by rewrite <- !list_fmap_compose. Qed.

Lemma groupby_array_perm {A} (keys : list Kt) (l : list A) :
  (length l <= length keys)%nat ->
  concat (snd <$> groupby_array le keys l) ≡ₚ l.
Proof.
  intros Hlen. rewrite groupby_array_snd.
  rewrite <- (snd_zip keys l) at 2 by done.
  rewrite <- (groupby_perm fst (zip keys l)) at 2.
  generalize (snd <$> groupby le fst (zip keys l)). intros gs.
  induction gs as [|g gs IH]; [done|].
  rewrite fmap_cons. cbn [concat]. by rewrite fmap_app, IH.
Qed.
End GroupByProofs.

(** ** Batches *)

Lemma filter_Forall_all {A} (P : A -> Prop) `{!forall x, Decision (P x)} (l : list A) :
  Forall P l -> filter P l = l.
Proof.
  induction 1 as [|x l Hx _ IH]; [done|].
  by rewrite filter_cons_True, IH.
Qed.

Lemma filter_Forall_none {A} (P : A -> Prop) `{!forall x, Decision (P x)} (l : list A) :
  Forall (fun x => ~ P x) l -> filter P l = [].
Proof.
  induction 1 as [|x l Hx _ IH]; [done|].
  by rewrite filter_cons_False.
Qed.

Lemma zip_keys_Forall {A} (F : nat -> Z) (P : Z * A -> Prop) (seg : list A) (o : nat) :
  (forall i x, (o <= i < o + length seg)%nat -> P (F i, x)) ->
  Forall P (zip (F <$> seq o (length seg)) seg).
Proof.
  revert o. induction seg as [|x seg IH]; intros o HP; [constructor|].
  simpl. constructor; [apply HP; simpl; lia|].
  apply IH. intros i y Hi. apply HP. simpl. lia.
Qed.

Lemma div_below (b k i : nat) : (0 < b)%nat -> (i < k * b)%nat -> (i / b)%nat ≠ k.
Proof.
  intros Hb Hi. assert (i / b < k)%nat; [|lia].
  apply Nat.Div0.div_lt_upper_bound; lia.
Qed.

Lemma div_within (b k i : nat) :
  (0 < b)%nat -> (k * b <= i < k * b + b)%nat -> (i / b)%nat = k.
Proof.
  intros Hb Hi. symmetry. apply (Nat.div_unique i b k (i - k * b)); lia.
Qed.

Lemma div_above (b k i : nat) : (0 < b)%nat -> (k * b + b <= i)%nat -> (i / b)%nat ≠ k.
Proof.
  intros Hb Hi. assert (S k <= i / b)%nat; [|lia].
  apply Nat.div_le_lower_bound; lia.
Qed.

(** The rows whose position divided by [b] is [k], when the table is cut in
    the three parts before, at and after batch [k]. *)
Lemma batch_filter_parts {A} (b k : nat) (l1 l2 l3 : list A) :
  (0 < b)%nat ->
  (length l1 <= k * b)%nat ->
  (l2 ≠ [] -> length l1 = (k * b)%nat) ->
  (length l2 <= b)%nat ->
  (l3 ≠ [] -> length l1 = (k * b)%nat /\ length l2 = b) ->
  snd <$> filter (fun p : Z * A => p.1 = Z.of_nat k)
            (zip ((fun i => Z.of_nat (i / b)) <$> seq 0 (length (l1 ++ l2 ++ l3)))
                 (l1 ++ l2 ++ l3))
  = l2.
Proof.
  intros Hb H1 H2 H2b H3.
  rewrite !length_app, !seq_app, !fmap_app. simpl.
  rewrite zip_with_app by (by rewrite length_fmap, length_seq).
  rewrite zip_with_app by (by rewrite length_fmap, length_seq).
  rewrite !filter_app, !fmap_app.
  rewrite (filter_Forall_none _ (zip _ l1)).
  2:{ apply zip_keys_Forall. intros i x Hi. simpl. intros Heq.
      apply Nat2Z.inj in Heq. revert Heq. apply div_below; lia. }
  rewrite (filter_Forall_none _ (zip _ l3)).
  2:{ apply zip_keys_Forall. intros i x Hi. simpl. intros Heq.
      apply Nat2Z.inj in Heq. revert Heq.
      destruct l3 as [|y l3]; [simpl in Hi; lia|].
      destruct H3 as [Hl1 Hl2]; [done|]. apply div_above; lia. }
  rewrite (filter_Forall_all _ (zip _ l2)).
  2:{ apply zip_keys_Forall. intros i x Hi. simpl. f_equal.
      destruct l2 as [|y l2]; [simpl in Hi; lia|].
      rewrite H2 in Hi by done. apply div_within; lia. }
  simpl. rewrite app_nil_r. apply snd_zip. by rewrite length_fmap, length_seq.
Qed.

Lemma batch_filter {A} (b k : nat) (l : list A) :
  (0 < b)%nat ->
  snd <$> filter (fun p : Z * A => p.1 = Z.of_nat k)
            (zip ((fun i => Z.of_nat (i / b)) <$> seq 0 (length l)) l)
  = take b (drop (k * b) l).
Proof.
  intros Hb.
  assert (Hl : l = take (k * b) l ++ take b (drop (k * b) l) ++ drop (k * b + b) l).
  { rewrite <- drop_drop, !take_drop. done. }
  rewrite Hl at 1 2.
  apply batch_filter_parts; [done|..].
  - rewrite length_take. lia.
  - intros Hne. rewrite length_take.
    destruct (decide (k * b <= length l)%nat); [lia|].
    rewrite drop_ge in Hne by lia. by rewrite take_nil in Hne.
  - rewrite length_take. lia.
  - intros Hne. rewrite !length_take, length_drop.
    destruct (decide (k * b + b <= length l)%nat); [lia|].
    by rewrite drop_ge in Hne by lia.
Qed.

Lemma seq_StronglySorted (o m : nat) : StronglySorted Z.le (Z.of_nat <$> seq o m).
Proof.
  revert o. induction m as [|m IH]; intros o; simpl; constructor; [apply IH|].
  apply Forall_forall. intros k Hk.
  apply list_elem_of_fmap in Hk as (j & -> & Hj). apply elem_of_seq in Hj. lia.
Qed.

(** The batch numbers of [n] rows are 0 .. ceil(n/b) - 1. *)
Lemma batch_keys (b n : nat) :
  (0 < b)%nat ->
  merge_sort Z.le (remove_dups ((fun i => Z.of_nat (i / b)) <$> seq 0 n))
  = Z.of_nat <$> seq 0 ((n + b - 1) / b).
Proof.
  intros Hb.
  apply (StronglySorted_unique_strong Z.le).
  - intros; lia.
  - apply StronglySorted_merge_sort; apply _.
  - apply seq_StronglySorted.
  - rewrite merge_sort_Permutation.
    apply NoDup_Permutation; [apply NoDup_remove_dups| |].
    + apply NoDup_fmap_2; [apply _|apply NoDup_seq].
    + intros k. rewrite elem_of_remove_dups, !list_elem_of_fmap.
      pose proof (Nat.mul_succ_div_gt (n + b - 1) b ltac:(lia)) as Hgt.
      pose proof (Nat.Div0.mul_div_le (n + b - 1) b) as Hle.
      split.
      * intros (i & -> & Hi). apply elem_of_seq in Hi.
        exists (i / b)%nat. split; [done|]. apply elem_of_seq.
        split; [lia|]. simpl. apply Nat.Div0.div_lt_upper_bound; lia.
      * intros (j & -> & Hj). apply elem_of_seq in Hj.
        exists (j * b)%nat. split; [by rewrite Nat.div_mul by lia|].
        apply elem_of_seq. nia.
Qed.

Lemma batch_grouping_nat (n b : nat) :
  batch_grouping n (Z.of_nat b) = (fun i => Z.of_nat (i / b)) <$> seq 0 n.
Proof.
  unfold batch_grouping. apply list_fmap_ext. intros _ i _.
  by rewrite Nat2Z.inj_div.
Qed.

(** With a positive batch size the batches are the consecutive ones. *)
Lemma groupby_array_batches {A} (b : nat) (l : list A) :
  (0 < b)%nat ->
  snd <$> groupby_array Z.le (batch_grouping (length l) (Z.of_nat b)) l
  = consecutive_batches b l.
Proof.
  intros Hb. rewrite groupby_array_snd, groupby_snd, batch_grouping_nat.
  rewrite fst_zip by (by rewrite length_fmap, length_seq).
  rewrite batch_keys by done. unfold consecutive_batches.
  rewrite <- !list_fmap_compose. apply list_fmap_ext. intros _ k _. simpl.
  by apply batch_filter.
Qed.

Lemma consecutive_batches_concat_take {A} (b m : nat) (l : list A) :
  concat ((fun k => take b (drop (k * b) l)) <$> seq 0 m) = take (m * b) l.
Proof.
  induction m as [|m IH]; [by rewrite take_0|].
  rewrite seq_S, fmap_app, concat_app, IH. simpl. rewrite app_nil_r.
  rewrite take_take_drop. f_equal. lia.
Qed.

Lemma consecutive_batches_concat {A} (b : nat) (l : list A) :
  (0 < b)%nat -> concat (consecutive_batches b l) = l.
Proof.
  intros Hb. unfold consecutive_batches.
  rewrite consecutive_batches_concat_take. apply take_ge.
  pose proof (Nat.mul_succ_div_gt (length l + b - 1) b ltac:(lia)). nia.
Qed.

Lemma consecutive_batches_length {A} (b : nat) (l : list A) :
  length (consecutive_batches b l) = ((length l + b - 1) / b)%nat.
Proof. unfold consecutive_batches. by rewrite length_fmap, length_seq. Qed.

Lemma consecutive_batches_sizes {A} (b : nat) (l : list A) (i : nat) (batch : list A) :
  (0 < b)%nat ->
  consecutive_batches b l !! i = Some batch ->
  (0 < length batch <= b)%nat
  /\ (S i < length (consecutive_batches b l) -> length batch = b)%nat.
Proof.
  intros Hb Hi. rewrite consecutive_batches_length.
  unfold consecutive_batches in Hi.
  apply list_lookup_fmap_Some in Hi as (k & -> & Hk).
  apply lookup_seq in Hk as [-> Hk]. simpl.
  rewrite length_take, length_drop.
  pose proof (Nat.mul_succ_div_gt (length l + b - 1) b ltac:(lia)) as Hgt.
  pose proof (Nat.Div0.mul_div_le (length l + b - 1) b) as Hle.
  split; [nia|]. intros Hlast. nia.
Qed.

(** ** The dispatcher *)

Lemma for_loop_app {S A B} (l1 l2 : list A) (acc : B) (body : B -> A -> M S B) (s : S) :
  for_loop (l1 ++ l2) acc body s
  = (acc' <- for_loop l1 acc body ;; for_loop l2 acc' body) s.
Proof.
  revert acc s. induction l1 as [|x l1 IH]; intros acc s; simpl.
  - done.
  - unfold bind. destruct (body acc x s) as [[acc'|e] s1]; [|done].
    by rewrite IH.
Qed.

(** Nested loops visit the items of the flattened list. *)
Lemma for_loop_nested {S A B C} (outer : list A) (inner : A -> list C)
    (acc : B) (body : A -> B -> C -> M S B) (s : S) :
  for_loop outer acc (fun acc x => for_loop (inner x) acc (body x)) s
  = for_loop (concat ((fun x => (fun y => (x, y)) <$> inner x) <$> outer)) acc
      (fun acc xy => body xy.1 acc xy.2) s.
Proof.
  revert acc s. induction outer as [|x outer IH]; intros acc s; [done|].
  rewrite fmap_cons. cbn [concat for_loop]. rewrite for_loop_app.
  unfold bind.
  assert (Hinner : forall acc s,
    for_loop (inner x) acc (body x) s
    = for_loop ((fun y => (x, y)) <$> inner x) acc
        (fun acc xy => body xy.1 acc xy.2) s).
  { generalize (inner x). intros ys. induction ys as [|y ys IHy]; intros acc0 s0; [done|].
    simpl. unfold bind. destruct (body x acc0 y s0) as [[acc1|e] s1]; [|done].
    apply IHy. }
  rewrite Hinner.
  destruct (for_loop _ acc _ s) as [[acc'|e] s1]; [|done].
  apply IH.
Qed.

Lemma for_loop_ext {S A B} (l : list A) (acc : B) (body1 body2 : B -> A -> M S B) (s : S) :
  (forall acc x s, body1 acc x s = body2 acc x s) ->
  for_loop l acc body1 s = for_loop l acc body2 s.
Proof.
  intros Hext. revert acc s. induction l as [|x l IH]; intros acc s; [done|].
  simpl. unfold bind. rewrite Hext.
  destruct (body2 acc x s) as [[acc'|e] s1]; [apply IH|done].
Qed.

Lemma for_loop_fmap {S A B C} (f : C -> A) (l : list C) (acc : B)
    (body : B -> A -> M S B) (s : S) :
  for_loop (f <$> l) acc body s = for_loop l acc (fun acc x => body acc (f x)) s.
Proof.
  revert acc s. induction l as [|x l IH]; intros acc s; [done|].
  simpl. unfold bind.
  destruct (body acc (f x) s) as [[acc'|e] s1]; [apply IH|done].
Qed.

Section DispatcherProofs.
Context {R K : Type} (ctor : attrs -> attrs).

(** One step of the loop of lines 199-204: a new object is made; it holds
    the attributes of the previous one, but for the canvas position. *)
Lemma clone_step (cur : nat) (acc : list nat) (v : pyval) (s : dstate R K) :
  let obj := fresh (dom (heap s)) in
  (kwargs <- get_dict cur ;;
   sift_options <- SiftPointMatchOptions ctor kwargs ;;
   setattr sift_options "firstCanvasPosition" v ;;;
   ret (sift_options, acc ++ [sift_options])) s
  = (Ok (obj, acc ++ [obj]),
     mkDState (<[obj := <["firstCanvasPosition" := v]> (ctor (heap s !!! cur))]> (heap s))
              (submitted s)).
Proof.
  intros obj. unfold bind, get_dict, SiftPointMatchOptions, setattr, ret. simpl.
  by rewrite alter_insert_eq.
Qed.

Lemma clone_options_run (batch : pairs_table) (ls : list Z) :
  forall (cur : nat) (acc : list nat) (s : dstate R K),
  exists (cur' : nat) (locs : list nat) (s' : dstate R K),
    for_loop ls (cur, acc)
      (fun '(sift_options, sift_options_batch) i =>
         kwargs <- get_dict sift_options ;;
         sift_options <- SiftPointMatchOptions ctor kwargs ;;
         setattr sift_options "firstCanvasPosition" (loc_relativePosition batch i) ;;;
         ret (sift_options, sift_options_batch ++ [sift_options])) s
    = (Ok (cur', acc ++ locs), s')
    /\ submitted s' = submitted s
    /\ (forall l, is_Some (heap s !! l) -> heap s' !! l = heap s !! l)
    /\ Forall2 (fun loc d => heap s' !! loc = Some d) locs
         (clone_chain ctor (heap s !!! cur) (loc_relativePosition batch <$> ls))
    /\ heap s' !!! cur' = chain_end ctor (heap s !!! cur) (loc_relativePosition batch <$> ls).
Proof.
  induction ls as [|i ls IH]; intros cur acc s.
  - exists cur, [], s. simpl. rewrite app_nil_r. repeat split; done.
  - set (obj := fresh (dom (heap s))).
    set (d' := <["firstCanvasPosition" := loc_relativePosition batch i]>
                 (ctor (heap s !!! cur))).
    set (s1 := mkDState (<[obj := d']> (heap s)) (submitted s) : dstate R K).
    assert (Hfresh : heap s !! obj = None).
    { apply not_elem_of_dom. apply is_fresh. }
    destruct (IH obj (acc ++ [obj]) s1) as (cur' & locs & s' & Hrun & Hsub & Hpres & Hall & Hend).
    assert (Hobj : heap s1 !!! obj = d') by apply lookup_total_insert_eq.
    rewrite Hobj in Hall, Hend.
    exists cur', (obj :: locs), s'. split; [|split; [|split; [|split]]].
    + cbn [for_loop]. erewrite bind_Ok; [|apply clone_step].
      fold obj d' s1. rewrite Hrun. by rewrite <- app_assoc.
    + done.
    + intros l Hl. rewrite Hpres.
      * simpl. apply lookup_insert_ne. intros <-. rewrite Hfresh in Hl. by destruct Hl.
      * simpl. rewrite lookup_insert_ne; [done|].
        intros <-. rewrite Hfresh in Hl. by destruct Hl.
    + rewrite fmap_cons. cbn [clone_chain]. fold d'. constructor; [|done].
      rewrite Hpres; simpl; by rewrite lookup_insert_eq.
    + rewrite fmap_cons. exact Hend.
Qed.

(** The calls a pool is given carry the attributes the clones have. *)
Lemma pool_calls (h : gmap nat attrs) (g : list (string * string) -> attrs -> pm_call R K)
    (F : Z * tile_pair -> list (string * string))
    (locs : list nat) (chain : list attrs) :
  Forall2 (fun loc d => h !! loc = Some d) locs chain ->
  forall batch : pairs_table,
  (fun t : list (string * string) * nat => g t.1 (h !!! t.2)) <$> zip (F <$> batch) locs
  = zip_with (fun lr d => g (F lr) d) batch chain.
Proof.
  induction 1 as [|loc d locs chain Hloc _ IH]; intros [|lr batch]; try done.
  rewrite fmap_cons. simpl. f_equal; [|apply IH].
  f_equal. by apply lookup_total_correct.
Qed.

Lemma process_batch_run (mc : gmap string string) (render : R) (N : Z) (kw : K)
    (stack : string) (cur : nat) (batch : pairs_table) (s : dstate R K) :
  exists (r : result nat) (s' : dstate R K),
    process_batch ctor mc render N kw stack cur batch s = (r, s')
    /\ (forall l, is_Some (heap s !! l) -> heap s' !! l = heap s !! l)
    /\ match mc !! stack with
       | None => r = Raise (KeyError stack) /\ submitted s' = submitted s
       | Some coll =>
           if N <? 1
           then (exists e, r = Raise e) /\ submitted s' = submitted s
           else exists cur',
               r = Ok cur'
               /\ submitted s' = submitted s ++
                    [batch_job ctor N stack coll render kw (heap s !!! cur) batch]
               /\ heap s' !!! cur' = chain_end ctor (heap s !!! cur) (batch_positions batch)
       end.
Proof.
  unfold process_batch, getitem.
  destruct (mc !! stack) as [coll|] eqn:Hmc.
  2:{ by exists (Raise (KeyError stack)), s. }
  destruct (clone_options_run batch (fst <$> batch) cur [] s)
    as (cur' & locs & s1 & Hrun & Hsub & Hpres & Hall & Hend).
  simpl in Hrun.
  unfold bind at 1. unfold lift_result at 1.
  unfold clone_options. erewrite bind_Ok; [|exact Hrun].
  unfold WithPool_map, bind, ret.
  destruct (N <? 1) eqn:HN.
  - exists (Raise (ValueError "Number of processes must be at least 1")), s1.
    split; [done|]. split; [done|]. split; [by eexists|done].
  - eexists (Ok cur'), _. split; [done|]. simpl.
    split; [done|]. exists cur'. split; [done|]. split; [|done].
    rewrite Hsub. do 2 f_equal. unfold batch_job. f_equal.
    unfold run_point_match_client.
    apply (pool_calls (heap s1)
             (fun tps d => mkCall stack coll tps d render kw)
             (fun lr => [(p_id lr.2, q_id lr.2)])).
    exact Hall.
Qed.

Lemma dispatch_loop_run (mc : gmap string string) (render : R) (N : Z) (kw : K)
    (bs : list (string * pairs_table)) :
  forall (cur : nat) (s : dstate R K),
  exists (r : result nat) (s' : dstate R K),
    for_loop bs cur (fun cur b => process_batch ctor mc render N kw b.1 cur b.2) s
    = (r, s')
    /\ (forall l, is_Some (heap s !! l) -> heap s' !! l = heap s !! l)
    /\ submitted s' = submitted s ++
         expected_jobs ctor mc render N kw (heap s !!! cur) bs
    /\ (1 <= N -> Forall (fun b => is_Some (mc !! b.1)) bs -> exists cur', r = Ok cur').
Proof.
  induction bs as [|b bs IH]; intros cur s.
  - exists (Ok cur), s. simpl. rewrite app_nil_r. repeat split; try done. by exists cur.
  - destruct (process_batch_run mc render N kw b.1 cur b.2 s)
      as (r1 & s1 & Hrun1 & Hpres1 & Hcase).
    cbn [for_loop expected_jobs].
    destruct (mc !! b.1) as [coll|] eqn:Hmc.
    2:{ destruct Hcase as [-> Hsub]. exists (Raise (KeyError b.1)), s1.
        split; [by erewrite bind_Raise|]. split; [done|].
        split; [by rewrite app_nil_r|].
        intros _ Hall. apply Forall_cons in Hall as [[? Hsome] _]. congruence. }
    destruct (N <? 1) eqn:HN.
    { destruct Hcase as [[e ->] Hsub]. exists (Raise e), s1.
      split; [by erewrite bind_Raise|]. split; [done|].
      split; [by rewrite app_nil_r|].
      intros HN1. apply Z.ltb_ge in HN1. congruence. }
    destruct Hcase as (cur1 & -> & Hsub & Hend).
    destruct (IH cur1 s1) as (r & s' & Hrun & Hpres & Hsub' & Hok).
    exists r, s'. split; [by erewrite bind_Ok|]. split; [|split].
    + intros l Hl. rewrite Hpres; [by apply Hpres1|]. by rewrite Hpres1.
    + rewrite Hsub', Hsub, Hend. by rewrite <- app_assoc.
    + intros HN1 Hall. apply Forall_cons in Hall as [_ Hall]. by apply Hok.
Qed.

(** The batches, from the two nested loops. *)
Lemma generate_point_matches_run (df_pairs : pairs_table) (mc : gmap string string)
    (tmpl : nat) (render : R) (N batch_size : Z) (kw : K) (s : dstate R K) :
  exists (r : result unit) (s' : dstate R K),
    generate_point_matches ctor df_pairs mc tmpl render N batch_size kw s = (r, s')
    /\ (forall l, is_Some (heap s !! l) -> heap s' !! l = heap s !! l)
    /\ submitted s' = submitted s ++
         expected_jobs ctor mc render N kw (heap s !!! tmpl)
           (all_batches df_pairs batch_size)
    /\ (1 <= N ->
        Forall (fun b => is_Some (mc !! b.1)) (all_batches df_pairs batch_size) ->
        r = Ok tt).
Proof.
  destruct (dispatch_loop_run mc render N kw (all_batches df_pairs batch_size) tmpl s)
    as (r & s' & Hrun & Hpres & Hsub & Hok).
  assert (Hloop :
    for_loop (sections_of df_pairs) tmpl
      (fun sift_options '((stack, z), tile_pairs) =>
         for_loop (batches_of batch_size tile_pairs) sift_options
           (process_batch ctor mc render N kw stack)) s = (r, s')).
  { rewrite <- Hrun. unfold all_batches.
    erewrite for_loop_ext.
    - rewrite (for_loop_nested (sections_of df_pairs)
                 (fun g => batches_of batch_size g.2) tmpl
                 (fun g cur batch => process_batch ctor mc render N kw g.1.1 cur batch)).
      assert (Hflat : forall gs : list (string * Z * pairs_table),
        concat ((fun g => (fun batch => (g.1.1, batch)) <$> batches_of batch_size g.2) <$> gs)
        = (fun xy : string * Z * pairs_table * pairs_table => (xy.1.1.1, xy.2))
            <$> concat ((fun g => (fun y => (g, y)) <$> batches_of batch_size g.2) <$> gs)).
      { intros gs. induction gs as [|g gs IHg]; [done|].
        rewrite !fmap_cons. cbn [concat]. rewrite fmap_app, IHg.
        by rewrite <- list_fmap_compose. }
      rewrite Hflat, for_loop_fmap. done.
    - by intros acc [[stack z] tile_pairs] s0. }
  unfold generate_point_matches.
  destruct r as [cur'|e].
  - exists (Ok tt), s'. split; [by erewrite bind_Ok|]. done.
  - exists (Raise e), s'. split; [by erewrite bind_Raise|]. split; [done|].
    split; [done|]. intros HN Hall. destruct (Hok HN Hall) as [? ?]. done.
Qed.

End DispatcherProofs.

(** ** The groups and batches of a table *)

Lemma elem_of_concat {A} (x : A) (ls : list (list A)) :
  x ∈ concat ls <-> exists l, x ∈ l /\ l ∈ ls.
Proof.
  induction ls as [|l ls IH]; simpl.
  - split; [by intros ?%elem_of_nil|by intros (l & _ & ?%elem_of_nil)].
  - rewrite elem_of_app, IH. split.
    + intros [Hx|(l' & Hx & Hl')]; [exists l; split; [done|by left]|].
      exists l'. split; [done|by right].
    + intros (l' & Hx & Hl'). apply elem_of_cons in Hl' as [->|Hl']; [by left|].
      right. by exists l'.
Qed.

Lemma groupby_array_sub {A} (keys : list Z) (l : list A) (g : Z * list A) (x : A) :
  g ∈ groupby_array Z.le keys l -> x ∈ g.2 -> x ∈ l.
Proof.
  unfold groupby_array, groupby. intros Hg Hx.
  apply list_elem_of_fmap in Hg as (g' & -> & Hg').
  apply list_elem_of_fmap in Hg' as (k & -> & _). simpl in Hx.
  apply list_elem_of_fmap in Hx as ([k' y] & -> & Hy).
  apply list_elem_of_filter in Hy as [_ Hy]. by apply elem_of_zip_r in Hy.
Qed.

Lemma batches_of_sub (batch_size : Z) (tile_pairs batch : pairs_table) (lr : Z * tile_pair) :
  batch ∈ batches_of batch_size tile_pairs -> lr ∈ batch -> lr ∈ tile_pairs.
Proof.
  unfold batches_of. intros Hb Hlr.
  apply list_elem_of_fmap in Hb as (g & -> & Hg).
  by eapply groupby_array_sub.
Qed.

Lemma batches_of_perm (batch_size : Z) (tile_pairs : pairs_table) :
  concat (batches_of batch_size tile_pairs) ≡ₚ tile_pairs.
Proof.
  unfold batches_of. apply groupby_array_perm.
  unfold batch_grouping. by rewrite length_fmap, length_seq.
Qed.

Lemma sections_of_key (df_pairs : pairs_table) (g : string * Z * pairs_table) :
  g ∈ sections_of df_pairs ->
  (exists lr, lr ∈ df_pairs /\ (tp_stack lr.2, tp_z lr.2) = g.1)
  /\ (forall lr, lr ∈ g.2 -> lr ∈ df_pairs /\ (tp_stack lr.2, tp_z lr.2) = g.1).
Proof.
  unfold sections_of, groupby. intros Hg.
  apply list_elem_of_fmap in Hg as (k & -> & Hk). simpl. split.
  - by apply group_keys_elem in Hk.
  - intros lr Hlr. apply list_elem_of_filter in Hlr as [? ?]. done.
Qed.

Lemma all_batches_elem (df_pairs : pairs_table) (batch_size : Z)
    (b : string * pairs_table) :
  b ∈ all_batches df_pairs batch_size ->
  (exists lr, lr ∈ df_pairs /\ tp_stack lr.2 = b.1)
  /\ (forall lr, lr ∈ b.2 -> tp_stack lr.2 = b.1).
Proof.
  unfold all_batches. intros Hb.
  apply elem_of_concat in Hb as (bs & Hb & Hbs).
  apply list_elem_of_fmap in Hbs as (g & -> & Hg).
  apply list_elem_of_fmap in Hb as (batch & -> & Hbatch). simpl.
  apply sections_of_key in Hg as [(lr & Hlr & Hkey) Hrows]. split.
  - exists lr. split; [done|]. by rewrite <- Hkey.
  - intros lr' Hlr'. eapply batches_of_sub in Hlr'; [|done].
    apply Hrows in Hlr' as [_ Hk]. by rewrite <- Hk.
Qed.

(** The batches hold every row of the table once. *)
Lemma all_batches_perm (df_pairs : pairs_table) (batch_size : Z) :
  concat (snd <$> all_batches df_pairs batch_size) ≡ₚ df_pairs.
Proof.
  unfold all_batches.
  rewrite <- (groupby_perm key_le (fun lr : Z * tile_pair => (tp_stack lr.2, tp_z lr.2))
               df_pairs) at 2.
  fold (sections_of df_pairs).
  generalize (sections_of df_pairs). intros gs.
  induction gs as [|g gs IH]; [done|].
  rewrite !fmap_cons. cbn [concat]. rewrite fmap_app, concat_app, IH.
  apply Permutation_app; [|done].
  rewrite <- list_fmap_compose. simpl.
  rewrite <- (batches_of_perm batch_size g.2) at 2.
  by rewrite list_fmap_id.
Qed.

(** ** The clones *)

Lemma Forall2_impl_elem {A B} (P Q : A -> B -> Prop) (l : list A) (k : list B) :
  Forall2 P l k -> (forall x y, y ∈ k -> P x y -> Q x y) -> Forall2 Q l k.
Proof.
  induction 1 as [|x y l k Hxy _ IH]; intros HPQ; constructor.
  - apply HPQ; [by left|done].
  - apply IH. intros x' y' Hy'. apply HPQ. by right.
Qed.

(** With a unique label, [.loc] returns the cell of the row. *)
Lemma loc_relativePosition_unique (batch : pairs_table) (lr : Z * tile_pair) :
  lr ∈ batch -> label_unique batch lr.1 ->
  loc_relativePosition batch lr.1 = p_relativePosition lr.2.
Proof.
  unfold label_unique, loc_relativePosition. intros Hlr Huniq.
  assert (Hin : lr ∈ filter (fun x : Z * tile_pair => x.1 = lr.1) batch)
    by (by apply list_elem_of_filter).
  destruct (filter _ batch) as [|x [|y sel]]; simpl in Huniq; try done.
  by apply list_elem_of_singleton in Hin as ->.
Qed.

Section CloneProofs.
Context {R K : Type} (ctor : attrs -> attrs).

(** The constructor stores every keyword argument under its name. *)
Hypothesis ctor_keeps :
  forall (d : attrs) (k : string),
    k ≠ "firstCanvasPosition" -> ctor d !! k = d !! k.

Lemma clone_chain_frame (d0 : attrs) (vs : list pyval) :
  forall d : attrs,
  (forall k, k ≠ "firstCanvasPosition" -> d !! k = d0 !! k) ->
  Forall2 (fun d' v =>
             d' !! "firstCanvasPosition" = Some v
             /\ forall k, k ≠ "firstCanvasPosition" -> d' !! k = d0 !! k)
          (clone_chain ctor d vs) vs
  /\ (forall k, k ≠ "firstCanvasPosition" -> chain_end ctor d vs !! k = d0 !! k).
Proof.
  induction vs as [|v vs IH]; intros d Hd; [by split; [constructor|]|].
  assert (Hd' : forall k, k ≠ "firstCanvasPosition" ->
                  <["firstCanvasPosition" := v]> (ctor d) !! k = d0 !! k).
  { intros k Hk. rewrite lookup_insert_ne by done. rewrite ctor_keeps by done.
    by apply Hd. }
  destruct (IH _ Hd') as [Hall Hend]. split; [|exact Hend].
  simpl. constructor; [|exact Hall]. split; [apply lookup_insert_eq|exact Hd'].
Qed.

Lemma zip_chain_Forall2 (stack coll : string) (render : R) (kw : K)
    (Q : attrs -> pyval -> Prop) (pos : Z -> pyval) (l : pairs_table) :
  forall chain : list attrs,
  Forall2 Q chain (pos <$> l.*1) ->
  Forall2 (fun (c : pm_call R K) (lr : Z * tile_pair) =>
             Q (pm_sift_options c) (pos lr.1))
          (zip_with (fun (lr : Z * tile_pair) d' =>
                       mkCall stack coll [(p_id lr.2, q_id lr.2)] d' render kw)
                    l chain) l.
Proof.
  induction l as [|lr l IH]; intros chain Hall.
  - apply Forall2_nil_inv_r in Hall as ->. constructor.
  - rewrite !fmap_cons in Hall.
    apply Forall2_cons_inv_r in Hall as (d' & chain' & HQ & Hall & ->).
    simpl. constructor; [done|]. by apply IH.
Qed.

Lemma batch_job_options (N : Z) (stack coll : string) (render : R) (kw : K)
    (d0 d : attrs) (batch : pairs_table) :
  (forall k, k ≠ "firstCanvasPosition" -> d !! k = d0 !! k) ->
  Forall2 (clone_of_template d0 batch)
          (job_calls (batch_job ctor N stack coll render kw d batch)) batch.
Proof.
  intros Hd. destruct (clone_chain_frame d0 (batch_positions batch) d Hd) as [Hall _].
  unfold batch_job, batch_positions in *. simpl.
  apply zip_chain_Forall2 with (stack := stack) (coll := coll) (render := render)
                               (kw := kw) in Hall.
  eapply Forall2_impl_elem; [exact Hall|]. simpl.
  intros c lr Hlr [Hpos Hframe]. split; [done|]. split; [done|].
  intros Huniq. rewrite Hpos. f_equal. by apply loc_relativePosition_unique.
Qed.

Lemma expected_jobs_options (mc : gmap string string) (render : R) (N : Z) (kw : K)
    (d0 : attrs) (bs : list (string * pairs_table)) :
  forall d : attrs,
  (forall k, k ≠ "firstCanvasPosition" -> d !! k = d0 !! k) ->
  Forall2 (fun job b => Forall2 (clone_of_template d0 b.2) (job_calls job) b.2)
          (expected_jobs ctor mc render N kw d bs)
          (take (length (expected_jobs ctor mc render N kw d bs)) bs).
Proof.
  induction bs as [|b bs IH]; intros d Hd; [constructor|].
  cbn [expected_jobs]. destruct (mc !! b.1) as [coll|]; [|constructor].
  destruct (N <? 1); [constructor|].
  simpl. constructor; [by apply batch_job_options|].
  apply IH. by apply clone_chain_frame.
Qed.

End CloneProofs.

Section JobProofs.
Context {R K : Type} (ctor : attrs -> attrs).

Lemma clone_chain_length (d : attrs) (vs : list pyval) :
  length (clone_chain ctor d vs) = length vs.
Proof. revert d. induction vs as [|v vs IH]; intros d; simpl; [done|]. by rewrite IH. Qed.

Lemma expected_jobs_length (mc : gmap string string) (render : R) (N : Z) (kw : K)
    (bs : list (string * pairs_table)) (d : attrs) :
  1 <= N -> Forall (fun b => is_Some (mc !! b.1)) bs ->
  length (expected_jobs ctor mc render N kw d bs) = length bs.
Proof.
  intros HN Hall. revert d. induction Hall as [|b bs [coll Hb] _ IH]; intros d; [done|].
  cbn [expected_jobs]. rewrite Hb.
  destruct (N <? 1) eqn:HN'; [apply Z.ltb_lt in HN'; lia|].
  simpl. by rewrite IH.
Qed.

Lemma expected_jobs_size (mc : gmap string string) (render : R) (N : Z) (kw : K)
    (bs : list (string * pairs_table)) (d : attrs) :
  Forall (fun j => job_size j = N /\ 1 <= N) (expected_jobs ctor mc render N kw d bs).
Proof.
  revert d. induction bs as [|b bs IH]; intros d; [constructor|].
  cbn [expected_jobs]. destruct (mc !! b.1); [|constructor].
  destruct (N <? 1) eqn:HN; [constructor|].
  apply Z.ltb_ge in HN. constructor; [done|apply IH].
Qed.

Lemma zip_chain_targets (mc : gmap string string) (stack coll : string)
    (render : R) (kw : K) (l : pairs_table) :
  mc !! stack = Some coll ->
  forall chain : list attrs,
  length chain = length l ->
  (forall lr, lr ∈ l -> tp_stack lr.2 = stack) ->
  call_target <$> zip_with (fun (lr : Z * tile_pair) d' =>
                              mkCall stack coll [(p_id lr.2, q_id lr.2)] d' render kw)
                           l chain
  = row_target mc <$> l.
Proof.
  intros Hmc. induction l as [|lr l IH]; intros [|d' chain] Hlen Hstack; try done.
  simpl. f_equal.
  - unfold call_target, row_target. simpl.
    rewrite (Hstack lr) by (by left). by rewrite (lookup_total_correct _ _ _ Hmc).
  - apply IH; [simpl in Hlen; lia|]. intros lr' Hlr'. apply Hstack. by right.
Qed.

Lemma batch_job_targets (mc : gmap string string) (N : Z) (stack coll : string)
    (render : R) (kw : K) (d : attrs) (batch : pairs_table) :
  mc !! stack = Some coll ->
  (forall lr, lr ∈ batch -> tp_stack lr.2 = stack) ->
  call_target <$> job_calls (batch_job ctor N stack coll render kw d batch)
  = row_target mc <$> batch.
Proof.
  intros Hmc Hstack. unfold batch_job, batch_positions. simpl.
  apply zip_chain_targets; [done| |done].
  by rewrite clone_chain_length, !length_fmap.
Qed.

(** When no batch raises, the calls of the pools are those of the rows of
    the batches, in order. *)
Lemma expected_jobs_targets (mc : gmap string string) (render : R) (N : Z) (kw : K)
    (bs : list (string * pairs_table)) :
  1 <= N ->
  Forall (fun b => is_Some (mc !! b.1)) bs ->
  Forall (fun b : string * pairs_table =>
            forall lr, lr ∈ b.2 -> tp_stack lr.2 = b.1) bs ->
  forall d : attrs,
  call_target <$> concat (job_calls <$> expected_jobs ctor mc render N kw d bs)
  = row_target mc <$> concat (snd <$> bs).
Proof.
  intros HN Hall. induction Hall as [|b bs [coll Hb] _ IH]; intros Hst d; [done|].
  apply Forall_cons in Hst as [Hst1 Hst].
  cbn [expected_jobs]. rewrite Hb.
  destruct (N <? 1) eqn:HN'; [apply Z.ltb_lt in HN'; lia|].
  rewrite !fmap_cons. cbn [concat]. rewrite !fmap_app.
  rewrite IH by done. f_equal. by apply batch_job_targets.
Qed.

End JobProofs.

(** ** Execution of the pools *)

Section MachineProofs.
Context {R K : Type}.
Implicit Types (m : machine R K) (tr : list (event R K)) (c : pm_call R K).

Lemma steps_app m1 tr1 m2 tr2 m3 :
  steps m1 tr1 m2 -> steps m2 tr2 m3 -> steps m1 (tr1 ++ tr2) m3.
Proof.
  induction 1 as [|m e m' tr m'' Hstep _ IH]; intros H2; [done|].
  simpl. econstructor; [exact Hstep|]. by apply IH.
Qed.

Lemma invoked_app tr1 tr2 : invoked (tr1 ++ tr2) = invoked tr1 ++ invoked tr2.
Proof. apply omap_app. Qed.

Lemma returned_app tr1 tr2 : returned (tr1 ++ tr2) = returned tr1 ++ returned tr2.
Proof. apply omap_app. Qed.

(** From an open pool to the end: the pool runs its calls and is closed,
    then the remaining batches follow. *)
Lemma pool_phase (b : nat) (todo : list (pool_job R K)) (n : Z) (B : nat) tr :
  forall pend run : list (pm_call R K),
  steps (mkMachine b todo (Some (mkPool n pend run))) tr (mkMachine B [] None) ->
  exists body rest,
    tr = body ++ EvPoolClose b :: rest
    /\ Forall (worker_event b) body
    /\ invoked body ≡ₚ pend
    /\ returned body ≡ₚ run ++ pend
    /\ (forall k, returned (take k body) ⊆+ run ++ invoked (take k body))
    /\ steps (mkMachine (S b) todo None) rest (mkMachine B [] None).
Proof.
  intros pend run Hsteps.
  remember (mkMachine b todo (Some (mkPool n pend run))) as m eqn:Hm.
  remember (mkMachine B [] None) as mf eqn:Hmf.
  revert pend run Hm Hmf.
  induction Hsteps as [m|m e m' tr m'' Hstep Hsteps IH]; intros pend run Hm Hmf.
  - subst. discriminate Hmf.
  - assert (IH' : forall pend run, m' = mkMachine b todo (Some (mkPool n pend run)) ->
      exists body rest,
        tr = body ++ EvPoolClose b :: rest
        /\ Forall (worker_event b) body
        /\ invoked body ≡ₚ pend
        /\ returned body ≡ₚ run ++ pend
        /\ (forall k, returned (take k body) ⊆+ run ++ invoked (take k body))
        /\ steps (mkMachine (S b) todo None) rest m'').
    { intros pend' run' Hm'. by apply IH. }
    clear IH. rename IH' into IH. subst m m''.
    inversion Hstep; subst.
    + (* a call is invoked *)
      destruct (IH _ _ eq_refl) as (body & rest & -> & Hw & Hinv & Hret & Hpre & Hrest).
      exists (EvInvoke b c :: body), rest. split; [done|].
      split; [by constructor|]. split; [|split; [|split; [|done]]].
      * simpl. rewrite Hinv. by rewrite Permutation_middle.
      * simpl. rewrite Hret. simpl.
        rewrite <- !Permutation_middle. by rewrite Permutation_middle.
      * intros [|k]; simpl; [apply submseteq_nil_l|].
        etransitivity; [apply Hpre|]. simpl. by rewrite Permutation_middle.
    + (* a call returns *)
      destruct (IH _ _ eq_refl) as (body & rest & -> & Hw & Hinv & Hret & Hpre & Hrest).
      exists (EvReturn b c :: body), rest. split; [done|].
      split; [by constructor|]. split; [done|]. split; [|split; [|done]].
      * simpl. rewrite Hret. rewrite <- !app_assoc. simpl.
        by rewrite <- Permutation_middle.
      * intros [|k]; simpl; [apply submseteq_nil_l|].
        rewrite <- app_assoc. simpl. rewrite <- Permutation_middle.
        apply submseteq_skip. rewrite app_assoc. apply Hpre.
    + (* the pool is closed *)
      exists [], tr. repeat split; try done.
      intros k. by rewrite take_nil.
Qed.

(** With no pool open, the rest of the execution is one segment per
    remaining batch. *)
Lemma closed_phase (todo : list (pool_job R K)) :
  forall (b B : nat) tr,
  steps (mkMachine b todo None) tr (mkMachine B [] None) ->
  exists segs,
    tr = concat segs
    /\ length segs = length todo
    /\ forall i j seg, todo !! i = Some j -> segs !! i = Some seg ->
                       pool_segment (b + i) j seg.
Proof.
  induction todo as [|j todo IH]; intros b B tr Hsteps.
  - inversion Hsteps as [|? ? ? ? ? Hstep]; subst.
    + by exists [].
    + inversion Hstep.
  - inversion Hsteps as [|? ? ? ? ? Hstep Hrest]; subst.
    inversion Hstep; subst.
    apply pool_phase in Hrest
      as (body & rest & -> & Hw & Hinv & Hret & Hpre & Hrest).
    apply IH in Hrest as (segs & -> & Hlen & Hsegs).
    exists ((EvPoolOpen b (job_size j) :: body ++ [EvPoolClose b]) :: segs).
    split; [simpl; by rewrite <- app_assoc|]. split; [simpl; by rewrite Hlen|].
    intros [|i] j' seg Hj Hseg; simpl in Hj, Hseg.
    + injection Hj as <-. injection Hseg as <-. rewrite Nat.add_0_r.
      exists body. repeat split; done.
    + replace (b + S i)%nat with (S b + i)%nat by lia. by eapply Hsegs.
Qed.

(** Every call given to a pool is invoked once. *)
Lemma executes_invoked (jobs : list (pool_job R K)) tr :
  executes jobs tr -> invoked tr ≡ₚ concat (job_calls <$> jobs).
Proof.
  unfold executes. intros Hsteps.
  apply closed_phase in Hsteps as (segs & -> & Hlen & Hsegs).
  revert segs Hlen Hsegs. generalize 0%nat.
  induction jobs as [|j jobs IH]; intros b [|seg segs] Hlen Hsegs; try done.
  simpl. rewrite invoked_app.
  apply Permutation_app.
  - destruct (Hsegs 0%nat j seg eq_refl eq_refl) as (body & -> & _ & Hinv & _).
    simpl. by rewrite invoked_app, app_nil_r.
  - apply (IH (S b)); [simpl in Hlen; lia|].
    intros i j' seg' Hj Hseg. replace (S b + i)%nat with (b + S i)%nat by lia.
    by apply Hsegs.
Qed.

Lemma segment_batch (b : nat) (j : pool_job R K) (seg : list (event R K)) :
  pool_segment b j seg -> Forall (fun e => event_batch e = b) seg.
Proof.
  intros (body & -> & Hw & _). constructor; [done|].
  apply Forall_app. split; [|by constructor].
  eapply Forall_impl; [exact Hw|]. intros [] He; simpl in *; done.
Qed.

(** The batch numbers never decrease along an execution. *)
Lemma executes_sorted (jobs : list (pool_job R K)) tr :
  executes jobs tr -> StronglySorted le (event_batch <$> tr).
Proof.
  unfold executes. intros Hsteps.
  apply closed_phase in Hsteps as (segs & -> & Hlen & Hsegs).
  assert (Hall : forall i seg, segs !! i = Some seg ->
                   Forall (fun e => event_batch e = (0 + i)%nat) seg).
  { intros i seg Hseg.
    destruct (lookup_lt_is_Some_2 jobs i) as [j Hj];
      [rewrite <- Hlen; by eapply lookup_lt_Some|].
    eapply segment_batch. by eapply Hsegs. }
  clear Hsegs Hlen. revert Hall. generalize 0%nat.
  induction segs as [|seg segs IH]; intros b Hall; [constructor|].
  simpl. rewrite fmap_app. apply StronglySorted_app_2.
  - intros x1 x2 Hx1 Hx2.
    apply list_elem_of_fmap in Hx1 as (e1 & -> & He1).
    apply list_elem_of_fmap in Hx2 as (e2 & -> & He2).
    pose proof (Hall 0%nat seg eq_refl) as Hseg.
    rewrite Forall_forall in Hseg. rewrite (Hseg e1 He1).
    apply elem_of_concat in He2 as (seg2 & He2 & Hseg2).
    apply list_elem_of_lookup in Hseg2 as [i Hi].
    pose proof (Hall (S i) seg2 Hi) as Hs2. rewrite Forall_forall in Hs2.
    rewrite (Hs2 e2 He2). lia.
  - pose proof (Hall 0%nat seg eq_refl) as Hseg. rewrite Nat.add_0_r in Hseg.
    clear -Hseg. induction Hseg as [|e seg He Hseg IH]; simpl; constructor; [done|].
    apply Forall_fmap. eapply Forall_impl; [exact Hseg|]. simpl. intros. lia.
  - apply (IH (S b)). intros i seg' Hseg'.
    replace (S b + i)%nat with (b + S i)%nat by lia. by apply Hall.
Qed.

Lemma serial_calls (b : nat) (todo : list (pool_job R K)) (n : Z)
    (cs : list (pm_call R K)) :
  1 <= n ->
  steps (mkMachine b todo (Some (mkPool n cs [])))
        (concat ((fun c => [EvInvoke b c; EvReturn b c]) <$> cs))
        (mkMachine b todo (Some (mkPool n [] []))).
Proof.
  intros Hn. induction cs as [|c cs IH]; [constructor|].
  rewrite fmap_cons. simpl.
  econstructor; [apply (step_invoke b todo n [] c cs []); simpl; lia|].
  econstructor; [apply (step_return b todo n cs [] c [])|]. exact IH.
Qed.

(** The pools can run: one call after the other is an execution. *)
Lemma serial_executes (jobs : list (pool_job R K)) :
  Forall (fun j => 1 <= job_size j) jobs ->
  executes jobs (serial_trace jobs).
Proof.
  unfold executes, serial_trace. intros Hall.
  change (length jobs) with (0 + length jobs)%nat.
  change (imap serial_job jobs) with (imap (fun i => serial_job (0 + i)) jobs).
  generalize 0%nat.
  induction Hall as [|j jobs Hj _ IH]; intros b.
  - rewrite Nat.add_0_r. constructor.
  - simpl. rewrite Nat.add_0_r. unfold serial_job at 1.
    rewrite <- app_assoc. simpl.
    econstructor; [apply step_open|].
    eapply steps_app; [by apply serial_calls|].
    simpl. econstructor; [apply step_close|].
    replace (b + S (length jobs))%nat with (S b + length jobs)%nat by lia.
    specialize (IH (S b)).
    erewrite imap_ext; [exact IH|].
    intros i j' _. simpl. unfold serial_job.
    by replace (b + S i)%nat with (S b + i)%nat by lia.
Qed.

End MachineProofs.

Lemma all_batches_collections (df_pairs : pairs_table) (batch_size : Z)
    (mc : gmap string string) :
  (forall lr, lr ∈ df_pairs -> is_Some (mc !! tp_stack lr.2)) ->
  Forall (fun b : string * pairs_table => is_Some (mc !! b.1))
         (all_batches df_pairs batch_size).
Proof.
  intros Hmc. apply Forall_forall. intros b Hb.
  apply all_batches_elem in Hb as [(lr & Hlr & <-) _]. by apply Hmc.
Qed.

Lemma all_batches_stacks (df_pairs : pairs_table) (batch_size : Z) :
  Forall (fun b : string * pairs_table => forall lr, lr ∈ b.2 -> tp_stack lr.2 = b.1)
         (all_batches df_pairs batch_size).
Proof.
  apply Forall_forall. intros b Hb. by apply all_batches_elem in Hb as [_ ?].
Qed.

Lemma zip_chain_pairs {R K} (stack coll : string) (render : R) (kw : K)
    (l : pairs_table) :
  forall chain : list attrs,
  length chain = length l ->
  pm_tile_pairs <$> zip_with (fun (lr : Z * tile_pair) d' =>
                                mkCall stack coll [(p_id lr.2, q_id lr.2)] d' render kw)
                             l chain
  = (fun lr : Z * tile_pair => [(p_id lr.2, q_id lr.2)]) <$> l.
Proof.
  induction l as [|lr l IH]; intros [|d' chain] Hlen; try done.
  simpl. f_equal. apply IH. simpl in Hlen. lia.
Qed.

Lemma expected_jobs_batches {R K} (ctor : attrs -> attrs) (mc : gmap string string)
    (render : R) (N : Z) (kw : K) (bs : list (string * pairs_table)) :
  forall d : attrs,
  Forall2 (fun (job : pool_job R K) (b : string * pairs_table) =>
             job_size job = N
             /\ pm_tile_pairs <$> job_calls job
                = (fun lr : Z * tile_pair => [(p_id lr.2, q_id lr.2)]) <$> b.2)
          (expected_jobs ctor mc render N kw d bs)
          (take (length (expected_jobs ctor mc render N kw d bs)) bs).
Proof.
  induction bs as [|b bs IH]; intros d; [constructor|].
  cbn [expected_jobs]. destruct (mc !! b.1) as [coll|]; [|constructor].
  destruct (N <? 1); [constructor|].
  simpl. constructor; [|apply IH]. split; [done|].
  apply zip_chain_pairs. unfold batch_positions.
  by rewrite clone_chain_length, !length_fmap.
Qed.

(** C9.  The dispatcher leaves the object the caller passes as SIFT options
    as it is: its attributes are the same after the run, returned or raised,
    as are those of every object that existed before; what is written to
    are objects made during the run. *)
Theorem template_not_mutated {R K : Type} (ctor : attrs -> attrs)
    (df_pairs : pairs_table) (match_collections : gmap string string)
    (sift_options : nat) (render : R) (N_cores batch_size : Z) (kwargs : K)
    (s : dstate R K) (d0 : attrs) :
  heap s !! sift_options = Some d0 ->
  let s' := (generate_point_matches ctor df_pairs match_collections sift_options
               render N_cores batch_size kwargs s).2 in
  heap s' !! sift_options = Some d0
  /\ (forall obj, is_Some (heap s !! obj) -> heap s' !! obj = heap s !! obj).
Proof.
  intros Hlive.
  destruct (generate_point_matches_run ctor df_pairs match_collections sift_options
              render N_cores batch_size kwargs s) as (r & s' & -> & Hpres & _).
  simpl. split; [|done]. rewrite Hpres; [done|]. by rewrite Hlive.
Qed.

(** C3.  With one core at least and a collection for the stack of every
    row, the dispatcher returns, with no result, and in every execution of
    its pools the remote computation is invoked once per row of the table:
    with the pair of tile ids of the row, the stack of the row and the
    collection the mapping gives for that stack. *)
Theorem one_invocation_per_row {R K : Type} (ctor : attrs -> attrs)
    (df_pairs : pairs_table) (match_collections : gmap string string)
    (sift_options : nat) (render : R) (N_cores batch_size : Z) (kwargs : K)
    (h : gmap nat attrs) :
  1 <= N_cores ->
  (forall lr, lr ∈ df_pairs -> is_Some (match_collections !! tp_stack lr.2)) ->
  exists s' : dstate R K,
    generate_point_matches ctor df_pairs match_collections sift_options
      render N_cores batch_size kwargs (mkDState h []) = (Ok tt, s')
    /\ executes (submitted s') (serial_trace (submitted s'))
    /\ forall tr, executes (submitted s') tr ->
         call_target <$> invoked tr ≡ₚ row_target match_collections <$> df_pairs.
Proof.
  intros HN Hmc.
  destruct (generate_point_matches_run ctor df_pairs match_collections sift_options
              render N_cores batch_size kwargs (mkDState h []))
    as (r & s' & Hrun & _ & Hsub & Hok).
  pose proof (all_batches_collections _ batch_size _ Hmc) as Hall.
  rewrite (Hok HN Hall) in Hrun. simpl in Hsub.
  exists s'. split; [done|]. rewrite Hsub. split.
  - apply serial_executes. eapply Forall_impl; [apply expected_jobs_size|].
    simpl. intros j [-> ?]. done.
  - intros tr Htr. rewrite (executes_invoked _ _ Htr).
    rewrite expected_jobs_targets; [|done|done|apply all_batches_stacks].
    by rewrite all_batches_perm.
Qed.

(** C4.  For a positive batch size, the batches of a [(stack, z)] group are
    its rows cut, in order, in consecutive pieces of [batch_size] rows, the
    last piece alone possibly shorter (and not empty); ten rows in batches
    of four give batches of 4, 4 and 2 rows. *)
Theorem batches_are_consecutive (df_pairs : pairs_table) (batch_size : Z)
    (g : string * Z * pairs_table) :
  0 < batch_size ->
  g ∈ sections_of df_pairs ->
  let batches := batches_of batch_size g.2 in
  batches = consecutive_batches (Z.to_nat batch_size) g.2
  /\ concat batches = g.2
  /\ (forall i batch, batches !! i = Some batch ->
        (0 < length batch <= Z.to_nat batch_size)%nat
        /\ (S i < length batches -> length batch = Z.to_nat batch_size)%nat)
  /\ (length g.2 = 10%nat -> batch_size = 4 -> length <$> batches = [4; 4; 2]%nat).
Proof.
  intros Hb _ batches.
  assert (Hbatches : batches = consecutive_batches (Z.to_nat batch_size) g.2).
  { subst batches. unfold batches_of.
    rewrite <- (Z2Nat.id batch_size) at 1 by lia.
    apply groupby_array_batches. lia. }
  rewrite Hbatches. split; [done|]. split; [|split].
  - apply consecutive_batches_concat. lia.
  - intros i batch. apply consecutive_batches_sizes. lia.
  - intros Hlen ->. generalize dependent (g.2). intros l _ _ Hlen.
    do 11 (destruct l as [|? l]; try discriminate Hlen). reflexivity.
Qed.

(** ** One pool per batch *)

Section SentBatches.
Context {R K : Type} (ctor : attrs -> attrs).

Lemma expected_jobs_sent (mc : gmap string string) (render : R) (N : Z) (kw : K)
    (bs : list (string * pairs_table)) :
  forall d : attrs,
  Forall2 (fun (job : pool_job R K) (b : string * pairs_table) =>
             job_size job = N
             /\ pm_tile_pairs <$> job_calls job
                = (fun lr : Z * tile_pair => [(p_id lr.2, q_id lr.2)]) <$> b.2)
          (expected_jobs ctor mc render N kw d bs) (sent_batches mc N bs).
Proof.
  induction bs as [|b bs IH]; intros d; [constructor|].
  cbn [expected_jobs sent_batches]. destruct (mc !! b.1) as [coll|]; [|constructor].
  destruct (N <? 1); [constructor|].
  constructor; [|apply IH]. split; [done|].
  apply zip_chain_pairs. unfold batch_positions.
  by rewrite clone_chain_length, !length_fmap.
Qed.

End SentBatches.

Lemma sent_batches_prefix (mc : gmap string string) (N : Z)
    (bs : list (string * pairs_table)) :
  sent_batches mc N bs `prefix_of` bs.
Proof.
  induction bs as [|b bs IH]; [done|].
  cbn [sent_batches]. destruct (mc !! b.1); [|apply prefix_nil].
  destruct (N <? 1); [apply prefix_nil|]. by apply prefix_cons.
Qed.

Lemma sent_batches_all (mc : gmap string string) (N : Z)
    (bs : list (string * pairs_table)) :
  1 <= N -> Forall (fun b => is_Some (mc !! b.1)) bs -> sent_batches mc N bs = bs.
Proof.
  intros HN. induction 1 as [|b bs [coll Hb] _ IH]; [done|].
  cbn [sent_batches]. rewrite Hb.
  destruct (N <? 1) eqn:HN'; [apply Z.ltb_lt in HN'; lia|]. by rewrite IH.
Qed.

(** C8.  The dispatcher runs one pool per batch, in the order of the
    batches: a pool of [N_cores] workers for every batch it reaches, given
    the pairs of that batch; it reaches every batch when there is a core
    and every stack has a collection, and otherwise the batches before the
    first one it cannot send.  An execution of the pools is cut in one
    segment per pool, in that order: the pool is opened, its calls are
    invoked and return, and the pool is closed before the next one is
    opened.  The batch numbers of the events never decrease. *)
Theorem pools_run_one_after_another {R K : Type} (ctor : attrs -> attrs)
    (df_pairs : pairs_table) (match_collections : gmap string string)
    (sift_options : nat) (render : R) (N_cores batch_size : Z) (kwargs : K)
    (h : gmap nat attrs) :
  let run := generate_point_matches ctor df_pairs match_collections sift_options
               render N_cores batch_size kwargs (mkDState h []) in
  let jobs := submitted run.2 in
  let sent := sent_batches match_collections N_cores
                (all_batches df_pairs batch_size) in
  Forall2 (fun (job : pool_job R K) (b : string * pairs_table) =>
             job_size job = N_cores
             /\ pm_tile_pairs <$> job_calls job
                = (fun lr : Z * tile_pair => [(p_id lr.2, q_id lr.2)]) <$> b.2)
          jobs sent
  /\ sent `prefix_of` all_batches df_pairs batch_size
  /\ (1 <= N_cores ->
      (forall lr, lr ∈ df_pairs -> is_Some (match_collections !! tp_stack lr.2)) ->
      run.1 = Ok tt /\ sent = all_batches df_pairs batch_size)
  /\ executes jobs (serial_trace jobs)
  /\ forall tr, executes jobs tr ->
       StronglySorted le (event_batch <$> tr)
       /\ exists segs,
           tr = concat segs
           /\ length segs = length jobs
           /\ forall b job seg, jobs !! b = Some job -> segs !! b = Some seg ->
                                pool_segment b job seg.
Proof.
  destruct (generate_point_matches_run ctor df_pairs match_collections sift_options
              render N_cores batch_size kwargs (mkDState h []))
    as (r & s' & -> & _ & Hsub & Hok).
  simpl in *. rewrite Hsub. split; [apply expected_jobs_sent|].
  split; [apply sent_batches_prefix|]. split; [|split].
  - intros HN Hmc. pose proof (all_batches_collections _ batch_size _ Hmc) as Hall.
    split; [by apply Hok|by apply sent_batches_all].
  - apply serial_executes. eapply Forall_impl; [apply expected_jobs_size|].
    simpl. intros j [-> ?]. done.
  - intros tr Htr. split; [by eapply executes_sorted|].
    apply closed_phase in Htr as (segs & -> & Hlen & Hsegs). by exists segs.
Qed.

(** ** The properties on the demo table *)

Lemma demo_pairs_collections (lr : Z * tile_pair) :
  lr ∈ demo_pairs -> is_Some (demo_collections !! tp_stack lr.2).
Proof.
  unfold demo_pairs. intros Hlr.
  apply list_elem_of_fmap in Hlr as (i & -> & _). simpl.
  unfold demo_collections. rewrite lookup_singleton_eq. by eexists.
Qed.

Lemma template_not_mutated_witness :
  heap (generate_point_matches (fun d => d) demo_pairs demo_collections 0%nat
          tt 4 4 tt demo_dstate).2 !! 0%nat = Some demo_template.
Proof.
  destruct (template_not_mutated (fun d => d) demo_pairs demo_collections 0%nat
              tt 4 4 tt demo_dstate demo_template) as [Hsame _].
  - reflexivity.
  - exact Hsame.
Defined.

Lemma pools_run_one_after_another_witness :
  let jobs := submitted (generate_point_matches (fun d => d) demo_pairs
                           demo_collections 0%nat tt 4 4 tt demo_dstate).2 in
  Forall2 (fun (job : pool_job unit unit) (b : string * pairs_table) =>
             job_size job = 4
             /\ pm_tile_pairs <$> job_calls job
                = (fun lr : Z * tile_pair => [(p_id lr.2, q_id lr.2)]) <$> b.2)
          jobs (all_batches demo_pairs 4)
  /\ length jobs = 3%nat.
Proof.
  destruct (pools_run_one_after_another (fun d => d) demo_pairs demo_collections
              0%nat tt 4 4 tt {[ 0%nat := demo_template ]})
    as (Hall & _ & Hok & _).
  destruct Hok as [_ Hsent]; [lia|exact demo_pairs_collections|].
  rewrite Hsent in Hall. split; [exact Hall|].
  apply Forall2_length in Hall.
  etransitivity; [exact Hall|]. vm_compute. reflexivity.
Defined.

(** C2.  The canvas position is looked up by index label (line 203), the
    pair of tile ids by position (line 195): for two rows of one batch that
    share their label, the options of the call of the first row hold under
    [firstCanvasPosition] the positions of both rows, not the
    [p.relativePosition] of that row. *)
Theorem shared_label_stores_both_positions :
  let run := generate_point_matches (fun d => d) twin_pairs demo_collections 0%nat
               tt 4 12 tt demo_dstate in
  exists job c,
    submitted run.2 !! 0%nat = Some job
    /\ job_calls job !! 0%nat = Some c
    /\ pm_tile_pairs c = [("a-0x0", "a-1x0")]
    /\ pm_sift_options c !! "firstCanvasPosition"
       = Some (PSeries [PStr "LEFT"; PStr "TOP"])
    /\ pm_sift_options c !! "firstCanvasPosition" ≠ Some (PStr "LEFT").
Proof.
  eexists _, _. split; [vm_compute; reflexivity|].
  split; [vm_compute; reflexivity|].
  split; [vm_compute; reflexivity|].
  split; [vm_compute; reflexivity|].
  intros H. vm_compute in H. discriminate H.
Qed.

Lemma one_invocation_per_row_witness :
  exists s' : dstate unit unit,
    generate_point_matches (fun d => d) demo_pairs demo_collections 0%nat
      tt 4 4 tt demo_dstate = (Ok tt, s')
    /\ executes (submitted s') (serial_trace (submitted s'))
    /\ forall tr, executes (submitted s') tr ->
         call_target <$> invoked tr ≡ₚ row_target demo_collections <$> demo_pairs.
Proof.
  apply (one_invocation_per_row (fun d => d) demo_pairs demo_collections 0%nat
           tt 4 4 tt {[ 0%nat := demo_template ]}).
  - lia.
  - exact demo_pairs_collections.
Defined.

Lemma batches_are_consecutive_witness :
  length <$> batches_of 4 demo_pairs = [4; 4; 2]%nat.
Proof.
  destruct (batches_are_consecutive demo_pairs 4 ("lil_EM", 1, demo_pairs))
    as (_ & _ & _ & Hsizes).
  - lia.
  - apply list_elem_of_lookup. exists 0%nat. vm_compute. reflexivity.
  - apply Hsizes; reflexivity.
Defined.

(** A batch size of zero puts all the rows in one batch. *)
Example batches_of_zero : length <$> batches_of 0 demo_pairs = [10%nat].
Proof. vm_compute. reflexivity. Qed.

(** A missing collection: the dispatcher raises at the first batch. *)
Example dispatch_missing_collection :
  (generate_point_matches (fun d => d) demo_pairs ∅ 0%nat tt 4 4 tt demo_dstate).1
  = Raise (KeyError "lil_EM").
Proof. vm_compute. reflexivity. Qed.

(** ** Examples of the extraction *)

Example findall_R3C5 : findall_digits "R3C5" = ["3"; "5"].
Proof. reflexivity. Qed.

Example findall_long : findall_digits "S012-tile-00004x00017.ome" = ["012"; "00004"; "00017"].
Proof. reflexivity. Qed.

Example tile_numbers_long :
  tile_numbers (PStr "S012-tile-00004x00017.ome") = Ok [4; 17].
Proof. reflexivity. Qed.

(** * Further properties *)

(** ** The digit runs of a tile id *)

Lemma append_nil_l (b : string) : EmptyString +:+ b = b.
Proof. reflexivity. Qed.

Lemma append_cons (x : ascii) (a b : string) : String x a +:+ b = String x (a +:+ b).
Proof. reflexivity. Qed.

Lemma flush_run_acc (cur : string) (acc : list string) :
  flush_run cur acc = acc ++ flush_run cur [].
Proof. destruct cur; simpl; [by rewrite app_nil_r|done]. Qed.

Lemma scan_digits_acc (x : string) :
  forall (cur : string) (acc : list string),
  scan_digits x cur acc = acc ++ scan_digits x cur [].
Proof.
  induction x as [|c x IH]; intros cur acc; simpl.
  - apply flush_run_acc.
  - destruct (is_digit c).
    + apply IH.
    + rewrite IH, (IH _ (flush_run cur [])), (flush_run_acc cur acc).
      by rewrite app_assoc.
Qed.

(** A character that is no digit ends the run being read: the runs of the
    text before it and the runs of the text after it follow each other. *)
Lemma scan_digits_break (a b : string) (c : ascii) :
  is_digit c = false ->
  forall (cur : string) (acc : list string),
  scan_digits (a +:+ String c b) cur acc
  = scan_digits b EmptyString (scan_digits a cur acc).
Proof.
  intros Hc. induction a as [|c' a IH]; intros cur acc.
  - rewrite append_nil_l. simpl. by rewrite Hc.
  - rewrite append_cons. simpl. destruct (is_digit c'); apply IH.
Qed.

Lemma findall_digits_break (a b : string) (c : ascii) :
  is_digit c = false ->
  findall_digits (a +:+ String c b) = findall_digits a ++ findall_digits b.
Proof.
  intros Hc. unfold findall_digits.
  rewrite scan_digits_break by done. apply scan_digits_acc.
Qed.

Lemma append_assoc (a b c : string) : (a +:+ b) +:+ c = a +:+ (b +:+ c).
Proof.
  induction a as [|x a IH]; [done|]. rewrite !append_cons. by rewrite IH.
Qed.

Lemma append_empty_r (a : string) : a +:+ EmptyString = a.
Proof. induction a as [|x a IH]; [done|]. rewrite append_cons. by rewrite IH. Qed.

Lemma scan_digits_run (d : string) :
  digits_only d = true ->
  forall (cur : string) (acc : list string),
  scan_digits d cur acc = flush_run (cur +:+ d) acc.
Proof.
  induction d as [|c d IH]; intros Hd cur acc; simpl in *.
  - by rewrite append_empty_r.
  - apply andb_true_iff in Hd as [-> Hd]. rewrite IH by done.
    by rewrite append_assoc, append_cons, append_nil_l.
Qed.

Lemma findall_digits_run (d : string) :
  digits_only d = true -> d ≠ EmptyString -> findall_digits d = [d].
Proof.
  intros Hd Hne. unfold findall_digits. rewrite scan_digits_run by done.
  simpl. by destruct d.
Qed.

Lemma findall_digits_none (s : string) :
  no_digit s = true -> findall_digits s = [].
Proof.
  unfold findall_digits. induction s as [|c s IH]; intros Hs; simpl in *; [done|].
  apply andb_true_iff in Hs as [Hc Hs]. apply negb_true_iff in Hc. rewrite Hc.
  by apply IH.
Qed.

Lemma findall_digits_run_tail (d suf : string) :
  digits_only d = true -> d ≠ EmptyString -> no_digit suf = true ->
  findall_digits (d +:+ suf) = [d].
Proof.
  intros Hd Hne Hsuf. destruct suf as [|c suf].
  - rewrite append_empty_r. by apply findall_digits_run.
  - simpl in Hsuf. apply andb_true_iff in Hsuf as [Hc Hsuf].
    apply negb_true_iff in Hc.
    rewrite findall_digits_break by done.
    rewrite (findall_digits_run d), (findall_digits_none suf) by done. done.
Qed.

Lemma last_two_app {A} (l : list A) (x y : A) : last_two (l ++ [x; y]) = [x; y].
Proof.
  unfold last_two. rewrite length_app. simpl.
  replace (length l + 2 - 2)%nat with (length l) by lia.
  by rewrite drop_app_length.
Qed.

(** X1.  A tile id that ends in a column number and a row number, each
    after a character that is no digit, and possibly some text without
    digits behind them, gives the two numbers, whatever digits the id holds
    before. *)
Theorem tile_numbers_of_tail (a col row suf : string) (c1 c2 : ascii) :
  is_digit c1 = false -> is_digit c2 = false ->
  digits_only col = true -> col ≠ EmptyString ->
  digits_only row = true -> row ≠ EmptyString ->
  no_digit suf = true ->
  tile_numbers (PStr (a +:+ String c1 (col +:+ String c2 (row +:+ suf))))
  = Ok [int_of_digits col; int_of_digits row].
Proof.
  intros Hc1 Hc2 Hcol Hcne Hrow Hrne Hsuf. unfold tile_numbers.
  rewrite findall_digits_break by done.
  rewrite findall_digits_break by done.
  rewrite (findall_digits_run col) by done.
  rewrite (findall_digits_run_tail row suf) by done.
  change ([col] ++ [row]) with [col; row]. rewrite last_two_app. reflexivity.
Qed.

Lemma tile_numbers_of_tail_witness :
  tile_numbers (PStr "S012_lil-EM-00004x00017.ome")
  = Ok [4; 17].
Proof.
  exact (tile_numbers_of_tail "S012_lil-EM" "00004" "00017" ".ome" "-" "x"
           eq_refl eq_refl eq_refl ltac:(discriminate) eq_refl ltac:(discriminate)
           eq_refl).
Defined.

(** The runs found are runs of digits, none empty. *)
Lemma flush_run_digits (cur : string) (acc : list string) :
  digits_only cur = true ->
  Forall (fun r => digits_only r = true /\ r ≠ EmptyString) acc ->
  Forall (fun r => digits_only r = true /\ r ≠ EmptyString) (flush_run cur acc).
Proof.
  intros Hcur Hacc. destruct cur as [|c cur]; [done|].
  simpl. apply Forall_app. split; [done|]. by repeat constructor.
Qed.

Lemma digits_only_app (a b : string) :
  digits_only a = true -> digits_only b = true -> digits_only (a +:+ b) = true.
Proof.
  induction a as [|c a IH]; [done|]. rewrite append_cons. simpl. intros Ha Hb.
  apply andb_true_iff in Ha as [-> Ha]. by apply IH.
Qed.

Lemma scan_digits_runs (x : string) :
  forall (cur : string) (acc : list string),
  digits_only cur = true ->
  Forall (fun r => digits_only r = true /\ r ≠ EmptyString) acc ->
  Forall (fun r => digits_only r = true /\ r ≠ EmptyString) (scan_digits x cur acc).
Proof.
  induction x as [|c x IH]; intros cur acc Hcur Hacc; simpl.
  - by apply flush_run_digits.
  - destruct (is_digit c) eqn:Hc.
    + apply IH; [|done]. apply digits_only_app; [done|]. simpl. by rewrite Hc.
    + apply IH; [done|]. by apply flush_run_digits.
Qed.

Lemma findall_digits_runs (x : string) :
  Forall (fun r => digits_only r = true /\ r ≠ EmptyString) (findall_digits x).
Proof. by apply scan_digits_runs. Qed.

Lemma is_digit_value (c : ascii) : is_digit c = true -> 0 <= digit_value c <= 9.
Proof.
  unfold is_digit, digit_value. intros Hc.
  apply andb_true_iff in Hc as [H1 H2].
  apply Nat.leb_le in H1, H2. lia.
Qed.

Lemma int_of_digits_from_nonneg (s : string) :
  forall acc : Z, 0 <= acc -> digits_only s = true -> 0 <= int_of_digits_from acc s.
Proof.
  induction s as [|c s IH]; intros acc Hacc Hs; simpl in *; [done|].
  apply andb_true_iff in Hs as [Hc Hs]. apply is_digit_value in Hc.
  apply IH; [lia|done].
Qed.

Lemma tile_numbers_nonneg (v : pyval) (nums : list Z) :
  tile_numbers v = Ok nums -> Forall (fun n => 0 <= n) nums.
Proof.
  destruct v; simpl; try done. intros [= <-].
  apply Forall_fmap. unfold last_two.
  apply Forall_drop. eapply Forall_impl; [apply findall_digits_runs|].
  simpl. intros r [Hr _]. by apply int_of_digits_from_nonneg.
Qed.

(** ** Rows from JSON records *)

Lemma foldl_insert_other (l : list (string * pyval)) :
  forall (m : row) (k : string),
  k ∉ l.*1 ->
  foldl (fun (m : row) kv => <[kv.1 := kv.2]> m) m l !! k = m !! k.
Proof.
  induction l as [|[k0 v0] l IH]; intros m k Hk; [done|].
  simpl. rewrite fmap_cons in Hk. apply not_elem_of_cons in Hk as [Hne Hk].
  rewrite IH by done. simpl. by rewrite lookup_insert_ne.
Qed.

Lemma foldl_insert_elem (l : list (string * pyval)) :
  forall (m : row) (k : string) (v : pyval),
  NoDup l.*1 -> (k, v) ∈ l ->
  foldl (fun (m : row) kv => <[kv.1 := kv.2]> m) m l !! k = Some v.
Proof.
  induction l as [|[k0 v0] l IH]; intros m k v Hnd Hin.
  - by apply elem_of_nil in Hin.
  - rewrite fmap_cons in Hnd. apply NoDup_cons in Hnd as [Hk0 Hnd]. simpl.
    apply elem_of_cons in Hin as [[= -> ->]|Hin].
    + rewrite foldl_insert_other by done. simpl. apply lookup_insert_eq.
    + by apply IH.
Qed.

(** A field of a nested object is flattened under its dotted name. *)
Lemma flatten_value_nested (k k' : string) (inner : list (string * pyval)) (v : pyval) :
  (k', v) ∈ inner ->
  (forall kvs, v ≠ PDict kvs) ->
  (k +:+ "." +:+ k', v) ∈ flatten_value k (PDict inner).
Proof.
  intros Hin Hv. simpl.
  induction inner as [|[k0 v0] inner IH]; [by apply elem_of_nil in Hin|].
  apply elem_of_cons in Hin as [[= <- <-]|Hin].
  - apply elem_of_app. left. destruct v; try (by left). by destruct (Hv kvs).
  - apply elem_of_app. right. by apply IH.
Qed.

Lemma nested_to_record_nested (d : json_object) (k k' : string)
    (inner : list (string * pyval)) (v : pyval) :
  (k, PDict inner) ∈ d -> (k', v) ∈ inner -> (forall kvs, v ≠ PDict kvs) ->
  (k +:+ "." +:+ k', v) ∈ nested_to_record d.
Proof.
  intros Hd Hin Hv. unfold nested_to_record.
  induction d as [|[k0 v0] d IH]; [by apply elem_of_nil in Hd|].
  rewrite fmap_cons. cbn [concat]. apply elem_of_app.
  apply elem_of_cons in Hd as [[= <- <-]|Hd].
  - left. by apply flatten_value_nested.
  - right. by apply IH.
Qed.

Lemma nested_to_record_flat (d : json_object) (k : string) (v : pyval) :
  (k, v) ∈ d -> (forall kvs, v ≠ PDict kvs) -> (k, v) ∈ nested_to_record d.
Proof.
  intros Hd Hv. unfold nested_to_record.
  induction d as [|[k0 v0] d IH]; [by apply elem_of_nil in Hd|].
  rewrite fmap_cons. cbn [concat]. apply elem_of_app.
  apply elem_of_cons in Hd as [[= <- <-]|Hd].
  - left. simpl. destruct v; try (by left). by destruct (Hv kvs).
  - right. by apply IH.
Qed.

Lemma record_row_elem (d : json_object) (k : string) (v : pyval) :
  NoDup (nested_to_record d).*1 -> (k, v) ∈ nested_to_record d ->
  record_row d !! k = Some v.
Proof. intros Hnd Hin. unfold record_row. by apply foldl_insert_elem. Qed.

(** ** More on the fetchers *)

Lemma matches_frame_rows (z : pyval) (ms : list json_object) :
  rows (matches_frame z ms)
  = imap (fun i d => (Z.of_nat i,
                      rename_key "matchCount" "N" (<["z" := z]> (record_row d)))) ms.
Proof.
  unfold matches_frame, rename_column, set_scalar, json_normalize. simpl.
  rewrite <- list_fmap_compose, fmap_imap. by apply imap_ext.
Qed.

Lemma section_rows_frame (stack : string) (sec : section_reply) :
  (fun lr : Z * row => (lr.1, <["stack" := PStr stack]> lr.2))
    <$> rows (matches_frame (sr_z sec) (sr_matches sec))
  = section_rows stack sec.
Proof.
  rewrite matches_frame_rows, fmap_imap. unfold section_rows. by apply imap_ext.
Qed.

Lemma fmap_concat_fmap {A B C} (f : B -> C) (g : A -> list B) (l : list A) :
  f <$> concat (g <$> l) = concat ((fun x => f <$> g x) <$> l).
Proof.
  induction l as [|x l IH]; [done|].
  rewrite !fmap_cons. cbn [concat]. by rewrite fmap_app, IH.
Qed.

Section StackRows.
Context {W K : Type} (render : RenderClient W K).

(** The rows of the table returned, from what the service answered. *)
Lemma stack_rows_run (stack mc : string) (s : session W K) :
  exists (secs : list section_reply) (s' : session W K),
    (get_matches_within_stack stack mc render s).2 = s'
    /\ sr_id <$> secs = (ws_match_groupIds render mc (service s)).1
    /\ calls s' = calls s ++ stack_calls stack mc secs
    /\ (forall df, (get_matches_within_stack stack mc render s).1 = Ok df ->
          concat (section_rows stack <$> secs) ≠ [] /\
          Forall2 (fun lr' lr : Z * row =>
                     exists pa pb qa qb,
                       tile_numbers (cell lr.2 "pId") = Ok [pa; pb]
                       /\ tile_numbers (cell lr.2 "qId") = Ok [qa; qb]
                       /\ lr' = (lr.1, <["qr" := PInt qb]> (<["qc" := PInt qa]>
                                         (<["pr" := PInt pb]> (<["pc" := PInt pa]> lr.2)))))
                  (rows df) (concat (section_rows stack <$> secs)))
    /\ (concat (section_rows stack <$> secs) ≠ [] ->
        Forall (fun lr : Z * row =>
                  is_Some (id_numbers (cell lr.2 "pId"))
                  /\ is_Some (id_numbers (cell lr.2 "qId")))
               (concat (section_rows stack <$> secs)) ->
        is_Ok (get_matches_within_stack stack mc render s).1 = true)
    /\ ((exists lr, lr ∈ concat (section_rows stack <$> secs)
                    /\ forall tile_id, cell lr.2 "pId" ≠ PStr tile_id) ->
        (get_matches_within_stack stack mc render s).1
        = Raise (TypeError "expected string or bytes-like object")).
Proof.
  destruct (collect_matches_run render stack mc s)
    as (secs & raw & s' & Hraw & Hids & Hcalls & Hrows & Hp & Hq).
  rewrite (get_matches_within_stack_run render stack mc s raw s' Hraw).
  assert (Hraw_rows : rows raw = concat (section_rows stack <$> secs)).
  { rewrite Hrows, fmap_concat_fmap. f_equal. apply list_fmap_ext.
    intros _ sec _. apply section_rows_frame. }
  exists secs, s'. simpl. do 3 (split; [done|]). rewrite <- Hraw_rows.
  split; [|split].
  - intros df Hdf. apply derive_Ok_inv in Hdf as [Hne Hall].
    split; [done|]. by apply Forall2_flip.
  - intros Hne Hall. by destruct (derive_Ok raw Hp Hq Hne Hall) as [df ->].
  - intros (lr & Hlr & Hbad).
    unfold add_colrow, get_column. rewrite bool_decide_eq_true_2 by done. simpl.
    assert (Hrmap : rmap tile_numbers ((fun lr : Z * row => cell lr.2 "pId") <$> rows raw)
                    = Raise (TypeError "expected string or bytes-like object")).
    { clear -Hlr Hbad. induction (rows raw) as [|x l IH]; [by apply elem_of_nil in Hlr|].
      rewrite fmap_cons. cbn [rmap].
      apply elem_of_cons in Hlr as [->|Hlr].
      - destruct (cell x.2 "pId"); try done. by destruct (Hbad s).
      - destruct (cell x.2 "pId"); simpl; try done. by rewrite (IH Hlr). }
    by rewrite Hrmap.
Qed.
End StackRows.

Lemma Forall2_compose {A B C} (P : A -> B -> Prop) (Q : B -> C -> Prop)
    (l1 : list A) (l2 : list B) (l3 : list C) :
  Forall2 P l1 l2 -> Forall2 Q l2 l3 ->
  Forall2 (fun x z => exists y, P x y /\ Q y z) l1 l3.
Proof.
  intros H12. revert l3. induction H12 as [|x y l1 l2 Hxy _ IH]; intros l3 H23.
  - apply Forall2_nil_inv_l in H23 as ->. constructor.
  - apply Forall2_cons_inv_l in H23 as (z & l3' & Hyz & H23 & ->).
    constructor; [by exists y|by apply IH].
Qed.

Lemma imap_Forall2 {A B} (f : nat -> A -> B) (P : B -> A -> Prop) (l : list A) :
  (forall i x, P (f i x) x) -> Forall2 P (imap f l) l.
Proof.
  revert f. induction l as [|x l IH]; intros f HP; simpl; constructor; [done|].
  apply IH. intros i y. apply HP.
Qed.

Lemma Forall2_concat_fmap {A B C} (P : B -> C -> Prop) (f : A -> list B)
    (g : A -> list C) (l : list A) :
  (forall x, x ∈ l -> Forall2 P (f x) (g x)) ->
  Forall2 P (concat (f <$> l)) (concat (g <$> l)).
Proof.
  induction l as [|x l IH]; intros HP; [constructor|].
  rewrite !fmap_cons. cbn [concat]. apply Forall2_app.
  - apply HP. by left.
  - apply IH. intros y Hy. apply HP. by right.
Qed.

(** The rows before the row/column step, against the match records. *)
Lemma section_rows_records (stack : string) (secs : list section_reply) :
  Forall2 (fun (lr : Z * row) (d : json_object) =>
             exists z, lr.2 = <["stack" := PStr stack]>
                               (rename_key "matchCount" "N" (<["z" := z]> (record_row d))))
          (concat (section_rows stack <$> secs)) (concat (sr_matches <$> secs)).
Proof.
  apply Forall2_concat_fmap. intros sec _. unfold section_rows.
  apply imap_Forall2. intros i d. by exists (sr_z sec).
Qed.

Lemma section_rows_labels (stack : string) (sec : section_reply) :
  (section_rows stack sec).*1 = Z.of_nat <$> seq 0 (length (sr_matches sec)).
Proof.
  unfold section_rows. rewrite fmap_imap, <- imap_labels. by apply imap_ext.
Qed.

Lemma raw_cell_record (stack : string) (z : pyval) (d : json_object) (k : string) :
  k ∉ written_columns ->
  (<["stack" := PStr stack]>
     (rename_key "matchCount" "N" (<["z" := z]> (record_row d)))) !! k
  = record_row d !! k.
Proof.
  unfold written_columns. intros Hk.
  rewrite lookup_insert_ne by (intros <-; set_solver).
  rewrite rename_key_other by (intros ->; set_solver).
  apply lookup_insert_ne. intros <-. set_solver.
Qed.

Section FetcherExtras.
Context {W K : Type} (render : RenderClient W K).

(** X2.  The section fetcher asks for the z value of the section, then, in
    the service state that call leaves, for the matches of the section.  The
    frame it returns has one row per match record, labelled 0, 1, ...; a row
    carries the z value under [z], has no [matchCount], holds under [N] what
    the record holds under [matchCount] (when the record has no [N] of its
    own) and under every other name what the record holds. *)
Theorem section_fetcher_frame (stack sid mc : string) (s : session W K) :
  let zw := ws_section_z_value render stack sid (service s) in
  let mw := ws_matches_within_group render mc sid zw.2 in
  exists df,
    get_matches_within_section stack sid mc render s
    = (Ok df, mkSession mw.2
                (calls s ++ [Call_section_z_value stack sid zw.1;
                             Call_matches_within_group mc sid mw.1]))
    /\ df_index df = Z.of_nat <$> seq 0 (length mw.1)
    /\ Forall2 (fun (lr : Z * row) (d : json_object) =>
                  lr.2 !! "z" = Some zw.1
                  /\ lr.2 !! "matchCount" = None
                  /\ (record_row d !! "N" = None ->
                      lr.2 !! "N" = record_row d !! "matchCount")
                  /\ forall k, k ∉ ["z"; "N"; "matchCount"] ->
                               lr.2 !! k = record_row d !! k)
               (rows df) mw.1.
Proof.
  intros zw mw. subst zw mw.
  destruct (ws_section_z_value render stack sid (service s)) as [z w1] eqn:Hz.
  simpl.
  destruct (ws_matches_within_group render mc sid w1) as [ms w2] eqn:Hms.
  simpl. exists (matches_frame z ms). split; [|split].
  - unfold get_matches_within_section.
    erewrite bind_Ok; [|unfold get_section_z_value, remote; by rewrite Hz].
    erewrite bind_Ok; [|unfold get_matches_within_group, remote; simpl; by rewrite Hms].
    unfold ret. simpl. by rewrite <- app_assoc.
  - unfold df_index. rewrite matches_frame_rows, fmap_imap, <- imap_labels.
    by apply imap_ext.
  - rewrite matches_frame_rows. apply imap_Forall2. intros i d. simpl.
    unfold rename_key. rewrite lookup_insert_ne by done.
    destruct (record_row d !! "matchCount") as [v|] eqn:Hmc.
    + split; [by rewrite lookup_insert_ne, lookup_delete_ne, lookup_insert_eq|].
      split; [by rewrite lookup_insert_ne, lookup_delete_eq|].
      split; [intros _; apply lookup_insert_eq|].
      intros k Hk. rewrite lookup_insert_ne by (intros <-; set_solver).
      rewrite lookup_delete_ne by (intros <-; set_solver).
      apply lookup_insert_ne. intros <-. set_solver.
    + split; [apply lookup_insert_eq|]. split; [by rewrite lookup_insert_ne|].
      split; [intros HN; by rewrite lookup_insert_ne|].
      intros k Hk. apply lookup_insert_ne. intros <-. set_solver.
Qed.

(** X3.  The table of the stack keeps the index labels of the frames of its
    sections: they start again at 0 with every section (the index is not
    reset). *)
Theorem stack_matches_index_per_section (stack mc : string) (s : session W K) :
  exists (secs : list section_reply) (s' : session W K),
    (get_matches_within_stack stack mc render s).2 = s'
    /\ sr_id <$> secs = (ws_match_groupIds render mc (service s)).1
    /\ calls s' = calls s ++ stack_calls stack mc secs
    /\ forall df, (get_matches_within_stack stack mc render s).1 = Ok df ->
         df_index df
         = concat ((fun sec => Z.of_nat <$> seq 0 (length (sr_matches sec))) <$> secs).
Proof.
  destruct (stack_rows_run render stack mc s)
    as (secs & s' & Hs' & Hids & Hcalls & Hrows & _).
  exists secs, s'. do 3 (split; [done|]). intros df Hdf.
  destruct (Hrows df Hdf) as [_ Hall]. clear Hrows. rename Hall into Hrows.
  unfold df_index.
  transitivity ((concat (section_rows stack <$> secs)).*1).
  - induction Hrows as [|lr' lr l' l (pa & pb & qa & qb & _ & _ & ->) _ IH]; [done|].
    rewrite !fmap_cons. by f_equal.
  - rewrite fmap_concat_fmap. f_equal. apply list_fmap_ext.
    intros _ sec _. apply section_rows_labels.
Qed.

(** X4.  In the table of the stack every row carries the stack name, and
    under every name other than the columns the fetcher writes ([stack],
    [z], [N], [matchCount], [pc], [pr], [qc], [qr]) it holds what the match
    record holds. *)
Theorem stack_matches_keep_fields (stack mc : string) (s : session W K) :
  exists (secs : list section_reply) (s' : session W K),
    (get_matches_within_stack stack mc render s).2 = s'
    /\ sr_id <$> secs = (ws_match_groupIds render mc (service s)).1
    /\ calls s' = calls s ++ stack_calls stack mc secs
    /\ forall df, (get_matches_within_stack stack mc render s).1 = Ok df ->
         Forall2 (fun (lr : Z * row) (d : json_object) =>
                    lr.2 !! "stack" = Some (PStr stack)
                    /\ forall k, k ∉ written_columns -> lr.2 !! k = record_row d !! k)
                 (rows df) (concat (sr_matches <$> secs)).
Proof.
  destruct (stack_rows_run render stack mc s)
    as (secs & s' & Hs' & Hids & Hcalls & Hrows & _).
  exists secs, s'. do 3 (split; [done|]). intros df Hdf.
  pose proof (Forall2_compose _ _ _ _ _ (proj2 (Hrows df Hdf))
                (section_rows_records stack secs)) as Hall.
  eapply Forall2_impl; [exact Hall|]. simpl.
  intros lr' d (lr & (pa & pb & qa & qb & _ & _ & ->) & z & Hlr). simpl. rewrite Hlr.
  split.
  - by lookup_inserts.
  - intros k Hk.
    assert (k ≠ "qr" /\ k ≠ "qc" /\ k ≠ "pr" /\ k ≠ "pc") as (? & ? & ? & ?).
    { unfold written_columns in Hk.
      repeat split; intros ->; apply Hk; repeat first [by left | right]. }
    rewrite !(lookup_insert_ne _ _ k) by done. by apply raw_cell_record.
Qed.

(** X5.  The row and column numbers of the table of the stack are
    integers that are not negative. *)
Theorem stack_matches_colrow_nonneg (stack mc : string) (s s' : session W K)
    (df : DataFrame) :
  get_matches_within_stack stack mc render s = (Ok df, s') ->
  Forall (fun lr : Z * row =>
            exists pc pr qc qr,
              lr.2 !! "pc" = Some (PInt pc) /\ lr.2 !! "pr" = Some (PInt pr)
              /\ lr.2 !! "qc" = Some (PInt qc) /\ lr.2 !! "qr" = Some (PInt qr)
              /\ 0 <= pc /\ 0 <= pr /\ 0 <= qc /\ 0 <= qr)
         (rows df).
Proof.
  intros Hrun.
  destruct (stack_rows_run render stack mc s) as (secs & s1 & _ & _ & _ & Hrows & _).
  rewrite Hrun in Hrows. destruct (Hrows df eq_refl) as [_ Hall].
  apply Forall_forall. intros lr' Hlr'.
  apply list_elem_of_lookup in Hlr' as [i Hi].
  destruct (Forall2_lookup_l _ _ _ _ _ Hall Hi)
    as (lr & _ & pa & pb & qa & qb & Hp & Hq & ->).
  apply tile_numbers_nonneg in Hp, Hq.
  apply Forall_cons in Hp as [Hpa Hp]. apply Forall_cons in Hp as [Hpb _].
  apply Forall_cons in Hq as [Hqa Hq]. apply Forall_cons in Hq as [Hqb _].
  exists pa, pb, qa, qb. simpl. lookup_inserts. done.
Qed.

(** X6.  The stack match fetcher returns a table exactly when the sections
    hold a match at all and every tile id, [pId] and [qId], of every row is
    a string with two runs of digits at least; otherwise it raises. *)
Theorem stack_matches_returns_iff (stack mc : string) (s : session W K) :
  exists (secs : list section_reply) (s' : session W K),
    (get_matches_within_stack stack mc render s).2 = s'
    /\ sr_id <$> secs = (ws_match_groupIds render mc (service s)).1
    /\ calls s' = calls s ++ stack_calls stack mc secs
    /\ (is_Ok (get_matches_within_stack stack mc render s).1 = true
        <-> concat (section_rows stack <$> secs) ≠ []
            /\ Forall (fun lr : Z * row =>
                         is_Some (id_numbers (cell lr.2 "pId"))
                         /\ is_Some (id_numbers (cell lr.2 "qId")))
                      (concat (section_rows stack <$> secs))).
Proof.
  destruct (stack_rows_run render stack mc s)
    as (secs & s' & Hs' & Hids & Hcalls & Hrows & Hok & _).
  exists secs, s'. do 3 (split; [done|]). split.
  - destruct ((get_matches_within_stack stack mc render s).1) as [df|e]; [|done].
    intros _. destruct (Hrows df eq_refl) as [Hne Hall]. split; [done|].
    clear Hrows. rename Hall into Hrows.
    { apply Forall_forall. intros lr Hlr.
      apply list_elem_of_lookup in Hlr as [i Hi].
      destruct (Forall2_lookup_r _ _ _ _ _ Hrows Hi)
        as (lr' & _ & pa & pb & qa & qb & Hp & Hq & _).
      unfold id_numbers. rewrite Hp, Hq. by split. }
  - intros [Hne Hall]. by apply Hok.
Qed.

(** X7.  A match record without a [pId], or whose [pId] is no string, makes
    the stack match fetcher raise a [TypeError], whatever the other
    records hold. *)
Theorem stack_matches_missing_pid (stack mc : string) (s : session W K) :
  exists (secs : list section_reply) (s' : session W K),
    (get_matches_within_stack stack mc render s).2 = s'
    /\ sr_id <$> secs = (ws_match_groupIds render mc (service s)).1
    /\ calls s' = calls s ++ stack_calls stack mc secs
    /\ forall sec d, sec ∈ secs -> d ∈ sr_matches sec ->
         (forall tile_id, record_row d !! "pId" ≠ Some (PStr tile_id)) ->
         get_matches_within_stack stack mc render s
         = (Raise (TypeError "expected string or bytes-like object"), s').
Proof.
  destruct (stack_rows_run render stack mc s)
    as (secs & s' & Hs' & Hids & Hcalls & _ & _ & Hbad).
  exists secs, s'. do 3 (split; [done|]). intros sec d Hsec Hd Hpid.
  rewrite <- Hs'. rewrite (surjective_pairing (get_matches_within_stack _ _ _ _)).
  f_equal. apply Hbad.
  apply list_elem_of_lookup in Hd as [i Hi].
  exists (Z.of_nat i, <["stack" := PStr stack]>
            (rename_key "matchCount" "N" (<["z" := sr_z sec]> (record_row d)))).
  split.
  - apply elem_of_concat. exists (section_rows stack sec). split.
    + unfold section_rows. apply list_elem_of_lookup. exists i.
      by rewrite list_lookup_imap, Hi.
    + apply list_elem_of_fmap. by exists sec.
  - intros tile_id. unfold cell. simpl.
    rewrite raw_cell_record
      by (unfold written_columns;
          repeat (apply not_elem_of_cons; split; [by intros [=]|]);
          apply not_elem_of_nil).
    destruct (record_row d !! "pId") as [v|] eqn:Hv; simpl; [|done].
    intros ->. by destruct (Hpid tile_id).
Qed.

End FetcherExtras.

Lemma stack_matches_colrow_nonneg_witness :
  match (get_matches_within_stack "lil_EM" "pts" demo_render demo_session).1 with
  | Ok df =>
      Forall (fun lr : Z * row =>
                exists pc pr qc qr,
                  lr.2 !! "pc" = Some (PInt pc) /\ lr.2 !! "pr" = Some (PInt pr)
                  /\ lr.2 !! "qc" = Some (PInt qc) /\ lr.2 !! "qr" = Some (PInt qr)
                  /\ 0 <= pc /\ 0 <= pr /\ 0 <= qc /\ 0 <= qr)
             (rows df)
  | Raise _ => False
  end.
Proof.
  destruct (get_matches_within_stack "lil_EM" "pts" demo_render demo_session)
    as [[df|e] s'] eqn:Hrun; simpl.
  - exact (stack_matches_colrow_nonneg demo_render "lil_EM" "pts" demo_session s' df Hrun).
  - vm_compute in Hrun. discriminate Hrun.
Defined.

(** ** More on the collector *)

Lemma dotted_name_not_z (k k' : string) : k +:+ "." +:+ k' ≠ "z".
Proof.
  destruct k as [|c k]; [by rewrite append_nil_l|].
  rewrite append_cons. intros [= -> H].
  destruct k as [|c k]; [by rewrite append_nil_l in H|by rewrite append_cons in H].
Qed.

Lemma dotted_name_not_stack (k k' : string) : k +:+ "." +:+ k' ≠ "stack".
Proof.
  intros H.
  do 5 (destruct k as [|? k];
        [by rewrite append_nil_l in H | rewrite append_cons in H; injection H as -> H]).
  destruct k as [|c k]; [by rewrite append_nil_l in H|by rewrite append_cons in H].
Qed.

Lemma pairs_frame_rows (z : pyval) (j : tile_pairs_json) :
  (rows (pairs_frame z j)).*2
  = (fun d => <["z" := z]> (record_row d)) <$> neighborPairs j.
Proof.
  unfold pairs_frame, set_scalar, json_normalize. simpl.
  rewrite <- list_fmap_compose, fmap_imap.
  rewrite (imap_ext _ (const (fun d => <["z" := z]> (record_row d)))) by done.
  apply imap_const.
Qed.

Lemma zip_with_snd_fmap {A B C} (f : B -> C) (l1 : list A) (l2 : list B) :
  length l2 = length l1 -> zip_with (fun _ y => f y) l1 l2 = f <$> l2.
Proof.
  revert l2. induction l1 as [|x l1 IH]; intros [|y l2] Hlen; try done.
  simpl. f_equal. apply IH. simpl in Hlen. lia.
Qed.

Lemma imap_imap {A B C} (f : nat -> B -> C) (g : nat -> A -> B) (l : list A) :
  imap f (imap g l) = imap (fun i x => f i (g i x)) l.
Proof.
  revert f g. induction l as [|x l IH]; intros f g; [done|].
  simpl. f_equal. apply IH.
Qed.

Section CollectorExtras.
Context {W K : Type} (render : RenderClient W K).

Lemma collector_run (stack : string) (kw : K) (s : session W K) :
  let zs := (ws_z_values_for_stack render stack (service s)).1 in
  exists (resps : list tile_pairs_json) (df : DataFrame) (s' : session W K),
    get_tile_pairs_4_montage stack render kw s = (Ok df, s')
    /\ length resps = length zs
    /\ calls s' = calls s ++ Call_z_values_for_stack stack zs
         :: zip_with (fun z r => Call_tile_pairs stack z z kw r) zs resps
    /\ rows df
       = imap (fun i (lr : Z * row) => (Z.of_nat i, <["stack" := PStr stack]> lr.2))
           (concat (zip_with (fun z r => rows (pairs_frame z r)) zs resps)).
Proof.
  intros zs. subst zs. unfold get_tile_pairs_4_montage.
  destruct (ws_z_values_for_stack render stack (service s)) as [zs w] eqn:Hzs.
  simpl fst.
  destruct (tile_pairs_loop render stack kw zs (DataFrame_new ["stack"; "z"])
              (mkSession w (calls s ++ [Call_z_values_for_stack stack zs])))
    as (resps & df & s' & Hrun & Hlen & Hcalls & Hrows).
  eexists resps, _, s'. split.
  { erewrite bind_Ok; [|unfold get_z_values_for_stack, remote; by rewrite Hzs].
    erewrite bind_Ok; [reflexivity|exact Hrun]. }
  simpl in Hcalls. unfold DataFrame_new in Hrows. cbn [rows app] in Hrows.
  split; [done|]. split; [by rewrite Hcalls, <- app_assoc|].
  unfold reset_index, set_scalar. simpl. rewrite Hrows, imap_fmap. done.
Qed.

(** X8.  The row the collector makes of a neighbour pair holds the z value
    of the call under [z], the stack name under [stack], and the flattened
    fields of the pair under every other name; the index labels of the table
    are all different. *)
Theorem collector_rows_content (stack : string) (kw : K) (s : session W K) :
  let zs := (ws_z_values_for_stack render stack (service s)).1 in
  exists (resps : list tile_pairs_json) (df : DataFrame) (s' : session W K),
    get_tile_pairs_4_montage stack render kw s = (Ok df, s')
    /\ length resps = length zs
    /\ calls s' = calls s ++ Call_z_values_for_stack stack zs
         :: zip_with (fun z r => Call_tile_pairs stack z z kw r) zs resps
    /\ (rows df).*2
       = concat (zip_with
           (fun z r => (fun d => <["stack" := PStr stack]> (<["z" := z]> (record_row d)))
                         <$> neighborPairs r) zs resps)
    /\ NoDup (df_index df).
Proof.
  intros zs.
  destruct (collector_run stack kw s) as (resps & df & s' & Hrun & Hlen & Hcalls & Hrows).
  fold zs in Hlen, Hcalls, Hrows.
  exists resps, df, s'. do 3 (split; [done|]). split.
  - rewrite Hrows, fmap_imap.
    rewrite (imap_ext _ (const (fun lr : Z * row => <["stack" := PStr stack]> lr.2)))
      by done.
    rewrite imap_const.
    generalize zs resps. clear. intros zs.
    induction zs as [|z zs IH]; intros [|r resps]; try done.
    simpl. rewrite fmap_app, IH. f_equal.
    transitivity ((fun m : row => <["stack" := PStr stack]> m)
                    <$> (rows (pairs_frame z r)).*2);
      [exact (list_fmap_compose snd (fun m : row => <["stack" := PStr stack]> m) _)|].
    rewrite pairs_frame_rows. symmetry.
    exact (list_fmap_compose (fun d => <["z" := z]> (record_row d))
             (fun m : row => <["stack" := PStr stack]> m) _).
  - unfold df_index. rewrite Hrows, fmap_imap.
    erewrite imap_ext; [|intros i x _; simpl; reflexivity].
    rewrite (imap_labels _ 0). apply NoDup_fmap_2; [apply _|apply NoDup_seq].
Qed.

(** X9.  A field of a nested object of a neighbour pair is found in the
    table under the dotted name: the field [id] of the object [p] is the
    cell [p.id] of the row (when the flattened names of the pair are all
    different and the field holds no object itself). *)
Theorem collector_dotted_fields (stack : string) (kw : K) (s : session W K) :
  let zs := (ws_z_values_for_stack render stack (service s)).1 in
  exists (resps : list tile_pairs_json) (df : DataFrame) (s' : session W K),
    get_tile_pairs_4_montage stack render kw s = (Ok df, s')
    /\ length resps = length zs
    /\ calls s' = calls s ++ Call_z_values_for_stack stack zs
         :: zip_with (fun z r => Call_tile_pairs stack z z kw r) zs resps
    /\ Forall2 (fun (lr : Z * row) (d : json_object) =>
                  forall (k k' : string) (inner : list (string * pyval)) (v : pyval),
                    NoDup (nested_to_record d).*1 ->
                    (k, PDict inner) ∈ d -> (k', v) ∈ inner ->
                    (forall kvs, v ≠ PDict kvs) ->
                    lr.2 !! (k +:+ "." +:+ k') = Some v)
               (rows df) (concat (neighborPairs <$> resps)).
Proof.
  intros zs.
  destruct (collector_run stack kw s) as (resps & df & s' & Hrun & Hlen & Hcalls & Hrows).
  fold zs in Hlen, Hcalls, Hrows.
  exists resps, df, s'. do 3 (split; [done|]).
  rewrite Hrows.
  rewrite <- (zip_with_snd_fmap neighborPairs zs resps) by done.
  assert (Hgen : forall (f : nat -> Z) (zs : list pyval) (resps : list tile_pairs_json),
    Forall2 (fun (lr : Z * row) (d : json_object) =>
               forall (k k' : string) (inner : list (string * pyval)) (v : pyval),
                 NoDup (nested_to_record d).*1 ->
                 (k, PDict inner) ∈ d -> (k', v) ∈ inner ->
                 (forall kvs, v ≠ PDict kvs) ->
                 lr.2 !! (k +:+ "." +:+ k') = Some v)
      (imap (fun i (lr : Z * row) => (f i, <["stack" := PStr stack]> lr.2))
         (concat (zip_with (fun z r => rows (pairs_frame z r)) zs resps)))
      (concat (zip_with (fun _ r => neighborPairs r) zs resps))).
  { clear. intros f zs. revert f.
    induction zs as [|z zs IH]; intros f [|r resps]; try constructor.
    simpl. rewrite imap_app. apply Forall2_app; [|apply IH].
    unfold pairs_frame, set_scalar, json_normalize. simpl.
    rewrite imap_fmap.
    generalize (neighborPairs r). intros data.
    rewrite imap_imap. apply imap_Forall2. intros i d k k' inner v Hnd Hd Hin Hv.
    simpl. rewrite lookup_insert_ne by (intros Heq; by apply (dotted_name_not_stack k k')).
    rewrite lookup_insert_ne by (intros Heq; by apply (dotted_name_not_z k k')).
    apply record_row_elem; [done|]. by apply (nested_to_record_nested d k k' inner v). }
  apply Hgen.
Qed.

End CollectorExtras.

Lemma stack_matches_missing_pid_witness :
  (get_matches_within_stack "lil_EM" "pts" no_pid_render demo_session).1
  = Raise (TypeError "expected string or bytes-like object").
Proof.
  destruct (stack_matches_missing_pid no_pid_render "lil_EM" "pts" demo_session)
    as (secs & s' & Hs' & Hids & Hcalls & Hraise).
  rewrite <- Hs' in Hcalls. vm_compute in Hids, Hcalls.
  destruct secs as [|sec [|sec' secs]]; try discriminate Hids.
  destruct sec as [sid z ms].
  pose proof (Hraise (mkReply sid z ms)
                [("pGroupId", PStr "S001"); ("qGroupId", PStr "S001");
                 ("qId", PStr "R4C5")]) as Hrun.
  vm_compute in Hcalls. simplify_eq.
  rewrite Hrun.
  - reflexivity.
  - by left.
  - simpl. right. by left.
  - intros tile_id Hpid. vm_compute in Hpid. discriminate Hpid.
Defined.

(** ** More on groups and batches *)

Lemma groupby_nonempty {Kt A : Type} `{EqDecision Kt} (le : relation Kt)
    `{!RelDecision le} (key : A -> Kt) (l : list A) (g : Kt * list A) :
  g ∈ groupby le key l -> g.2 ≠ [].
Proof.
  unfold groupby. intros Hg.
  apply list_elem_of_fmap in Hg as (k & -> & Hk). simpl.
  apply group_keys_elem in Hk as (x & Hx & Hkey).
  intros Hnil.
  assert (Hin : x ∈ filter (fun y => key y = k) l) by (by apply list_elem_of_filter).
  rewrite Hnil in Hin. by apply elem_of_nil in Hin.
Qed.

Lemma batches_of_nonempty (batch_size : Z) (tile_pairs batch : pairs_table) :
  batch ∈ batches_of batch_size tile_pairs -> batch ≠ [].
Proof.
  unfold batches_of, groupby_array. intros Hb.
  apply list_elem_of_fmap in Hb as (g & -> & Hg).
  apply list_elem_of_fmap in Hg as (g' & -> & Hg'). simpl.
  apply groupby_nonempty in Hg'. by destruct g'.2.
Qed.

Lemma all_batches_nonempty (df_pairs : pairs_table) (batch_size : Z) :
  Forall (fun b : string * pairs_table => b.2 ≠ []) (all_batches df_pairs batch_size).
Proof.
  apply Forall_forall. intros b Hb. unfold all_batches in Hb.
  apply elem_of_concat in Hb as (bs & Hb & Hbs).
  apply list_elem_of_fmap in Hbs as (g & -> & Hg).
  apply list_elem_of_fmap in Hb as (batch & -> & Hbatch). simpl.
  by eapply batches_of_nonempty.
Qed.

Lemma remove_dups_replicate {A} `{EqDecision A} (x : A) (n : nat) :
  remove_dups (replicate (S n) x) = [x].
Proof.
  induction n as [|n IH]; [done|].
  change (replicate (S (S n)) x) with (x :: replicate (S n) x).
  cbn [remove_dups].
  destruct (decide_rel elem_of x (replicate (S n) x)) as [_|Hn]; [exact IH|].
  exfalso. apply Hn. by left.
Qed.

Lemma batch_grouping_zero (n : nat) : batch_grouping n 0 = replicate n 0.
Proof.
  unfold batch_grouping. generalize 0%nat.
  induction n as [|n IH]; intros o; [done|].
  simpl. by rewrite Z.div_0_r, IH.
Qed.

(** With a batch size of zero the whole group is one batch. *)
Lemma batches_of_zero_all (tile_pairs : pairs_table) :
  tile_pairs ≠ [] -> batches_of 0 tile_pairs = [tile_pairs].
Proof.
  intros Hne. unfold batches_of. rewrite groupby_array_snd, groupby_snd.
  rewrite batch_grouping_zero.
  rewrite fst_zip by (by rewrite length_replicate).
  destruct tile_pairs as [|lr l]; [done|]. cbn [length].
  rewrite remove_dups_replicate.
  change (merge_sort Z.le [0]) with [0]. simpl fmap at 2. cbn [fmap list_fmap].
  f_equal. rewrite filter_Forall_all.
  - apply snd_zip. by rewrite length_replicate.
  - apply Forall_forall. intros [k x] Hk. simpl.
    apply elem_of_zip_l in Hk. by apply elem_of_replicate in Hk as [-> _].
Qed.

(** X10.  A batch size of zero does not fail: every [(stack, z)] group is
    sent as one batch. *)
Theorem zero_batch_size_one_batch_per_group (df_pairs : pairs_table) :
  all_batches df_pairs 0
  = (fun g : string * Z * pairs_table => (g.1.1, g.2)) <$> sections_of df_pairs.
Proof.
  unfold all_batches.
  assert (Hne : Forall (fun g : string * Z * pairs_table => g.2 ≠ [])
                       (sections_of df_pairs)).
  { apply Forall_forall. intros g Hg. by eapply groupby_nonempty. }
  induction Hne as [|g gs Hg _ IH]; [done|].
  rewrite !fmap_cons. cbn [concat]. rewrite IH.
  by rewrite batches_of_zero_all.
Qed.

(** ** Errors of the dispatcher *)

Section DispatcherExtras.
Context {R K : Type} (ctor : attrs -> attrs).

Lemma process_batch_cores (mc : gmap string string) (render : R) (N : Z) (kw : K)
    (stack coll : string) (cur : nat) (batch : pairs_table) (s : dstate R K) :
  mc !! stack = Some coll -> N < 1 ->
  exists s',
    process_batch ctor mc render N kw stack cur batch s
    = (Raise (ValueError "Number of processes must be at least 1"), s')
    /\ submitted s' = submitted s.
Proof.
  intros Hmc HN. unfold process_batch, getitem. rewrite Hmc.
  destruct (clone_options_run ctor batch (fst <$> batch) cur [] s)
    as (cur' & locs & s1 & Hrun & Hsub & _).
  simpl in Hrun. unfold bind at 1. unfold lift_result at 1.
  unfold clone_options. erewrite bind_Ok; [|exact Hrun].
  unfold WithPool_map, bind, ret.
  apply Z.ltb_lt in HN. rewrite HN. by exists s1.
Qed.

(** The two loops of the dispatcher are one loop over the batches. *)
Lemma generate_point_matches_flat (df_pairs : pairs_table) (mc : gmap string string)
    (tmpl : nat) (render : R) (N batch_size : Z) (kw : K) (s : dstate R K)
    (r : result nat) (s' : dstate R K) :
  for_loop (all_batches df_pairs batch_size) tmpl
    (fun cur b => process_batch ctor mc render N kw b.1 cur b.2) s = (r, s') ->
  generate_point_matches ctor df_pairs mc tmpl render N batch_size kw s
  = (match r with Ok _ => Ok tt | Raise e => Raise e end, s').
Proof.
  intros Hrun.
  assert (Hloop :
    for_loop (sections_of df_pairs) tmpl
      (fun sift_options '((stack, z), tile_pairs) =>
         for_loop (batches_of batch_size tile_pairs) sift_options
           (process_batch ctor mc render N kw stack)) s = (r, s')).
  { rewrite <- Hrun. unfold all_batches.
    erewrite for_loop_ext.
    - rewrite (for_loop_nested (sections_of df_pairs)
                 (fun g => batches_of batch_size g.2) tmpl
                 (fun g cur batch => process_batch ctor mc render N kw g.1.1 cur batch)).
      assert (Hflat : forall gs : list (string * Z * pairs_table),
        concat ((fun g => (fun batch => (g.1.1, batch)) <$> batches_of batch_size g.2) <$> gs)
        = (fun xy : string * Z * pairs_table * pairs_table => (xy.1.1.1, xy.2))
            <$> concat ((fun g => (fun y => (g, y)) <$> batches_of batch_size g.2) <$> gs)).
      { intros gs. induction gs as [|g gs IHg]; [done|].
        rewrite !fmap_cons. cbn [concat]. rewrite fmap_app, IHg.
        by rewrite <- list_fmap_compose. }
      rewrite Hflat, for_loop_fmap. done.
    - by intros acc [[stack z] tile_pairs] s0. }
  unfold generate_point_matches.
  destruct r as [cur'|e]; [by erewrite bind_Ok|by erewrite bind_Raise].
Qed.

(** The loop over the batches stops at the first batch it cannot send: the
    pools of the batches before it have run. *)
Lemma dispatch_loop_stops (mc : gmap string string) (render : R) (N : Z) (kw : K)
    (pre : list (string * pairs_table)) (b : string * pairs_table)
    (post : list (string * pairs_table)) (cur : nat) (s : dstate R K) :
  (pre = [] \/ 1 <= N) ->
  Forall (fun b' => is_Some (mc !! b'.1)) pre ->
  (mc !! b.1 = None \/ N < 1) ->
  exists s' : dstate R K,
    for_loop (pre ++ b :: post) cur
      (fun cur b => process_batch ctor mc render N kw b.1 cur b.2) s
    = (Raise (match mc !! b.1 with
              | None => KeyError b.1
              | Some _ => ValueError "Number of processes must be at least 1"
              end), s')
    /\ submitted s' = submitted s ++ expected_jobs ctor mc render N kw (heap s !!! cur) pre
    /\ length (expected_jobs ctor mc render N kw (heap s !!! cur) pre) = length pre.
Proof.
  intros HN Hpre Hfail.
  destruct (dispatch_loop_run ctor mc render N kw pre cur s)
    as (r1 & s1 & Hrun1 & _ & Hsub1 & Hok1).
  assert (Hr1 : exists cur1, r1 = Ok cur1).
  { destruct HN as [->|HN]; [|by apply Hok1].
    simpl in Hrun1. injection Hrun1 as <- <-. by exists cur. }
  destruct Hr1 as [cur1 ->].
  assert (Hlen : length (expected_jobs ctor mc render N kw (heap s !!! cur) pre)
                 = length pre).
  { destruct HN as [->|HN]; [done|]. by apply expected_jobs_length. }
  rewrite for_loop_app. erewrite bind_Ok; [|exact Hrun1]. cbn [for_loop].
  destruct (mc !! b.1) as [coll|] eqn:Hmc.
  - destruct Hfail as [?|HN1]; [done|].
    destruct (process_batch_cores mc render N kw b.1 coll cur1 b.2 s1 Hmc HN1)
      as (s' & Hrun & Hsub).
    exists s'. split; [by erewrite bind_Raise|]. by rewrite Hsub.
  - destruct (process_batch_run ctor mc render N kw b.1 cur1 b.2 s1)
      as (r & s' & Hrun & _ & Hcase).
    rewrite Hmc in Hcase. destruct Hcase as [-> Hsub].
    exists s'. split; [by erewrite bind_Raise|]. by rewrite Hsub.
Qed.

Lemma batch_pairs_of_jobs (mc : gmap string string) (render : R) (N : Z) (kw : K)
    (d : attrs) (bs : list (string * pairs_table)) :
  length (expected_jobs ctor mc render N kw d bs) = length bs ->
  Forall2 (fun (job : pool_job R K) (b : string * pairs_table) =>
             job_size job = N
             /\ pm_tile_pairs <$> job_calls job
                = (fun lr : Z * tile_pair => [(p_id lr.2, q_id lr.2)]) <$> b.2)
          (expected_jobs ctor mc render N kw d bs) bs.
Proof.
  intros Hlen. pose proof (expected_jobs_batches ctor mc render N kw bs d) as Hall.
  by rewrite Hlen, firstn_all in Hall.
Qed.

(** X11.  The stacks are looked up batch by batch, not before the loops:
    when the first batch whose stack has no collection comes after other
    batches, the pools of those batches have run, one per batch with the
    pairs of the batch, and then the dispatcher raises [KeyError] with the
    name of the stack. *)
Theorem missing_collection_raises_after_earlier_pools
    (df_pairs : pairs_table) (match_collections : gmap string string)
    (sift_options : nat) (render : R) (N_cores batch_size : Z) (kwargs : K)
    (h : gmap nat attrs)
    (pre : list (string * pairs_table)) (b : string * pairs_table)
    (post : list (string * pairs_table)) :
  1 <= N_cores ->
  all_batches df_pairs batch_size = pre ++ b :: post ->
  Forall (fun b' => is_Some (match_collections !! b'.1)) pre ->
  match_collections !! b.1 = None ->
  exists s' : dstate R K,
    generate_point_matches ctor df_pairs match_collections sift_options
      render N_cores batch_size kwargs (mkDState h [])
    = (Raise (KeyError b.1), s')
    /\ Forall2 (fun (job : pool_job R K) (b' : string * pairs_table) =>
                  job_size job = N_cores
                  /\ pm_tile_pairs <$> job_calls job
                     = (fun lr : Z * tile_pair => [(p_id lr.2, q_id lr.2)]) <$> b'.2)
               (submitted s') pre.
Proof.
  intros HN Hsplit Hpre Hb.
  destruct (dispatch_loop_stops match_collections render N_cores kwargs pre b post
              sift_options (mkDState h [])) as (s' & Hrun & Hsub & Hlen);
    [by right|done|by left|].
  rewrite Hb in Hrun. rewrite <- Hsplit in Hrun.
  apply generate_point_matches_flat in Hrun.
  exists s'. split; [exact Hrun|].
  rewrite Hsub. simpl. by apply batch_pairs_of_jobs.
Qed.

Lemma all_batches_nil_inv (df_pairs : pairs_table) (batch_size : Z) :
  all_batches df_pairs batch_size = [] -> df_pairs = [].
Proof.
  intros Hnil. pose proof (all_batches_perm df_pairs batch_size) as Hperm.
  rewrite Hnil in Hperm. simpl in Hperm. symmetry in Hperm.
  by apply Permutation_nil_r in Hperm.
Qed.

(** X12.  With fewer than one core and a table that is not empty, the
    dispatcher raises at its first batch and runs no pool: [KeyError] when
    the stack of that batch has no collection, the [ValueError] of the pool
    otherwise. *)
Theorem no_cores_raises_at_first_batch
    (df_pairs : pairs_table) (match_collections : gmap string string)
    (sift_options : nat) (render : R) (N_cores batch_size : Z) (kwargs : K)
    (h : gmap nat attrs) :
  N_cores < 1 -> df_pairs ≠ [] ->
  exists (b : string * pairs_table) (post : list (string * pairs_table))
         (s' : dstate R K),
    all_batches df_pairs batch_size = b :: post
    /\ generate_point_matches ctor df_pairs match_collections sift_options
         render N_cores batch_size kwargs (mkDState h [])
       = (Raise (match match_collections !! b.1 with
                 | None => KeyError b.1
                 | Some _ => ValueError "Number of processes must be at least 1"
                 end), s')
    /\ submitted s' = [].
Proof.
  intros HN Hne.
  destruct (all_batches df_pairs batch_size) as [|b post] eqn:Hall.
  { by apply all_batches_nil_inv in Hall. }
  destruct (dispatch_loop_stops match_collections render N_cores kwargs [] b post
              sift_options (mkDState h [])) as (s' & Hrun & Hsub & _);
    [by left|done|by right|].
  cbn [app] in Hrun. simpl in Hsub. rewrite <- Hall in Hrun.
  apply generate_point_matches_flat in Hrun.
  exists b, post, s'. split; [done|]. split; [|done].
  rewrite Hrun. by destruct (match_collections !! b.1).
Qed.

Lemma first_failure {A} (P : A -> Prop) `{!forall x, Decision (P x)} (l : list A) :
  Forall P l \/ exists pre x post, l = pre ++ x :: post /\ Forall P pre /\ ~ P x.
Proof.
  induction l as [|x l IH]; [by left|].
  destruct (decide (P x)) as [Hx|Hx].
  - destruct IH as [IH|(pre & y & post & -> & Hpre & Hy)]; [left; by constructor|].
    right. exists (x :: pre), y, post. split; [done|]. split; [by constructor|done].
  - right. exists [], x, l. split; [done|]. split; [constructor|done].
Qed.

(** X13.  The dispatcher returns exactly when the table is empty, or there
    is one core at least and every stack of the table has a collection. *)
Theorem dispatcher_returns_iff
    (df_pairs : pairs_table) (match_collections : gmap string string)
    (sift_options : nat) (render : R) (N_cores batch_size : Z) (kwargs : K)
    (h : gmap nat attrs) :
  (generate_point_matches ctor df_pairs match_collections sift_options
     render N_cores batch_size kwargs (mkDState h [])).1 = Ok tt
  <-> df_pairs = []
      \/ (1 <= N_cores
          /\ forall lr, lr ∈ df_pairs -> is_Some (match_collections !! tp_stack lr.2)).
Proof.
  split.
  - intros Hok. destruct (decide (df_pairs = [])) as [?|Hne]; [by left|]. right.
    destruct (all_batches df_pairs batch_size) as [|b0 post0] eqn:Hall.
    { by apply all_batches_nil_inv in Hall. }
    assert (HN : 1 <= N_cores).
    { destruct (decide (1 <= N_cores)) as [?|HN]; [done|]. exfalso.
      destruct (dispatch_loop_stops match_collections render N_cores kwargs [] b0 post0
                  sift_options (mkDState h [])) as (s' & Hrun & _);
        [by left|done|right; lia|].
      cbn [app] in Hrun. rewrite <- Hall in Hrun.
      apply generate_point_matches_flat in Hrun. rewrite Hrun in Hok.
      simpl in Hok. by destruct (match_collections !! b0.1). }
    split; [done|].
    destruct (first_failure (fun b : string * pairs_table =>
                               is_Some (match_collections !! b.1))
                (all_batches df_pairs batch_size))
      as [Hmapped|(pre & b & post & Hsplit & Hpre & Hb)].
    + intros lr Hlr.
      rewrite <- (all_batches_perm df_pairs batch_size) in Hlr.
      apply elem_of_concat in Hlr as (batch & Hlr & Hbatch).
      apply list_elem_of_fmap in Hbatch as (b & -> & Hb).
      pose proof (all_batches_stacks df_pairs batch_size) as Hst.
      rewrite Forall_forall in Hst, Hmapped.
      rewrite (Hst b Hb lr Hlr). by apply Hmapped.
    + exfalso.
      destruct (dispatch_loop_stops match_collections render N_cores kwargs pre b post
                  sift_options (mkDState h [])) as (s' & Hrun & _);
        [by right|done|left; by apply eq_None_not_Some|].
      rewrite <- Hsplit in Hrun.
      apply generate_point_matches_flat in Hrun. rewrite Hrun in Hok.
      simpl in Hok. by destruct (match_collections !! b.1).
  - intros [->|[HN Hmc]].
    + reflexivity.
    + destruct (generate_point_matches_run ctor df_pairs match_collections sift_options
                  render N_cores batch_size kwargs (mkDState h []))
        as (r & s' & -> & _ & _ & Hok).
      simpl. apply Hok; [done|]. by apply all_batches_collections.
Qed.

End DispatcherExtras.

(** ** The pools and the objects of a run *)

Lemma all_batches_consecutive (df_pairs : pairs_table) (b : nat) :
  (0 < b)%nat ->
  snd <$> all_batches df_pairs (Z.of_nat b)
  = concat ((fun g : string * Z * pairs_table => consecutive_batches b g.2)
              <$> sections_of df_pairs).
Proof.
  intros Hb. unfold all_batches. generalize (sections_of df_pairs). intros gs.
  induction gs as [|g gs IH]; [done|].
  rewrite !fmap_cons. cbn [concat]. rewrite fmap_app, IH. f_equal.
  rewrite <- list_fmap_compose. simpl. rewrite list_fmap_id.
  unfold batches_of. by apply groupby_array_batches.
Qed.

Lemma length_concat_sum {A} (ls : list (list A)) :
  length (concat ls) = sum_list (length <$> ls).
Proof. induction ls as [|l ls IH]; simpl; [done|]. by rewrite length_app, IH. Qed.

Section PoolExtras.
Context {R K : Type} (ctor : attrs -> attrs).

(** X14.  No pool is opened for nothing: whatever the batch size, the
    number of cores and the mapping, every pool the dispatcher runs is
    given one call at least. *)
Theorem no_pool_without_calls
    (df_pairs : pairs_table) (match_collections : gmap string string)
    (sift_options : nat) (render : R) (N_cores batch_size : Z) (kwargs : K)
    (h : gmap nat attrs) :
  Forall (fun job : pool_job R K => job_calls job ≠ [])
    (submitted (generate_point_matches ctor df_pairs match_collections sift_options
                  render N_cores batch_size kwargs (mkDState h [])).2).
Proof.
  destruct (generate_point_matches_run ctor df_pairs match_collections sift_options
              render N_cores batch_size kwargs (mkDState h []))
    as (r & s' & -> & _ & Hsub & _).
  simpl in *. rewrite Hsub.
  pose proof (expected_jobs_batches ctor match_collections render N_cores kwargs
                (all_batches df_pairs batch_size) (h !!! sift_options)) as Hall.
  pose proof (all_batches_nonempty df_pairs batch_size) as Hne.
  apply (Forall_take _ (length (expected_jobs ctor match_collections render N_cores kwargs
                                  (h !!! sift_options) (all_batches df_pairs batch_size))))
    in Hne.
  revert Hall Hne.
  generalize (take (length (expected_jobs ctor match_collections render N_cores kwargs
                              (h !!! sift_options) (all_batches df_pairs batch_size)))
                   (all_batches df_pairs batch_size)).
  generalize (expected_jobs ctor match_collections render N_cores kwargs
                (h !!! sift_options) (all_batches df_pairs batch_size)).
  intros jobs bs Hall. induction Hall as [|job b jobs bs [_ Hpairs] _ IH]; intros Hne.
  - constructor.
  - apply Forall_cons in Hne as [Hb Hne]. constructor; [|by apply IH].
    intros Hnil. rewrite Hnil in Hpairs. simpl in Hpairs.
    destruct b.2; [done|discriminate Hpairs].
Qed.

(** X15.  For a positive batch size, one core at least and a collection for
    every stack, the dispatcher runs, for every [(stack, z)] group of [n]
    rows, the [ceil (n / batch_size)] pools of its batches: the number of
    pools is the sum of these numbers over the groups, and no pool is given
    more than [batch_size] calls. *)
Theorem pool_count_per_section
    (df_pairs : pairs_table) (match_collections : gmap string string)
    (sift_options : nat) (render : R) (N_cores : Z) (batch_size : nat) (kwargs : K)
    (h : gmap nat attrs) :
  (0 < batch_size)%nat ->
  1 <= N_cores ->
  (forall lr, lr ∈ df_pairs -> is_Some (match_collections !! tp_stack lr.2)) ->
  let jobs := submitted (generate_point_matches ctor df_pairs match_collections
                           sift_options render N_cores (Z.of_nat batch_size) kwargs
                           (mkDState h [])).2 in
  length jobs
  = sum_list ((fun g : string * Z * pairs_table =>
                 (length g.2 + batch_size - 1) / batch_size)%nat
              <$> sections_of df_pairs)
  /\ Forall (fun job : pool_job R K =>
               (0 < length (job_calls job) <= batch_size)%nat) jobs.
Proof.
  intros Hb HN Hmc jobs. subst jobs.
  destruct (generate_point_matches_run ctor df_pairs match_collections sift_options
              render N_cores (Z.of_nat batch_size) kwargs (mkDState h []))
    as (r & s' & -> & _ & Hsub & _).
  simpl in *. rewrite Hsub.
  pose proof (all_batches_collections _ (Z.of_nat batch_size) _ Hmc) as Hall.
  pose proof (expected_jobs_length ctor match_collections render N_cores kwargs
                (all_batches df_pairs (Z.of_nat batch_size)) (h !!! sift_options)
                HN Hall) as Hlen.
  pose proof (batch_pairs_of_jobs ctor match_collections render N_cores kwargs
                (h !!! sift_options) _ Hlen) as Hjobs.
  split.
  - rewrite Hlen.
    rewrite <- (length_fmap snd), all_batches_consecutive by done.
    rewrite length_concat_sum, <- list_fmap_compose. f_equal.
    apply list_fmap_ext. intros _ g _. simpl. apply consecutive_batches_length.
  - assert (Hsizes : Forall (fun b : string * pairs_table =>
                               (0 < length b.2 <= batch_size)%nat)
                            (all_batches df_pairs (Z.of_nat batch_size))).
    { apply Forall_forall. intros b Hbin.
      assert (Hsnd : b.2 ∈ snd <$> all_batches df_pairs (Z.of_nat batch_size)).
      { apply list_elem_of_fmap. by exists b. }
      rewrite all_batches_consecutive in Hsnd by done.
      apply elem_of_concat in Hsnd as (bs & Hin & Hbs).
      apply list_elem_of_fmap in Hbs as (g & -> & _).
      apply list_elem_of_lookup in Hin as [i Hi].
      by apply consecutive_batches_sizes in Hi as [? _]. }
    revert Hjobs Hsizes.
    generalize (all_batches df_pairs (Z.of_nat batch_size)).
    generalize (expected_jobs ctor match_collections render N_cores kwargs
                  (h !!! sift_options) (all_batches df_pairs (Z.of_nat batch_size))).
    intros js bs Hjobs. induction Hjobs as [|job b js' bs' [_ Hpairs] _ IH]; intros Hsz.
    + constructor.
    + apply Forall_cons in Hsz as [Hsz1 Hsz]. constructor; [|by apply IH].
      assert (Hl : length (job_calls job) = length b.2).
      { by rewrite <- (length_fmap pm_tile_pairs), Hpairs, length_fmap. }
      by rewrite Hl.
Qed.

End PoolExtras.

(** ** The objects the dispatcher makes *)

Section ObjectExtras.
Context {R K : Type} (ctor : attrs -> attrs).

Lemma clone_loop_size (batch : pairs_table) (ls : list Z) :
  forall (cur : nat) (acc : list nat) (s : dstate R K) r s',
  for_loop ls (cur, acc)
    (fun '(sift_options, sift_options_batch) i =>
       kwargs <- get_dict sift_options ;;
       sift_options <- SiftPointMatchOptions ctor kwargs ;;
       setattr sift_options "firstCanvasPosition" (loc_relativePosition batch i) ;;;
       ret (sift_options, sift_options_batch ++ [sift_options])) s
  = (r, s') ->
  size (heap s') = (size (heap s) + length ls)%nat.
Proof.
  induction ls as [|i ls IH]; intros cur acc s r s' Hrun.
  - simpl in Hrun. injection Hrun as _ <-. simpl. lia.
  - cbn [for_loop] in Hrun. erewrite bind_Ok in Hrun; [|apply clone_step].
    apply IH in Hrun. rewrite Hrun. simpl.
    rewrite map_size_insert_None; [lia|].
    apply not_elem_of_dom. apply is_fresh.
Qed.

Lemma process_batch_size (mc : gmap string string) (render : R) (N : Z) (kw : K)
    (stack : string) (cur : nat) (batch : pairs_table) (s : dstate R K) r s' :
  is_Some (mc !! stack) ->
  process_batch ctor mc render N kw stack cur batch s = (r, s') ->
  size (heap s') = (size (heap s) + length batch)%nat.
Proof.
  intros [coll Hmc] Hrun. unfold process_batch, getitem in Hrun. rewrite Hmc in Hrun.
  unfold bind at 1 in Hrun. unfold lift_result at 1 in Hrun.
  unfold clone_options in Hrun.
  destruct (for_loop (fst <$> batch) (cur, [])
              (fun '(sift_options, sift_options_batch) i =>
                 kwargs <- get_dict sift_options ;;
                 sift_options <- SiftPointMatchOptions ctor kwargs ;;
                 setattr sift_options "firstCanvasPosition" (loc_relativePosition batch i) ;;;
                 ret (sift_options, sift_options_batch ++ [sift_options])) s)
    as [r1 s1] eqn:Hloop.
  pose proof (clone_loop_size _ _ _ _ _ _ _ Hloop) as Hsize.
  rewrite length_fmap in Hsize.
  destruct r1 as [[cur' locs]|e].
  - erewrite bind_Ok in Hrun; [|exact Hloop].
    unfold WithPool_map, bind, ret in Hrun.
    destruct (N <? 1); injection Hrun as _ <-; exact Hsize.
  - erewrite bind_Raise in Hrun; [|exact Hloop]. by injection Hrun as _ <-.
Qed.

Lemma dispatch_loop_size (mc : gmap string string) (render : R) (N : Z) (kw : K)
    (bs : list (string * pairs_table)) :
  Forall (fun b => is_Some (mc !! b.1)) bs ->
  forall (cur : nat) (s : dstate R K) cur' s',
  for_loop bs cur (fun cur b => process_batch ctor mc render N kw b.1 cur b.2) s
  = (Ok cur', s') ->
  size (heap s') = (size (heap s) + length (concat (snd <$> bs)))%nat.
Proof.
  induction 1 as [|b bs Hb _ IH]; intros cur s cur' s' Hrun.
  - simpl in Hrun. injection Hrun as _ <-. simpl. lia.
  - cbn [for_loop] in Hrun.
    destruct (process_batch ctor mc render N kw b.1 cur b.2 s) as [r1 s1] eqn:Hstep.
    pose proof (process_batch_size _ _ _ _ _ _ _ _ _ _ Hb Hstep) as Hsize.
    destruct r1 as [cur1|e].
    + erewrite bind_Ok in Hrun; [|exact Hstep]. apply IH in Hrun.
      rewrite Hrun, Hsize, fmap_cons. cbn [concat]. rewrite length_app. lia.
    + erewrite bind_Raise in Hrun; [|exact Hstep]. discriminate Hrun.
Qed.

(** X16.  With one core at least and a collection for every stack, the
    dispatcher makes one new options object per row of the table, and no
    other object. *)
Theorem one_options_object_per_row
    (df_pairs : pairs_table) (match_collections : gmap string string)
    (sift_options : nat) (render : R) (N_cores batch_size : Z) (kwargs : K)
    (s : dstate R K) :
  1 <= N_cores ->
  (forall lr, lr ∈ df_pairs -> is_Some (match_collections !! tp_stack lr.2)) ->
  size (heap (generate_point_matches ctor df_pairs match_collections sift_options
                render N_cores batch_size kwargs s).2)
  = (size (heap s) + length df_pairs)%nat.
Proof.
  intros HN Hmc.
  pose proof (all_batches_collections _ batch_size _ Hmc) as Hall.
  destruct (dispatch_loop_run ctor match_collections render N_cores kwargs
              (all_batches df_pairs batch_size) sift_options s)
    as (r & s' & Hrun & _ & _ & Hok).
  destruct (Hok HN Hall) as [cur' ->].
  pose proof (dispatch_loop_size _ _ _ _ _ Hall _ _ _ _ Hrun) as Hsize.
  apply generate_point_matches_flat in Hrun. rewrite Hrun. simpl.
  rewrite Hsize. f_equal. by rewrite all_batches_perm.
Qed.

(** *** Tables with unique index labels *)

Lemma clone_chain_positions (vs : list pyval) :
  forall d : attrs,
  Forall2 (fun d' v => d' !! "firstCanvasPosition" = Some v) (clone_chain ctor d vs) vs.
Proof.
  induction vs as [|v vs IH]; intros d; [constructor|].
  simpl. constructor; [apply lookup_insert_eq|apply IH].
Qed.

Lemma expected_jobs_positions (mc : gmap string string) (render : R) (N : Z) (kw : K)
    (bs : list (string * pairs_table)) :
  forall d : attrs,
  Forall2 (fun (job : pool_job R K) (b : string * pairs_table) =>
             Forall2 (fun (c : pm_call R K) (lr : Z * tile_pair) =>
                        pm_sift_options c !! "firstCanvasPosition"
                        = Some (loc_relativePosition b.2 lr.1))
                     (job_calls job) b.2)
          (expected_jobs ctor mc render N kw d bs)
          (take (length (expected_jobs ctor mc render N kw d bs)) bs).
Proof.
  induction bs as [|b bs IH]; intros d; [constructor|].
  cbn [expected_jobs]. destruct (mc !! b.1) as [coll|]; [|constructor].
  destruct (N <? 1); [constructor|].
  simpl. constructor; [|apply IH].
  unfold batch_positions.
  apply (zip_chain_Forall2 b.1 coll render kw
           (fun d' v => d' !! "firstCanvasPosition" = Some v)
           (loc_relativePosition b.2)).
  apply clone_chain_positions.
Qed.

End ObjectExtras.

Lemma NoDup_fst_filter (l : pairs_table) (lr : Z * tile_pair) :
  NoDup l.*1 -> lr ∈ l -> label_unique l lr.1.
Proof.
  unfold label_unique. induction l as [|x l IH]; intros Hnd Hlr.
  - by apply elem_of_nil in Hlr.
  - rewrite fmap_cons in Hnd. apply NoDup_cons in Hnd as [Hx Hnd].
    apply elem_of_cons in Hlr as [->|Hlr].
    + rewrite filter_cons_True by done. simpl. f_equal.
      rewrite filter_Forall_none; [done|].
      apply Forall_forall. intros y Hy Heq. apply Hx.
      rewrite <- Heq. apply list_elem_of_fmap. by exists y.
    + rewrite filter_cons_False; [by apply IH|].
      intros Heq. apply Hx. rewrite Heq. apply list_elem_of_fmap. by exists lr.
Qed.

Lemma all_batches_labels (df_pairs : pairs_table) (batch_size : Z)
    (b : string * pairs_table) :
  NoDup df_pairs.*1 -> b ∈ all_batches df_pairs batch_size -> NoDup b.2.*1.
Proof.
  intros Hnd Hb.
  rewrite <- (all_batches_perm df_pairs batch_size) in Hnd.
  assert (Hin : b.2 ∈ snd <$> all_batches df_pairs batch_size).
  { apply list_elem_of_fmap. by exists b. }
  revert Hnd Hin. generalize (snd <$> all_batches df_pairs batch_size). intros ls.
  induction ls as [|l ls IH]; intros Hnd Hin; [by apply elem_of_nil in Hin|].
  cbn [concat] in Hnd. rewrite fmap_app in Hnd.
  apply NoDup_app in Hnd as (Hl & _ & Hls).
  apply elem_of_cons in Hin as [->|Hin]; [done|by apply IH].
Qed.

(** X17.  When no two rows of the table share an index label, the options
    of every call hold under [firstCanvasPosition] the [p.relativePosition]
    of the row of the call; the constructor of the options plays no part. *)
Theorem unique_labels_give_row_positions {R K : Type} (ctor : attrs -> attrs)
    (df_pairs : pairs_table) (match_collections : gmap string string)
    (sift_options : nat) (render : R) (N_cores batch_size : Z) (kwargs : K)
    (h : gmap nat attrs) :
  NoDup df_pairs.*1 ->
  let jobs := submitted (generate_point_matches ctor df_pairs match_collections
                           sift_options render N_cores batch_size kwargs
                           (mkDState h [])).2 in
  Forall2 (fun (job : pool_job R K) (b : string * pairs_table) =>
             Forall2 (fun (c : pm_call R K) (lr : Z * tile_pair) =>
                        pm_sift_options c !! "firstCanvasPosition"
                        = Some (p_relativePosition lr.2))
                     (job_calls job) b.2)
          jobs (take (length jobs) (all_batches df_pairs batch_size)).
Proof.
  intros Hnd jobs. subst jobs.
  destruct (generate_point_matches_run ctor df_pairs match_collections sift_options
              render N_cores batch_size kwargs (mkDState h []))
    as (r & s' & -> & _ & Hsub & _).
  simpl in *. rewrite Hsub.
  eapply Forall2_impl_elem; [apply expected_jobs_positions|].
  simpl. intros job b Hb Hcalls.
  apply elem_of_take in Hb as (i & Hb & _). apply list_elem_of_lookup_2 in Hb.
  pose proof (all_batches_labels _ _ _ Hnd Hb) as Hlabels.
  eapply Forall2_impl_elem; [exact Hcalls|].
  simpl. intros c lr Hlr ->. f_equal.
  apply loc_relativePosition_unique; [done|]. by apply NoDup_fst_filter.
Qed.

(** ** The dispatcher on the demo tables *)

Lemma missing_collection_raises_after_earlier_pools_witness :
  exists s' : dstate unit unit,
    generate_point_matches (fun d => d) two_stack_pairs demo_collections 0%nat
      tt 4 4 tt demo_dstate
    = (Raise (KeyError "zebra"), s')
    /\ length (submitted s') = 3%nat.
Proof.
  destruct (missing_collection_raises_after_earlier_pools (fun d => d)
              two_stack_pairs demo_collections 0%nat tt 4 4 tt
              {[ 0%nat := demo_template ]}
              (take 3 (all_batches two_stack_pairs 4))
              ("zebra", [(10, mkTilePair "zebra" 1 "z-0x0" "z-1x0" (PStr "LEFT"))])
              [])
    as (s' & Hrun & Hall).
  - lia.
  - vm_compute. reflexivity.
  - vm_compute. repeat constructor; by eexists.
  - reflexivity.
  - exists s'. split; [exact Hrun|]. apply Forall2_length in Hall. exact Hall.
Defined.

Lemma no_cores_raises_at_first_batch_witness :
  exists s' : dstate unit unit,
    generate_point_matches (fun d => d) demo_pairs demo_collections 0%nat
      tt 0 4 tt demo_dstate
    = (Raise (ValueError "Number of processes must be at least 1"), s')
    /\ submitted s' = [].
Proof.
  destruct (no_cores_raises_at_first_batch (fun d => d) demo_pairs demo_collections
              0%nat tt 0 4 tt {[ 0%nat := demo_template ]})
    as (b & post & s' & Hall & Hrun & Hsub).
  - lia.
  - discriminate.
  - exists s'. split; [|exact Hsub].
    vm_compute in Hall. injection Hall as <- <-. exact Hrun.
Defined.

Lemma pool_count_per_section_witness :
  length (submitted (generate_point_matches (fun d => d) demo_pairs demo_collections
                       0%nat tt 4 4 tt demo_dstate).2) = 3%nat.
Proof.
  destruct (pool_count_per_section (fun d => d) demo_pairs demo_collections 0%nat
              tt 4 4%nat tt {[ 0%nat := demo_template ]}) as [Hlen _].
  - lia.
  - lia.
  - exact demo_pairs_collections.
  - exact Hlen.
Defined.

Lemma one_options_object_per_row_witness :
  size (heap (generate_point_matches (fun d => d) demo_pairs demo_collections
                0%nat tt 4 4 tt demo_dstate).2)
  = (size (heap demo_dstate) + 10)%nat.
Proof.
  apply (one_options_object_per_row (fun d => d) demo_pairs demo_collections 0%nat
           tt 4 4 tt demo_dstate).
  - lia.
  - exact demo_pairs_collections.
Defined.

Lemma unique_labels_give_row_positions_witness :
  let jobs := submitted (generate_point_matches (fun d => d) demo_pairs
                           demo_collections 0%nat tt 4 4 tt demo_dstate).2 in
  Forall2 (fun (job : pool_job unit unit) (b : string * pairs_table) =>
             Forall2 (fun (c : pm_call unit unit) (lr : Z * tile_pair) =>
                        pm_sift_options c !! "firstCanvasPosition"
                        = Some (p_relativePosition lr.2))
                     (job_calls job) b.2)
          jobs (take (length jobs) (all_batches demo_pairs 4)).
Proof.
  apply (unique_labels_give_row_positions (fun d => d) demo_pairs demo_collections
           0%nat tt 4 4 tt {[ 0%nat := demo_template ]}).
  apply (bool_decide_unpack _). vm_compute. exact I.
Defined.

(** ** What every call is given *)

Lemma zip_chain_forward {R K} (stack coll : string) (render : R) (kw : K)
    (l : pairs_table) :
  forall chain : list attrs,
  Forall (fun c : pm_call R K =>
            pm_render c = render /\ pm_kwargs c = kw
            /\ length (pm_tile_pairs c) = 1%nat)
         (zip_with (fun (lr : Z * tile_pair) d' =>
                      mkCall stack coll [(p_id lr.2, q_id lr.2)] d' render kw)
                   l chain).
Proof.
  induction l as [|lr l IH]; intros [|d' chain]; simpl; try constructor; [done|apply IH].
Qed.

(** X19.  Every call of [pointMatchClient] is given the render object and
    the extra keyword arguments the dispatcher was called with, and one
    pair of tiles; every pool has [N_cores] workers. *)
Theorem calls_forward_render_and_kwargs {R K : Type} (ctor : attrs -> attrs)
    (df_pairs : pairs_table) (match_collections : gmap string string)
    (sift_options : nat) (render : R) (N_cores batch_size : Z) (kwargs : K)
    (h : gmap nat attrs) :
  Forall (fun job : pool_job R K =>
            job_size job = N_cores
            /\ Forall (fun c : pm_call R K =>
                         pm_render c = render /\ pm_kwargs c = kwargs
                         /\ length (pm_tile_pairs c) = 1%nat)
                      (job_calls job))
    (submitted (generate_point_matches ctor df_pairs match_collections sift_options
                  render N_cores batch_size kwargs (mkDState h [])).2).
Proof.
  destruct (generate_point_matches_run ctor df_pairs match_collections sift_options
              render N_cores batch_size kwargs (mkDState h []))
    as (r & s' & -> & _ & Hsub & _).
  simpl in *. rewrite Hsub.
  generalize (h !!! sift_options). generalize (all_batches df_pairs batch_size).
  intros bs. induction bs as [|b bs IH]; intros d; [constructor|].
  cbn [expected_jobs]. destruct (match_collections !! b.1) as [coll|]; [|constructor].
  destruct (N_cores <? 1); [constructor|].
  constructor; [|apply IH]. split; [done|]. apply zip_chain_forward.
Qed.

(** ** The fields the clones keep *)

Lemma Forall2_Forall_l_elem {A B} (P : A -> B -> Prop) (Q : A -> Prop)
    (l : list A) (k : list B) :
  Forall2 P l k -> (forall x y, P x y -> Q x) -> Forall Q l.
Proof. induction 1; intros HPQ; constructor; eauto. Qed.

(** X20.  When the constructor of the options stores every keyword
    argument under its name, the options of every call hold, under every
    name other than [firstCanvasPosition], what the template of the caller
    holds: the clones are made one from the other, and nothing but the
    canvas position changes along the way. *)
Theorem clones_keep_template_fields {R K : Type} (ctor : attrs -> attrs)
    (df_pairs : pairs_table) (match_collections : gmap string string)
    (sift_options : nat) (render : R) (N_cores batch_size : Z) (kwargs : K)
    (h : gmap nat attrs) (d0 : attrs) :
  (forall (d : attrs) (k : string),
     k ≠ "firstCanvasPosition" -> ctor d !! k = d !! k) ->
  h !! sift_options = Some d0 ->
  Forall (fun job : pool_job R K =>
            Forall (fun c : pm_call R K =>
                      forall k, k ≠ "firstCanvasPosition" ->
                                pm_sift_options c !! k = d0 !! k)
                   (job_calls job))
    (submitted (generate_point_matches ctor df_pairs match_collections sift_options
                  render N_cores batch_size kwargs (mkDState h [])).2).
Proof.
  intros Hctor Hlive.
  destruct (generate_point_matches_run ctor df_pairs match_collections sift_options
              render N_cores batch_size kwargs (mkDState h []))
    as (r & s' & -> & _ & Hsub & _).
  simpl in *. rewrite Hsub. rewrite (lookup_total_correct _ _ _ Hlive).
  eapply Forall2_Forall_l_elem.
  - by apply (expected_jobs_options ctor Hctor match_collections render N_cores
                kwargs d0 (all_batches df_pairs batch_size) d0).
  - simpl. intros job b Hcalls.
    eapply Forall2_Forall_l_elem; [exact Hcalls|].
    simpl. by intros c lr [Hframe _].
Qed.

Lemma clones_keep_template_fields_witness :
  Forall (fun job : pool_job unit unit =>
            Forall (fun c : pm_call unit unit =>
                      pm_sift_options c !! "renderScale" = Some (PFloat 4)
                      /\ pm_sift_options c !! "SIFTsteps" = Some (PInt 3))
                   (job_calls job))
    (submitted (generate_point_matches (fun d => d) demo_pairs demo_collections
                  0%nat tt 4 4 tt demo_dstate).2).
Proof.
  eapply Forall_impl.
  - apply (clones_keep_template_fields (fun d => d) demo_pairs demo_collections
             0%nat tt 4 4 tt {[ 0%nat := demo_template ]} demo_template).
    + intros d k _. reflexivity.
    + reflexivity.
  - simpl. intros job Hcalls. eapply Forall_impl; [exact Hcalls|].
    simpl. intros c Hc. split; (rewrite Hc; [reflexivity|discriminate]).
Defined.
